(** * nvwa/tree.h: the generic tree, its bulk destruction and its traversals

    A shallow embedding of [nvwa::tree<_Tp, _Policy>] and of the utilities
    of [tree.h]: the children container, [remove_children], the deprecated
    [destroy], [print_tree] and the three traversal iterators.

    Conventions of the embedding.
    - A [tree_ptr] (a [std::unique_ptr] or [std::shared_ptr] to a node) is an
      [option]: [None] is the null handle, [Some t] owns the node [t].  The
      handles stored in a tree are the only owners of the nodes they refer
      to, so that dropping a handle destroys the node (this is what the
      [unique] policy guarantees, and what the [shared] policy does for a
      tree none of whose nodes is held from outside).
    - [std::vector<tree_ptr>] is a [list]; [back] is its last element.
    - An operation whose C++ precondition is violated (undefined behaviour,
      or a failed [assert]) returns [None]. *)

From Equations Require Import Equations.
From Stdlib Require Import List Arith Lia Permutation Bool String Ascii.
Import ListNotations.

(** ** The node type *)

#[local] Unset Elimination Schemes.

Inductive tree (T : Type) : Type :=
| Node (value : T) (children : list (option (tree T))).

#[local] Set Elimination Schemes.

Arguments Node {T} value children.

(** [tree::tree_ptr] and [tree::children_type]. *)
Abbreviation tree_ptr T := (option (tree T)) (only parsing).
Abbreviation children_type T := (list (option (tree T))) (only parsing).

(** [tree::null()]. *)
Definition null {T : Type} : tree_ptr T := None.

(** ** Vector primitives used by the tree *)

Section Vector.
Context {A : Type}.

(** [std::vector::back]: defined on a non-empty vector only. *)
Fixpoint back (l : list A) : option A :=
  match l with
  | [] => None
  | [x] => Some x
  | _ :: l' => back l'
  end.

(** [std::vector::pop_back]: defined on a non-empty vector only. *)
Definition vec_pop_back (l : list A) : option (list A) :=
  match l with
  | [] => None
  | _ => Some (removelast l)
  end.

(** [std::vector::empty]. *)
Definition vec_empty (l : list A) : bool :=
  match l with [] => true | _ => false end.

Lemma back_snoc (l : list A) (x : A) : back (l ++ [x]) = Some x.
Proof.
  induction l as [|a l IH]; [reflexivity|].
  simpl. destruct (l ++ [x]) eqn:E; [destruct l; discriminate|exact IH].
Qed.

Lemma removelast_snoc (l : list A) (x : A) : removelast (l ++ [x]) = l.
Proof. apply removelast_last. Qed.

Lemma back_some_snoc (l : list A) (x : A) :
  back l = Some x -> l = removelast l ++ [x].
Proof.
  intro H.
  destruct (@exists_last _ l) as [l' [y ->]].
  - intro E; rewrite E in H; discriminate.
  - rewrite back_snoc in H. rewrite removelast_snoc. congruence.
Qed.

Lemma back_none (l : list A) : back l = None -> l = [].
Proof.
  destruct l as [|a l]; [reflexivity|].
  destruct (@exists_last _ (a :: l)) as [l' [y E]]; [discriminate|].
  rewrite E, back_snoc. discriminate.
Qed.

Lemma vec_empty_true (l : list A) : vec_empty l = true <-> l = [].
Proof. destruct l; simpl; split; congruence. Qed.

Lemma vec_empty_false (l : list A) : vec_empty l = false <-> l <> [].
Proof. destruct l; simpl; split; congruence. Qed.
End Vector.

(** ** Member functions of [tree] *)

Section Tree.
Context {T : Type}.

Definition _M_value (t : tree T) : T :=
  match t with Node v _ => v end.

Definition _M_children (t : tree T) : children_type T :=
  match t with Node _ c => c end.

(** [value()]. *)
Definition value (t : tree T) : T := _M_value t.

(** [child(index)]: [_M_children[index]], undefined out of range. *)
Definition child (t : tree T) (index : nat) : option (tree_ptr T) :=
  nth_error (_M_children t) index.

(** Assignment through the reference returned by [child(index)]. *)
Fixpoint vec_assign (l : children_type T) (index : nat) (h : tree_ptr T)
  : option (children_type T) :=
  match l, index with
  | [], _ => None
  | _ :: l', O => Some (h :: l')
  | x :: l', S i =>
      match vec_assign l' i h with
      | Some r => Some (x :: r)
      | None => None
      end
  end.

Definition set_child (t : tree T) (index : nat) (h : tree_ptr T)
  : option (tree T) :=
  match vec_assign (_M_children t) index h with
  | Some c => Some (Node (_M_value t) c)
  | None => None
  end.

(** [push_back(ptr)]. *)
Definition push_back (t : tree T) (ptr : tree_ptr T) : tree T :=
  Node (_M_value t) (_M_children t ++ [ptr]).

(** [pop_back()]. *)
Definition pop_back (t : tree T) : option (tree T) :=
  match vec_pop_back (_M_children t) with
  | Some c => Some (Node (_M_value t) c)
  | None => None
  end.

(** [has_child()] and [child_count()]. *)
Definition has_child (t : tree T) : bool :=
  negb (vec_empty (_M_children t)).

Definition child_count (t : tree T) : nat :=
  List.length (_M_children t).

(** [create(value, children)] and [create_tree(value)]. *)
Definition create (v : T) (children : children_type T) : tree_ptr T :=
  Some (Node v children).

Definition create_tree (v : T) : tree_ptr T := create v [].

(** *** Induction over nodes *)

Section Induction.
Variable P : tree T -> Prop.
Hypothesis HNode :
  forall v c, Forall (fun h => forall t, h = Some t -> P t) c ->
              P (Node v c).

Fixpoint tree_ind (t : tree T) : P t :=
  match t with
  | Node v c =>
      HNode v c
        ((fix go (l : children_type T)
            : Forall (fun h => forall t, h = Some t -> P t) l :=
            match l with
            | [] => Forall_nil _
            | h :: l' =>
                Forall_cons h
                  (match h as h0
                         return forall t, h0 = Some t -> P t with
                   | Some t' =>
                       fun t E =>
                         match E in _ = o
                               return match o with
                                      | Some u => P u
                                      | None => True
                                      end with
                         | eq_refl => tree_ind t'
                         end
                   | None => fun t E =>
                       match E in _ = o
                             return match o with
                                    | Some u => P u
                                    | None => True
                                    end with
                       | eq_refl => I
                       end
                   end)
                  (go l')
            end) c)
  end.
End Induction.

(** *** Sizes and contents *)

(** The nodes owned through a handle, resp. a vector of handles: every
    node counts, and so does every slot of every children vector. *)
Fixpoint weight (t : tree T) : nat :=
  match t with
  | Node _ c =>
      S ((fix go (l : children_type T) : nat :=
            match l with
            | [] => 0
            | Some t' :: l' => S (weight t' + go l')
            | None :: l' => S (go l')
            end) c)
  end.

Fixpoint weight_children (l : children_type T) : nat :=
  match l with
  | [] => 0
  | Some t :: l' => S (weight t + weight_children l')
  | None :: l' => S (weight_children l')
  end.

Lemma weight_Node v c : weight (Node v c) = S (weight_children c).
Proof. reflexivity. Qed.

(** The nodes reachable from a node, the node first and then the
    subtrees of its present children from left to right. *)
Fixpoint nodes (t : tree T) : list (tree T) :=
  match t with
  | Node _ c =>
      t :: (fix go (l : children_type T) : list (tree T) :=
              match l with
              | [] => []
              | Some t' :: l' => nodes t' ++ go l'
              | None :: l' => go l'
              end) c
  end.

Fixpoint nodes_children (l : children_type T) : list (tree T) :=
  match l with
  | [] => []
  | Some t :: l' => nodes t ++ nodes_children l'
  | None :: l' => nodes_children l'
  end.

Lemma nodes_Node v c : nodes (Node v c) = Node v c :: nodes_children c.
Proof. reflexivity. Qed.

(** The nodes that are destroyed when a handle is dropped. *)
Definition nodes_ptr (h : tree_ptr T) : list (tree T) :=
  match h with Some t => nodes t | None => [] end.

Lemma weight_children_app l1 l2 :
  weight_children (l1 ++ l2) = weight_children l1 + weight_children l2.
Proof. induction l1 as [|[t|] l1 IH]; simpl; lia. Qed.

Lemma nodes_children_app l1 l2 :
  nodes_children (l1 ++ l2) = nodes_children l1 ++ nodes_children l2.
Proof.
  induction l1 as [|[t|] l1 IH]; simpl; [reflexivity| |exact IH].
  rewrite IH, app_assoc. reflexivity.
Qed.
End Tree.

Arguments weight : simpl never.
Arguments nodes : simpl never.

(** ** [tree::remove_children]: iterative bulk destruction

    <<
    while (has_child()) {
        children_type* children_ptr = &_M_children;
        while (!children_ptr->empty()) {
            while (children_ptr->back() &&
                   children_ptr->back()->has_child()) {
                children_ptr = &children_ptr->back()->_M_children;
            }
            children_ptr->pop_back();
        }
    }
    >>

    [children_ptr] always points to the children vector of a node on the
    chain of last children below [this].  It is represented by the vector it
    points to ([pointee]) together with the enclosing nodes ([above], the
    innermost first): for each of them its value and its children vector
    without the last slot, the one that is being drained.  [plug] gives back
    [this->_M_children] as a whole. *)

Definition inspect {A : Type} (x : A) : {y : A | x = y} := exist _ x eq_refl.

(** Forget the equations between [inspect]ed values that [funelim] leaves
    in the context. *)
Ltac clear_inspect :=
  repeat match goal with
    | H : @eq (sigma _) _ _ |- _ => clear H
    end.

Section RemoveChildren.
Context {T : Type}.

Definition frame : Type := (children_type T * T)%type.

Fixpoint plug (above : list frame) (pointee : children_type T)
  : children_type T :=
  match above with
  | [] => pointee
  | (before, v) :: above' =>
      plug above' (before ++ [Some (Node v pointee)])
  end.

(** The nodes destroyed when the handle [h] is dropped: the node it owns
    and, through the destructor of that node, its descendants. *)
Definition drop (h : tree_ptr T) : list (tree T) := nodes_ptr h.

(** Dropping the slot that [pop_back] removes. *)
Definition drop_back (c : children_type T) : list (tree T) :=
  match back c with
  | Some h => drop h
  | None => []
  end.

Lemma weight_children_back (c : children_type T) (t : tree T) :
  back c = Some (Some t) ->
  weight_children (_M_children t) < weight_children c.
Proof.
  intro E. rewrite (back_some_snoc _ _ E), weight_children_app.
  destruct t as [v k]. cbn [_M_children weight_children]. rewrite weight_Node. lia.
Qed.

(** The innermost loop: follow the last child while it is present and
    has children. *)
Equations? descend (above : list frame) (pointee : children_type T)
  : list frame * children_type T
  by wf (weight_children pointee) lt :=
  descend above pointee with inspect (back pointee) := {
    | exist _ (Some (Some t)) E with inspect (has_child t) := {
        | exist _ true _ :=
            descend ((removelast pointee, _M_value t) :: above)
                    (_M_children t)
        | exist _ false _ := (above, pointee) }
    | exist _ _ _ := (above, pointee) }.
Proof. now apply weight_children_back. Qed.

Lemma plug_app_weight above c1 c2 :
  weight_children c1 < weight_children c2 ->
  weight_children (plug above c1) < weight_children (plug above c2).
Proof.
  revert c1 c2. induction above as [|[before v] above IH]; intros c1 c2 H.
  - exact H.
  - cbn [plug]. apply IH. rewrite !weight_children_app.
    cbn [weight_children]. rewrite !weight_Node. lia.
Qed.

Lemma descend_plug above c :
  plug (fst (descend above c)) (snd (descend above c)) = plug above c.
Proof.
  funelim (descend above c); try reflexivity.
  match goal with IH : plug _ _ = _ |- _ => rewrite IH end.
  destruct t as [v k]. cbn [plug _M_children _M_value].
  f_equal. symmetry. exact (back_some_snoc _ _ E).
Qed.

Lemma descend_nonempty above c :
  c <> [] -> snd (descend above c) <> [].
Proof.
  funelim (descend above c); try (intro; assumption).
  intros _. match goal with IH : _ -> snd _ <> [] |- _ => apply IH end.
  unfold has_child in *.
  destruct (_M_children t); [discriminate|congruence].
Qed.

(** When the innermost loop exits, the last slot is null or a leaf. *)
Lemma descend_back above c :
  match back (snd (descend above c)) with
  | Some (Some t) => has_child t = false
  | _ => True
  end.
Proof.
  funelim (descend above c); cbn [snd];
    try assumption;
    match goal with
    | E : back _ = _ |- _ => rewrite E
    end; auto.
Qed.

Lemma removelast_weight (c : children_type T) :
  c <> [] -> weight_children (removelast c) < weight_children c.
Proof.
  intro H. destruct (exists_last H) as [c' [h ->]].
  rewrite removelast_snoc, weight_children_app.
  destruct h; simpl; lia.
Qed.

(** The middle loop: drain the vector [children_ptr] points to, moving
    [children_ptr] further down whenever the last slot has children.
    [released] records the destroyed nodes, the oldest first. *)
Equations? drain (above : list frame) (pointee : children_type T)
  (released : list (tree T))
  : list frame * children_type T * list (tree T)
  by wf (weight_children (plug above pointee)) lt :=
  drain above pointee released with inspect (vec_empty pointee) := {
    | exist _ true _ := (above, pointee, released)
    | exist _ false E with inspect (descend above pointee) := {
        | exist _ (above', pointee') E' :=
            drain above' (removelast pointee')
                  (released ++ drop_back pointee') } }.
Proof.
  pose proof (descend_plug above pointee) as Hp.
  pose proof (@descend_nonempty above pointee) as Hn.
  rewrite E' in Hp, Hn. simpl in Hp, Hn. rewrite <- Hp.
  apply plug_app_weight, removelast_weight, Hn.
  now apply vec_empty_false.
Qed.

Lemma drain_step_weight above c :
  c <> [] ->
  weight_children
    (plug (fst (descend above c)) (removelast (snd (descend above c))))
  < weight_children (plug above c).
Proof.
  intro H. rewrite <- (descend_plug above c).
  apply plug_app_weight, removelast_weight, descend_nonempty, H.
Qed.

Lemma drain_weight above c released :
  weight_children
    (plug (fst (fst (drain above c released)))
          (snd (fst (drain above c released))))
  + (if vec_empty c then 0 else 1)
  <= weight_children (plug above c).
Proof.
  funelim (drain above c released).
  - cbn [fst snd]. rewrite e. lia.
  - rewrite E.
    pose proof (drain_step_weight above pointee
                  (proj1 (vec_empty_false _) E)) as Hw.
    rewrite E' in Hw. cbn [fst snd] in Hw.
    match goal with IH : _ <= _ |- _ => revert IH end.
    destruct (vec_empty (removelast pointee')); lia.
Qed.

(** The outer loop, on [this->_M_children]. *)
Equations? remove_children_loop (children : children_type T)
  (released : list (tree T))
  : children_type T * list (tree T)
  by wf (weight_children children) lt :=
  remove_children_loop children released
    with inspect (vec_empty children) := {
    | exist _ true _ := (children, released)
    | exist _ false E with inspect (drain [] children released) := {
        | exist _ (above, pointee, released') E' :=
            remove_children_loop (plug above pointee) released' } }.
Proof.
  pose proof (drain_weight [] children released) as Hw.
  rewrite E', E in Hw. cbn [fst snd plug] in Hw. lia.
Qed.

(** [remove_children()]: the node afterwards, and the nodes that were
    destroyed, in the order of their destruction. *)
Definition remove_children (t : tree T) : tree T * list (tree T) :=
  let (children, released) := remove_children_loop (_M_children t) [] in
  (Node (_M_value t) children, released).

(** One iteration of each of the three loops, as a relation between the
    state after and the state before.  The state of the two inner loops
    is [children_ptr]; the state of the outer loop is [_M_children]. *)
Definition descend_iteration (s' s : list frame * children_type T) : Prop :=
  exists t,
    back (snd s) = Some (Some t) /\ has_child t = true /\
    s' = ((removelast (snd s), _M_value t) :: fst s, _M_children t).

Definition drain_iteration (s' s : list frame * children_type T) : Prop :=
  vec_empty (snd s) = false /\
  s' = (fst (descend (fst s) (snd s)),
        removelast (snd (descend (fst s) (snd s)))).

Definition remove_children_iteration (c' c : children_type T) : Prop :=
  vec_empty c = false /\
  exists released,
    c' = plug (fst (fst (drain [] c released)))
              (snd (fst (drain [] c released))).

(** The values of the nodes below a children vector, in pre-order. *)
Definition values_children (c : children_type T) : list T :=
  map _M_value (nodes_children c).

Definition is_leaf (t : tree T) : Prop := _M_children t = [].

(** A chain of [depth] nodes below a root, every node the only child of
    the one above. *)
Fixpoint chain (v : T) (depth : nat) : tree T :=
  match depth with
  | O => Node v []
  | S depth' => Node v [Some (chain v depth')]
  end.
End RemoveChildren.

Section RemoveChildrenFacts.
Context {T : Type}.
Implicit Types (c : children_type T) (above : list (@frame T)).

Lemma values_children_app c1 c2 :
  values_children (c1 ++ c2) = values_children c1 ++ values_children c2.
Proof.
  unfold values_children. now rewrite nodes_children_app, map_app.
Qed.

Lemma values_children_one (t : tree T) :
  values_children [Some t] = _M_value t :: values_children (_M_children t).
Proof.
  unfold values_children. destruct t as [v k].
  cbn [nodes_children]. rewrite nodes_Node, app_nil_r. reflexivity.
Qed.

Lemma plug_values above c1 c2 (x : list T) :
  values_children c2 = values_children c1 ++ x ->
  values_children (plug above c2) = values_children (plug above c1) ++ x.
Proof.
  revert c1 c2. induction above as [|[before v] above IH]; intros c1 c2 H.
  - exact H.
  - cbn [plug]. apply IH.
    rewrite !values_children_app, !values_children_one.
    cbn [_M_value _M_children]. rewrite H, <- app_assoc. reflexivity.
Qed.

(** What one [pop_back] after the innermost loop releases. *)
Lemma drop_back_descend above c :
  c <> [] ->
  let c' := snd (descend above c) in
  Forall is_leaf (drop_back c') /\
  values_children c' =
    values_children (removelast c') ++ rev (map _M_value (drop_back c')).
Proof.
  intros Hc c'. pose proof (descend_back above c) as Hb.
  pose proof (descend_nonempty above c Hc) as Hn.
  fold c' in Hb, Hn. unfold drop_back, drop.
  destruct (back c') as [h|] eqn:E.
  - assert (Hv : values_children c' =
                 values_children (removelast c') ++ values_children [h]).
    { rewrite <- values_children_app. f_equal.
      exact (back_some_snoc _ _ E). }
    rewrite Hv. clear Hv.
    destruct h as [[v k]|]; cbn [nodes_ptr].
    + unfold has_child in Hb. cbn [_M_children] in Hb.
      destruct k; [|discriminate]. rewrite nodes_Node.
      split; [repeat constructor|].
      now rewrite values_children_one.
    + split; [constructor|reflexivity].
  - apply back_none in E. contradiction.
Qed.

Lemma drain_spec above c released :
  let r := drain above c released in
  snd (fst r) = [] /\
  exists d,
    snd r = released ++ d /\ Forall is_leaf d /\
    values_children (plug above c) =
      values_children (plug (fst (fst r)) []) ++ rev (map _M_value d).
Proof.
  funelim (drain above c released); cbn zeta.
  - destruct pointee; [|discriminate]. cbn [fst snd].
    split; [reflexivity|]. exists []. rewrite !app_nil_r.
    repeat split. constructor.
  - match goal with IH : _ /\ (exists _, _) |- _ =>
      destruct IH as [IH1 [d [IHd [IHl IHv]]]] end.
    split; [exact IH1|].
    pose proof (drop_back_descend above pointee
                  (proj1 (vec_empty_false _) E)) as Hd.
    pose proof (descend_plug above pointee) as Hp.
    rewrite E' in Hd, Hp. cbn [fst snd] in Hd, Hp. cbn zeta in Hd.
    destruct Hd as [Hl Hv].
    exists (drop_back pointee' ++ d).
    split; [now rewrite IHd, app_assoc|].
    split; [now apply Forall_app|].
    rewrite <- Hp, (plug_values above' _ _ _ Hv), IHv.
    rewrite map_app, rev_app_distr, app_assoc. reflexivity.
Qed.

Lemma remove_children_loop_spec c released :
  let r := remove_children_loop c released in
  fst r = [] /\
  exists d,
    snd r = released ++ d /\ Forall is_leaf d /\
    values_children c = rev (map _M_value d).
Proof.
  funelim (remove_children_loop c released); cbn zeta.
  - destruct children; [|discriminate]. cbn [fst snd].
    split; [reflexivity|]. exists []. rewrite app_nil_r.
    repeat split. constructor.
  - match goal with IH : _ /\ (exists _, _) |- _ =>
      destruct IH as [IH1 [d [IHd [IHl IHv]]]] end.
    split; [exact IH1|].
    pose proof (drain_spec [] children released) as Hd.
    rewrite E' in Hd. cbn [fst snd plug] in Hd. cbn zeta in Hd.
    destruct Hd as [Hp [d0 [Hd0 [Hl0 Hv0]]]]. subst pointee.
    exists (d0 ++ d).
    split; [now rewrite IHd, Hd0, app_assoc|].
    split; [now apply Forall_app|].
    rewrite Hv0, IHv, map_app, rev_app_distr. reflexivity.
Qed.

Lemma remove_children_spec (t : tree T) :
  exists d,
    remove_children t = (Node (_M_value t) [], d) /\
    Forall is_leaf d /\
    map _M_value d = rev (values_children (_M_children t)).
Proof.
  unfold remove_children.
  pose proof (remove_children_loop_spec (_M_children t) []) as H.
  cbn zeta in H.
  destruct (remove_children_loop (_M_children t) []) as [c d].
  cbn [fst snd] in *. destruct H as [-> [d' [-> [Hl Hv]]]].
  exists d'. cbn [app]. repeat split; try assumption.
  rewrite Hv, rev_involutive. reflexivity.
Qed.

(** C1: [remove_children()] leaves the node without children (its
    [child_count()] is 0, its value is untouched) and destroys every
    descendant: the destroyed nodes are exactly the descendants of the
    node, each one once, in the reverse of their pre-order; every node is
    a leaf at the time it is destroyed, so that no destructor recurses. *)
Theorem remove_children_releases_descendants (t : tree T) :
  child_count (fst (remove_children t)) = 0 /\
  value (fst (remove_children t)) = value t /\
  map _M_value (snd (remove_children t)) =
    rev (values_children (_M_children t)) /\
  Forall is_leaf (snd (remove_children t)).
Proof.
  unfold remove_children.
  pose proof (remove_children_loop_spec (_M_children t) []) as H.
  cbn zeta in H.
  destruct (remove_children_loop (_M_children t) []) as [c d].
  cbn [fst snd] in *. destruct H as [-> [d' [-> [Hl Hv]]]].
  cbn [app]. repeat split; try assumption.
  rewrite Hv, rev_involutive. reflexivity.
Qed.

(** A chain of 10,000 nodes below a root is emptied like any other tree,
    all of them being released. *)
Lemma remove_children_chain (v : T) :
  exists d,
    remove_children (chain v (100 * 100)) = (Node v [], d) /\
    List.length d = 100 * 100.
Proof.
  generalize (100 * 100). intro n.
  destruct (remove_children_spec (chain v n)) as [d [E [_ Hv]]].
  exists d. split.
  - rewrite E. destruct n; reflexivity.
  - apply (f_equal (@List.length T)) in Hv.
    rewrite length_map, length_rev in Hv. rewrite Hv. clear.
    unfold values_children. rewrite length_map.
    assert (H : forall k, List.length (nodes (chain v k)) = S k).
    { induction k as [|k IH]; cbn [chain]; rewrite nodes_Node;
        cbn [nodes_children List.length]; [reflexivity|].
      now rewrite app_nil_r, IH. }
    destruct n as [|n]; [reflexivity|].
    cbn [chain _M_children nodes_children]. now rewrite app_nil_r, H.
Qed.

Lemma descend_iteration_wf : well_founded (@descend_iteration T).
Proof.
  apply (well_founded_lt_compat _ (fun s => weight_children (snd s))).
  intros s' s [t [Hb [_ ->]]]. cbn [snd].
  now apply weight_children_back.
Qed.

Lemma drain_iteration_wf : well_founded (@drain_iteration T).
Proof.
  apply (well_founded_lt_compat _
           (fun s => weight_children (plug (fst s) (snd s)))).
  intros s' [above c] [Hne ->]. cbn [fst snd].
  apply drain_step_weight. now apply vec_empty_false.
Qed.

Lemma remove_children_iteration_wf :
  well_founded (@remove_children_iteration T).
Proof.
  apply (well_founded_lt_compat _ (@weight_children T)).
  intros c' c [Hne [released ->]].
  pose proof (drain_weight [] c released) as Hw.
  rewrite Hne in Hw. cbn [plug] in Hw. lia.
Qed.

(** C2: [remove_children()] terminates on every tree, whatever its
    depth.  None of its three loops can iterate forever (the relation
    between successive states of each loop is well founded), and when the
    outer loop exits the children vector of the node is empty.  The
    embedded loops are tail calls defined by well-founded recursion on the
    weight of the vector that remains. *)
Theorem remove_children_terminates :
  well_founded (@descend_iteration T) /\
  well_founded (@drain_iteration T) /\
  well_founded (@remove_children_iteration T) /\
  forall t : tree T,
    has_child (fst (remove_children t)) = false /\
    _M_children (fst (remove_children t)) = [].
Proof.
  split; [exact descend_iteration_wf|].
  split; [exact drain_iteration_wf|].
  split; [exact remove_children_iteration_wf|].
  intro t. unfold remove_children.
  pose proof (remove_children_loop_spec (_M_children t) []) as H.
  cbn zeta in H.
  destruct (remove_children_loop (_M_children t) []) as [c d].
  cbn [fst snd] in *. destruct H as [-> _]. split; reflexivity.
Qed.
End RemoveChildrenFacts.

(** ** [tree::destroy]: the deprecated iterative destruction

    <<
    auto current = std::move(ptr);
    auto parent = null();
    while (current) {
        if (current->_M_children.empty()) {
            current = std::move(parent);
            continue;
        }
        if (parent) {
            assert(parent->_M_children.size() > 0 &&
                   parent->_M_children[0] == nullptr);
            if (parent->_M_children.size() > 1 &&
                parent->_M_children[1] != nullptr) {
                if (current->_M_children.size() > 2) {
                    parent->_M_children.insert(
                        parent->_M_children.end(),
                        std::make_move_iterator(
                            current->_M_children.begin() + 2),
                        std::make_move_iterator(
                            current->_M_children.end()));
                }
                avoid_sole(current->_M_children);
                parent->_M_children[0] = std::move(current->_M_children[1]);
                current->_M_children[1] = std::move(parent);
            } else {
                parent = nullptr;
            }
        }
        if (current->_M_children[0]) {
            parent = std::move(current);
            current = std::move(parent->_M_children[0]);
        } else if (current->_M_children.size() == 2) {
            current = std::move(current->_M_children[1]);
        } else {
            remove_null_but_avoid_sole(current->_M_children);
        }
    }
    >>

    A handle that has been moved from is null.  Assigning to a handle, or
    letting it go out of scope, drops the node it owned. *)

Section Destroy.
Context {T : Type}.

Record destroy_state : Type := {
  current : tree_ptr T;
  parent : tree_ptr T;
  released : list (tree T)
}.

(** [avoid_sole]: [resize(2)] appends a null handle. *)
Definition avoid_sole (children : children_type T) : children_type T :=
  match children with
  | [h] => [h; None]
  | _ => children
  end.

Definition is_null (h : tree_ptr T) : bool :=
  match h with Some _ => false | None => true end.

(** [remove_null_but_avoid_sole]. *)
Definition remove_null_but_avoid_sole (children : children_type T)
  : children_type T :=
  avoid_sole (filter (fun h => negb (is_null h)) children).

(** The block [if (parent) { ... }], for a current node with the children
    [cc]: the children of the current node and the released nodes
    afterwards; the parent handle is null afterwards.  [None] when the
    assertion fails. *)
Definition destroy_parent (cc : children_type T) (parent : tree_ptr T)
  (released : list (tree T))
  : option (children_type T * list (tree T)) :=
  match parent with
  | None => Some (cc, released)
  | Some (Node pv pc) =>
      match pc with
      | None :: Some p1 :: pc_rest =>
          let pc := None :: Some p1 :: pc_rest in
          let moved := 2 <? List.length cc in
          let pc := if moved then pc ++ skipn 2 cc else pc in
          let cc :=
            if moved
            then firstn 2 cc ++ repeat None (List.length cc - 2)
            else cc in
          match avoid_sole cc with
          | c0 :: c1 :: cc_rest =>
              Some (c0 :: Some (Node pv (c1 :: tl pc)) :: cc_rest, released)
          | _ => None
          end
      | None :: _ => Some (cc, released ++ drop parent)
      | _ => None
      end
  end.

(** The last [if] of the loop body, with a null parent. *)
Definition destroy_child (cv : T) (cc : children_type T)
  (released : list (tree T)) : option destroy_state :=
  match cc with
  | Some c0 :: cc_rest =>
      Some {| current := Some c0;
              parent := Some (Node cv (None :: cc_rest));
              released := released |}
  | [None; c1] =>
      Some {| current := c1;
              parent := None;
              released := released ++ drop (Some (Node cv [None; None])) |}
  | None :: _ =>
      Some {| current := Some (Node cv (remove_null_but_avoid_sole cc));
              parent := None;
              released := released |}
  | [] => None
  end.

(** The body of the loop, for a non-null [current]. *)
Definition destroy_body (c : tree T) (parent : tree_ptr T)
  (released : list (tree T)) : option destroy_state :=
  if vec_empty (_M_children c)
  then Some {| current := parent;
               parent := None;
               released := released ++ drop (Some c) |}
  else
    match destroy_parent (_M_children c) parent released with
    | Some (cc, released') => destroy_child (_M_value c) cc released'
    | None => None
    end.

Inductive destroy_result : Type :=
| Finished (s : destroy_state)
| Asserted
| Unfinished.

(** The loop, for at most [fuel] iterations. *)
Fixpoint destroy_loop (fuel : nat) (s : destroy_state) : destroy_result :=
  match current s with
  | None => Finished s
  | Some c =>
      match fuel with
      | O => Unfinished
      | S fuel' =>
          match destroy_body c (parent s) (released s) with
          | Some s' => destroy_loop fuel' s'
          | None => Asserted
          end
      end
  end.

(** [destroy(ptr)]: [ptr] afterwards, and the outcome of the loop. *)
Definition destroy (fuel : nat) (ptr : tree_ptr T)
  : tree_ptr T * destroy_result :=
  (None,
   destroy_loop fuel {| current := ptr; parent := None; released := [] |}).

(** Trees whose nodes have at most two child slots. *)
Fixpoint binaryb (t : tree T) : bool :=
  match t with
  | Node _ c =>
      (List.length c <=? 2) &&
      forallb (fun h : tree_ptr T =>
                 match h with Some t' => binaryb t' | None => true end) c
  end.

Definition binary_ptr (h : tree_ptr T) : bool :=
  match h with Some t => binaryb t | None => true end.

(** What the assertion of the loop body checks, and that [current] is not
    null while [parent] is not. *)
Definition parent_ok (s : destroy_state) : Prop :=
  match parent s with
  | None => True
  | Some p => (exists rest, _M_children p = None :: rest) /\
              current s <> None
  end.

Definition destroy_inv (s : destroy_state) : Prop :=
  binary_ptr (current s) = true /\ binary_ptr (parent s) = true /\
  parent_ok s.

(** The number of nodes owned by a handle, and by the two handles of a
    state. *)
Definition count_ptr (h : tree_ptr T) : nat := List.length (nodes_ptr h).

Definition live (s : destroy_state) : nat :=
  count_ptr (current s) + count_ptr (parent s).

(** How far the loop can still go down along first children before it
    has to release a node. *)
Fixpoint left_spine (t : tree T) : nat :=
  match t with
  | Node _ [] => 1
  | Node _ (None :: _) => 2
  | Node _ (Some c0 :: _) => 2 + left_spine c0
  end.

Definition left_spine_ptr (h : tree_ptr T) : nat :=
  match h with Some t => left_spine t | None => 0 end.

Definition potential (s : destroy_state) : nat :=
  live s * (2 * live s + 1) + left_spine_ptr (current s).

(** A number of iterations that suffices for [destroy(ptr)]. *)
Definition destroy_fuel (ptr : tree_ptr T) : nat :=
  S (potential {| current := ptr; parent := None; released := [] |}).

(** A node all of whose child handles are null: its destructor does not
    recurse. *)
Definition dead (t : tree T) : Prop :=
  forallb is_null (_M_children t) = true.

Definition values_ptr (h : tree_ptr T) : list T :=
  map _M_value (nodes_ptr h).
End Destroy.

Section DestroyFacts.
Context {T : Type}.
Implicit Types (c t : tree T) (h p : tree_ptr T) (cc : children_type T)
  (s : @destroy_state T).

Lemma count_ptr_Some v cc :
  count_ptr (Some (Node v cc)) = S (List.length (nodes_children cc)).
Proof. unfold count_ptr. cbn [nodes_ptr]. now rewrite nodes_Node. Qed.

Lemma nodes_children_cons h cc :
  nodes_children (h :: cc) = nodes_ptr h ++ nodes_children cc.
Proof. destruct h; reflexivity. Qed.

Lemma values_ptr_Some v cc :
  values_ptr (Some (Node v cc)) = v :: values_children cc.
Proof. unfold values_ptr. cbn [nodes_ptr]. now rewrite nodes_Node. Qed.

Lemma values_children_cons h cc :
  values_children (h :: cc) = values_ptr h ++ values_children cc.
Proof.
  unfold values_children, values_ptr.
  now rewrite nodes_children_cons, map_app.
Qed.

Lemma left_spine_bound t : left_spine t <= 2 * List.length (nodes t).
Proof.
  induction t as [v cc IH] using tree_ind. rewrite nodes_Node.
  destruct cc as [|[c0|] cc]; cbn [left_spine List.length]; try lia.
  inversion IH as [|? ? H0 _]; subst. specialize (H0 c0 eq_refl).
  rewrite nodes_children_cons, length_app. cbn [nodes_ptr]. lia.
Qed.

Lemma potential_decreases s s' :
  live s' < live s \/
  (live s' = live s /\
   left_spine_ptr (current s') < left_spine_ptr (current s)) ->
  potential s' < potential s.
Proof.
  unfold potential. intros [H|[H1 H2]].
  - assert (left_spine_ptr (current s') <= 2 * live s').
    { unfold live, count_ptr. destruct (current s') as [t|]; cbn; [|lia].
      pose proof (left_spine_bound t). lia. }
    nia.
  - rewrite H1. lia.
Qed.

Lemma values_children_filter cc :
  values_children (filter (fun h => negb (is_null h)) cc) =
    values_children cc.
Proof.
  induction cc as [|[t|] cc IH]; cbn [filter is_null negb].
  - reflexivity.
  - now rewrite !values_children_cons, IH.
  - exact IH.
Qed.

Lemma values_children_avoid_sole cc :
  values_children (avoid_sole cc) = values_children cc.
Proof.
  destruct cc as [|[t|] [|k cc]]; reflexivity.
Qed.

Definition binary_children cc : bool :=
  forallb (fun h : tree_ptr T =>
             match h with Some t' => binaryb t' | None => true end) cc.

Lemma binaryb_Node v cc :
  binaryb (Node v cc) = true <->
  List.length cc <= 2 /\ binary_children cc = true.
Proof.
  cbn [binaryb]. fold (binary_children cc).
  now rewrite andb_true_iff, Nat.leb_le.
Qed.

Lemma binary_children_cons h cc :
  binary_children (h :: cc) = true <->
  binary_ptr h = true /\ binary_children cc = true.
Proof.
  unfold binary_children. cbn [forallb]. rewrite andb_true_iff.
  destruct h; reflexivity.
Qed.

(** The block [if (parent) { ... }] on nodes with at most two slots: the
    assertion holds, the first child of the current node is untouched, and
    the parent is either rotated below the current node or released with
    all its handles null. *)
Lemma destroy_parent_binary cc p released0 :
  cc <> [] -> List.length cc <= 2 -> binary_children cc = true ->
  binary_ptr p = true ->
  match p with
  | Some q => exists rest, _M_children q = None :: rest
  | None => True
  end ->
  exists cc' d,
    destroy_parent cc p released0 = Some (cc', released0 ++ d) /\
    cc' <> [] /\ List.length cc' <= 2 /\ binary_children cc' = true /\
    hd_error cc' = hd_error cc /\
    Forall dead d /\
    List.length (nodes_children cc') + List.length d =
      List.length (nodes_children cc) + count_ptr p /\
    Permutation (values_children cc' ++ map _M_value d)
                (values_children cc ++ values_ptr p).
Proof.
  intros Hne Hlen Hbin Hp Hok.
  destruct p as [[pv pc]|].
  2:{ exists cc, []. cbn [destroy_parent]. rewrite !app_nil_r.
      repeat split; auto. }
  destruct Hok as [rest Hok]. cbn [_M_children] in Hok. subst pc.
  cbn [binary_ptr] in Hp. apply binaryb_Node in Hp. destruct Hp as [Hpl Hpb].
  apply binary_children_cons in Hpb. destruct Hpb as [_ Hpb].
  destruct rest as [|[p1|] rest].
  - exists cc, [Node pv [None]]. cbn [destroy_parent drop nodes_ptr].
    rewrite nodes_Node. cbn [nodes_children].
    repeat split; auto.
  - destruct rest as [|? rest]; [|cbn in Hpl; lia].
    apply binary_children_cons in Hpb. destruct Hpb as [Hp1 _].
    assert (Hmoved : (2 <? List.length cc) = false)
      by (apply Nat.ltb_ge; exact Hlen).
    cbn [destroy_parent]. rewrite Hmoved.
    destruct cc as [|a [|b [|? cc]]];
      [congruence| | |cbn in Hlen; lia]; cbn [avoid_sole tl].
    + apply binary_children_cons in Hbin. destruct Hbin as [Ha _].
      exists [a; Some (Node pv [None; Some p1])], [].
      rewrite app_nil_r. repeat split; auto; try discriminate.
      * rewrite !binary_children_cons. repeat split; auto.
        cbn [binary_ptr]. apply binaryb_Node. split; [cbn; lia|].
        rewrite !binary_children_cons. repeat split; auto.
      * rewrite !nodes_children_cons, !length_app, count_ptr_Some.
        cbn [nodes_ptr nodes_children List.length].
        rewrite nodes_Node. cbn [List.length].
        rewrite !nodes_children_cons, !length_app. cbn. lia.
      * rewrite !values_children_cons, values_ptr_Some, !app_nil_r.
        rewrite !values_children_cons. reflexivity.
    + apply binary_children_cons in Hbin. destruct Hbin as [Ha Hbin].
      apply binary_children_cons in Hbin. destruct Hbin as [Hb _].
      exists [a; Some (Node pv [b; Some p1])], [].
      rewrite app_nil_r. repeat split; auto; try discriminate.
      * rewrite !binary_children_cons. repeat split; auto.
        cbn [binary_ptr]. apply binaryb_Node. split; [cbn; lia|].
        rewrite !binary_children_cons. repeat split; auto.
      * rewrite !nodes_children_cons, !length_app, count_ptr_Some.
        cbn [nodes_ptr nodes_children List.length].
        rewrite nodes_Node. cbn [List.length].
        rewrite !nodes_children_cons, !length_app. cbn. lia.
      * rewrite !values_children_cons, !values_ptr_Some, !app_nil_r.
        rewrite !values_children_cons. cbn [values_ptr nodes_ptr map].
        rewrite !app_nil_r, <- app_assoc. cbn [app].
        apply Permutation_app_head, Permutation_middle.
  - destruct rest as [|? rest]; [|cbn in Hpl; lia].
    exists cc, [Node pv [None; None]]. cbn [destroy_parent drop nodes_ptr].
    rewrite nodes_Node. cbn [nodes_children].
    repeat split; auto.
Qed.

(** The last [if] of the loop body on a node with one or two slots: it
    goes down to the first child, or releases the current node with all
    its handles null, or empties the children vector. *)
Lemma destroy_child_binary cv cc released0 :
  cc <> [] -> List.length cc <= 2 -> binary_children cc = true ->
  exists s' d,
    destroy_child cv cc released0 = Some s' /\
    released s' = released0 ++ d /\
    destroy_inv s' /\
    Forall dead d /\
    live s' + List.length d = S (List.length (nodes_children cc)) /\
    (d = [] -> left_spine_ptr (current s') < left_spine (Node cv cc)) /\
    Permutation
      (values_ptr (current s') ++ values_ptr (parent s') ++ map _M_value d)
      (cv :: values_children cc).
Proof.
  intros Hne Hlen Hbin.
  destruct cc as [|[c0|] cc]; [congruence| |].
  - apply binary_children_cons in Hbin. destruct Hbin as [Hc0 Hbin].
    eexists. exists []. cbn [destroy_child]. split; [reflexivity|].
    cbn [released current parent]. rewrite app_nil_r.
    split; [reflexivity|]. split; [|split; [constructor|split; [|split]]].
    + unfold destroy_inv, parent_ok. cbn [current parent].
      split; [exact Hc0|]. split.
      * cbn [binary_ptr]. apply binaryb_Node. split; [exact Hlen|].
        apply binary_children_cons. now split.
      * split; [now exists cc|discriminate].
    + unfold live. cbn [current parent]. rewrite count_ptr_Some.
      rewrite !nodes_children_cons, !length_app. unfold count_ptr.
      cbn [nodes_ptr List.length]. lia.
    + intros _. cbn [left_spine_ptr left_spine]. lia.
    + cbn [map]. rewrite app_nil_r, values_ptr_Some, !values_children_cons.
      cbn [values_ptr nodes_ptr map app]. apply Permutation_sym.
      apply Permutation_middle.
  - destruct cc as [|c1 [|? cc]]; [| |cbn in Hlen; lia].
    + eexists. exists []. cbn [destroy_child]. split; [reflexivity|].
      cbn [released current parent]. rewrite app_nil_r.
      split; [reflexivity|]. split; [|split; [constructor|split; [|split]]].
      * unfold destroy_inv, parent_ok. cbn. auto.
      * unfold live, count_ptr. cbn [current parent nodes_ptr].
        rewrite nodes_Node. reflexivity.
      * intros _. cbn. lia.
      * reflexivity.
    + apply binary_children_cons in Hbin. destruct Hbin as [_ Hbin].
      apply binary_children_cons in Hbin. destruct Hbin as [Hc1 _].
      eexists. exists [Node cv [None; None]]. cbn [destroy_child].
      split; [reflexivity|]. cbn [released current parent].
      split; [reflexivity|].
      split; [|split; [repeat constructor|split; [|split]]].
      * unfold destroy_inv, parent_ok. cbn [current parent]. auto.
      * unfold live, count_ptr. cbn [current parent nodes_ptr List.length].
        rewrite !nodes_children_cons, !length_app.
        cbn [nodes_ptr nodes_children List.length]. lia.
      * discriminate.
      * cbn [values_ptr nodes_ptr map app].
        rewrite !values_children_cons.
        cbn [values_ptr nodes_ptr map app values_children nodes_children].
        rewrite !app_nil_r. apply Permutation_sym, Permutation_cons_append.
Qed.

(** One iteration of the loop on nodes with at most two slots. *)
Lemma destroy_body_binary c p released0 :
  binaryb c = true -> binary_ptr p = true ->
  match p with
  | Some q => exists rest, _M_children q = None :: rest
  | None => True
  end ->
  exists s' d,
    destroy_body c p released0 = Some s' /\
    released s' = released0 ++ d /\
    destroy_inv s' /\
    Forall dead d /\
    (live s' < count_ptr (Some c) + count_ptr p \/
     (live s' = count_ptr (Some c) + count_ptr p /\
      left_spine_ptr (current s') < left_spine c)) /\
    Permutation
      (values_ptr (current s') ++ values_ptr (parent s') ++ map _M_value d)
      (values_ptr (Some c) ++ values_ptr p).
Proof.
  intros Hc Hp Hok. destruct c as [cv cc]. unfold destroy_body.
  cbn [_M_children _M_value]. destruct cc as [|a cc'] eqn:Ecc.
  - cbn [vec_empty]. eexists. exists [Node cv []].
    split; [reflexivity|]. cbn [released current parent].
    split; [reflexivity|].
    split; [|split; [repeat constructor|split]].
    + unfold destroy_inv, parent_ok. cbn [current parent]. auto.
    + left. unfold live. cbn [current parent]. rewrite count_ptr_Some.
      unfold count_ptr. cbn. lia.
    + rewrite values_ptr_Some. cbn [values_ptr nodes_ptr map app].
      apply Permutation_sym, Permutation_cons_append.
  - cbn [vec_empty]. rewrite <- Ecc in *.
    assert (Hne : cc <> []) by (subst cc; discriminate).
    apply binaryb_Node in Hc. destruct Hc as [Hlen Hbin].
    destruct (destroy_parent_binary cc p released0 Hne Hlen Hbin Hp Hok)
      as [cc1 [d1 [E1 [Hne1 [Hlen1 [Hbin1 [Hhd [Hd1 [Hn1 Hv1]]]]]]]]].
    rewrite E1.
    destruct (destroy_child_binary cv cc1 (released0 ++ d1) Hne1 Hlen1 Hbin1)
      as [s' [d2 [E2 [Hr [Hinv [Hd2 [Hn2 [Hl Hv2]]]]]]]].
    exists s', (d1 ++ d2). split; [exact E2|].
    split; [now rewrite Hr, app_assoc|]. split; [exact Hinv|].
    split; [now apply Forall_app|]. split.
    + rewrite count_ptr_Some.
      destruct d1 as [|x d1], d2 as [|y d2];
        cbn [List.length] in Hn1, Hn2; try (left; lia).
      right. split; [lia|]. specialize (Hl eq_refl).
      assert (left_spine (Node cv cc1) = left_spine (Node cv cc)); [|lia].
      destruct cc1 as [|[?|] ?], cc as [|[?|] ?]; cbn in Hhd;
        try congruence; try discriminate;
        cbn [left_spine]; congruence.
    + rewrite map_app, values_ptr_Some.
      apply Permutation_trans
        with ((values_ptr (current s') ++ values_ptr (parent s')
                 ++ map _M_value d2) ++ map _M_value d1).
      { rewrite <- !app_assoc. do 2 apply Permutation_app_head.
        apply Permutation_app_comm. }
      apply Permutation_trans
        with ((cv :: values_children cc1) ++ map _M_value d1).
      { apply Permutation_app_tail. exact Hv2. }
      cbn [app]. constructor. exact Hv1.
Qed.

(** The loop on trees with at most two slots per node: it exits, with
    both handles null, after having released every node once, each with
    all its handles null. *)
Lemma destroy_loop_binary fuel :
  forall s,
    destroy_inv s -> potential s < fuel ->
    exists s' d,
      destroy_loop fuel s = Finished s' /\
      current s' = None /\ parent s' = None /\
      released s' = released s ++ d /\
      Forall dead d /\
      Permutation (map _M_value d)
                  (values_ptr (current s) ++ values_ptr (parent s)).
Proof.
  induction fuel as [|fuel IH]; intros s Hinv Hfuel; [lia|].
  destruct Hinv as [Hc [Hp Hok]]. cbn [destroy_loop].
  destruct (current s) as [c|] eqn:Ec.
  - assert (Hok' : match parent s with
                   | Some q => exists rest, _M_children q = None :: rest
                   | None => True
                   end).
    { unfold parent_ok in Hok. destruct (parent s); [apply Hok|exact I]. }
    destruct (destroy_body_binary c (parent s) (released s) Hc Hp Hok')
      as [s1 [d1 [E1 [Hr1 [Hinv1 [Hd1 [Hdec Hv1]]]]]]].
    rewrite E1.
    assert (Hpot : potential s1 < fuel).
    { assert (potential s1 < potential s); [|lia].
      apply potential_decreases. unfold live at 2 4. now rewrite Ec. }
    destruct (IH s1 Hinv1 Hpot) as [s2 [d2 [E2 [Hc2 [Hp2 [Hr2 [Hd2 Hv2]]]]]]].
    exists s2, (d1 ++ d2). split; [exact E2|]. split; [exact Hc2|].
    split; [exact Hp2|]. split; [now rewrite Hr2, Hr1, app_assoc|].
    split; [now apply Forall_app|].
    rewrite map_app. apply Permutation_trans with (2 := Hv1).
    rewrite (Permutation_app_comm (map _M_value d1)), app_assoc.
    apply Permutation_app_tail. exact Hv2.
  - exists s, []. split; [reflexivity|]. split; [exact Ec|].
    unfold parent_ok in Hok. rewrite Ec in Hok.
    destruct (parent s) as [q|]; [destruct Hok as [_ Hok]; congruence|].
    rewrite app_nil_r. split; [reflexivity|]. split; [reflexivity|].
    split; [constructor|]. cbn. constructor.
Qed.
End DestroyFacts.

(** The tree of the comment in [destroy]: [4(2(1, 3), 5)]. *)
Definition destroy_example : tree nat :=
  Node 4 [Some (Node 2 [Some (Node 1 []); Some (Node 3 [])]);
          Some (Node 5 [])].

(** C3: on a tree all of whose nodes have at most two child slots,
    [destroy(ptr)] terminates: with [destroy_fuel] iterations or more the
    loop exits, without a failed assertion.  It leaves [ptr] null and both
    its handles null, and it has released the root and every descendant,
    each once and each with all its handles null.  The released nodes are
    those that [remove_children()] on the root followed by dropping the
    root handle releases (in another order), and nothing is left alive in
    either case. *)
Theorem destroy_binary_releases_all (T : Type) (t : tree T) (fuel : nat) :
  binaryb t = true ->
  destroy_fuel (Some t) <= fuel ->
  exists final,
    destroy fuel (Some t) = (None, Finished final) /\
    current final = None /\ parent final = None /\
    Forall dead (released final) /\
    Permutation (map _M_value (released final)) (map _M_value (nodes t)) /\
    Permutation (map _M_value (released final))
                (map _M_value (snd (remove_children t)
                                 ++ drop (Some (fst (remove_children t))))).
Proof.
  intros Hb Hfuel. unfold destroy.
  destruct (destroy_loop_binary fuel
              {| current := Some t; parent := None; released := [] |})
    as [final [d [E [Hc [Hp [Hr [Hd Hv]]]]]]].
  - unfold destroy_inv, parent_ok. cbn. auto.
  - unfold destroy_fuel in Hfuel. lia.
  - cbn [current parent released values_ptr nodes_ptr map app] in *.
    rewrite app_nil_r in Hv. subst d.
    exists final. rewrite E. repeat split; try assumption.
    destruct (remove_children_spec t) as [d' [-> [_ Hd']]].
    cbn [fst snd drop nodes_ptr]. rewrite nodes_Node.
    cbn [nodes_children]. rewrite map_app, Hd'. cbn [map _M_value].
    apply Permutation_trans with (1 := Hv).
    destruct t as [v c]. rewrite nodes_Node. cbn [map _M_value _M_children].
    fold (values_children c).
    apply Permutation_trans with (values_children c ++ [v]).
    + apply Permutation_cons_append.
    + apply Permutation_app_tail, Permutation_rev.
Qed.

(** A witness of C3: the tree [4(2(1, 3), 5)]. *)
Lemma destroy_binary_releases_all_witness :
  exists final,
    destroy 100 (Some destroy_example) = (None, Finished final) /\
    current final = None /\ parent final = None /\
    Forall dead (released final) /\
    Permutation (map _M_value (released final))
                (map _M_value (nodes destroy_example)) /\
    Permutation (map _M_value (released final))
                (map _M_value
                   (snd (remove_children destroy_example)
                      ++ drop (Some (fst (remove_children destroy_example))))).
Proof.
  apply (destroy_binary_releases_all nat destroy_example 100).
  - reflexivity.
  - vm_compute. lia.
Defined.

(** ** The children container: [child], [push_back], [pop_back] *)

Section Container.
Context {T : Type}.

Lemma nth_error_split_at (l : children_type T) (i : nat) (h : tree_ptr T) :
  nth_error l i = Some h <->
  exists l1 l2, l = l1 ++ h :: l2 /\ List.length l1 = i.
Proof.
  split.
  - intro H. destruct (nth_error_split l i H) as [l1 [l2 [E L]]].
    now exists l1, l2.
  - intros [l1 [l2 [-> <-]]].
    rewrite nth_error_app2, Nat.sub_diag by lia. reflexivity.
Qed.

(** C8: under their preconditions the partial operations are defined.
    For [i < child_count()], [child(i)] returns the handle that has
    exactly [i] handles before it in the children vector.  On a node that
    has children, [pop_back()] is defined and removes the last handle and
    nothing else: the vector before is the vector after followed by one
    handle, and the value is unchanged. *)
Theorem child_pop_back_defined (t : tree T) (i : nat) :
  (i < child_count t ->
   exists h before after,
     child t i = Some h /\
     _M_children t = before ++ h :: after /\ List.length before = i) /\
  (has_child t = true ->
   exists t' h,
     pop_back t = Some t' /\
     back (_M_children t) = Some h /\
     _M_children t = _M_children t' ++ [h] /\
     value t' = value t).
Proof.
  destruct t as [v c]. unfold child, child_count, has_child, pop_back, value.
  cbn [_M_children _M_value]. split.
  - intro H. destruct (nth_error c i) as [h|] eqn:E.
    + destruct (proj1 (nth_error_split_at c i h) E) as [l1 [l2 [E1 E2]]].
      now exists h, l1, l2.
    + apply nth_error_None in E. lia.
  - intro H. destruct (back c) as [h|] eqn:E.
    + exists (Node v (removelast c)), h.
      destruct c; [discriminate|]. cbn [vec_pop_back _M_children _M_value].
      repeat split. exact (back_some_snoc _ _ E).
    + apply back_none in E. subst c. discriminate.
Qed.

(** C9: [push_back] and [pop_back] keep the order of the children and
    touch nothing else.  On a node with children [c], [push_back(h)]
    gives the children [c ++ [h]]: the value, the count and every handle
    that was there are as before, and [h] is the new last handle.
    [pop_back()] on a node with children [c ++ [h]] gives the children
    [c] with the same value; in particular it undoes [push_back]. *)
Theorem push_back_pop_back_frame (v : T) (c : children_type T)
  (h : tree_ptr T) :
  _M_children (push_back (Node v c) h) = c ++ [h] /\
  value (push_back (Node v c) h) = v /\
  child_count (push_back (Node v c) h) = S (List.length c) /\
  (forall i, i < List.length c ->
             child (push_back (Node v c) h) i = child (Node v c) i) /\
  child (push_back (Node v c) h) (List.length c) = Some h /\
  pop_back (Node v (c ++ [h])) = Some (Node v c) /\
  (forall i, i < List.length c ->
             child (Node v c) i = child (Node v (c ++ [h])) i) /\
  pop_back (push_back (Node v c) h) = Some (Node v c).
Proof.
  assert (Hpop : pop_back (Node v (c ++ [h])) = Some (Node v c)).
  { unfold pop_back. cbn [_M_children _M_value].
    destruct (c ++ [h]) eqn:E; [destruct c; discriminate|].
    cbn [vec_pop_back]. now rewrite <- E, removelast_snoc. }
  unfold push_back, child, child_count, value.
  cbn [_M_children _M_value]. repeat split.
  - rewrite length_app. cbn. lia.
  - intros i Hi. now rewrite nth_error_app1.
  - rewrite nth_error_app2, Nat.sub_diag by lia. reflexivity.
  - exact Hpop.
  - intros i Hi. now rewrite nth_error_app1.
  - exact Hpop.
Qed.

(** Out of their preconditions the two operations are undefined. *)
Lemma child_out_of_range (t : tree T) (i : nat) :
  child_count t <= i -> child t i = None.
Proof. intro H. now apply nth_error_None. Qed.

Lemma pop_back_empty (v : T) : pop_back (Node v []) = None.
Proof. reflexivity. Qed.
End Container.

(** A witness of C9: [push_back] of the node 9 on [7(null, 8)], index 1. *)
Lemma push_back_pop_back_frame_witness :
  child (push_back (Node 7 [None; Some (Node 8 [])]) (Some (Node 9 []))) 1 =
    child (Node 7 [None; Some (Node 8 [])]) 1 /\
  child (Node 7 [None; Some (Node 8 [])]) 1 =
    child (Node 7 ([None; Some (Node 8 [])] ++ [Some (Node 9 [])])) 1 /\
  pop_back (push_back (Node 7 [None; Some (Node 8 [])]) (Some (Node 9 []))) =
    Some (Node 7 [None; Some (Node 8 [])]).
Proof.
  destruct (push_back_pop_back_frame 7 [None; Some (Node 8 [])]
              (Some (Node 9 [])))
    as [_ [_ [_ [H1 [_ [_ [H2 H3]]]]]]].
  split; [apply H1; simpl; lia|]. split; [apply H2; simpl; lia|exact H3].
Defined.

(** A witness of C8: the node [7(null, 8)], index 1. *)
Lemma child_pop_back_defined_witness :
  (exists h before after,
     child (Node 7 [None; Some (Node 8 [])]) 1 = Some h /\
     _M_children (Node 7 [None; Some (Node 8 [])]) = before ++ h :: after /\
     List.length before = 1) /\
  (exists t' h,
     pop_back (Node 7 [None; Some (Node 8 [])]) = Some t' /\
     back (_M_children (Node 7 [None; Some (Node 8 [])])) = Some h /\
     _M_children (Node 7 [None; Some (Node 8 [])]) = _M_children t' ++ [h] /\
     value t' = value (Node 7 [None; Some (Node 8 [])])).
Proof.
  destruct (child_pop_back_defined (Node 7 [None; Some (Node 8 [])]) 1)
    as [H1 H2].
  split; [apply H1; cbn; lia|apply H2; reflexivity].
Defined.

(** ** [print_tree]

    <<
    if (ptr) { os << ptr->value(); } else { os << "(null)"; }
    os << '\n';
    if (ptr == nullptr) { return; }
    for (const auto& child : *ptr) {
        bool is_last = &child == &ptr->back();
        os << prefix;
        os << (is_last ? "└──" : "├──");
        os << ' ';
        print_tree<_Tree>(child, os, prefix + (is_last ? "    " : "│   "));
    }
    >>

    The output sink is the text written so far; [show] stands for
    [operator<<] of the value type. *)

Section PrintTree.
Context {T : Type}.
Variable show : T -> string.

Local Open Scope string_scope.

Definition newline : string := String (ascii_of_nat 10) EmptyString.

Definition branch (is_last : bool) : string :=
  if is_last then "└──" else "├──".

Definition indent (is_last : bool) : string :=
  if is_last then "    " else "│   ".

(** The present case, by recursion on the node; [go] is the [for] loop over
    the children that remain, and a child is the last one when no child
    remains after it. *)
Fixpoint print_node (t : tree T) (os prefix : string) : string :=
  match t with
  | Node v c =>
      (fix go (l : children_type T) (os : string) : string :=
         match l with
         | [] => os
         | child :: l' =>
             let is_last := vec_empty l' in
             let os := os ++ prefix ++ branch is_last ++ " " in
             go l' match child with
                   | Some t' => print_node t' os (prefix ++ indent is_last)
                   | None => os ++ "(null)" ++ newline
                   end
         end) c (os ++ show v ++ newline)
  end.

(** [print_tree<_Tree>(ptr, os, prefix)]. *)
Definition print_tree_prefix (ptr : tree_ptr T) (os prefix : string)
  : string :=
  match ptr with
  | Some t => print_node t os prefix
  | None => os ++ "(null)" ++ newline
  end.

(** The [for] loop of [print_tree]. *)
Fixpoint print_children (l : children_type T) (os prefix : string)
  : string :=
  match l with
  | [] => os
  | child :: l' =>
      let is_last := vec_empty l' in
      print_children l'
        (print_tree_prefix child (os ++ prefix ++ branch is_last ++ " ")
                           (prefix ++ indent is_last))
        prefix
  end.

(** [print_tree(ptr, os)]. *)
Definition print_tree (ptr : tree_ptr T) (os : string) : string :=
  print_tree_prefix ptr os "".

Lemma print_node_eq v c os prefix :
  print_node (Node v c) os prefix =
    print_children c (os ++ show v ++ newline) prefix.
Proof.
  cbn [print_node]. generalize (os ++ show v ++ newline).
  induction c as [|child c IH]; intro o; [reflexivity|].
  cbn [print_children]. rewrite <- IH. destruct child; reflexivity.
Qed.

Lemma string_app_assoc (a b c : string) : (a ++ b) ++ c = a ++ b ++ c.
Proof. induction a; cbn; congruence. Qed.

Lemma string_app_empty (a : string) : a ++ "" = a.
Proof. induction a; cbn; congruence. Qed.

(** The printer only appends to the sink. *)
Definition appends (t : tree T) : Prop :=
  forall os prefix, print_node t os prefix = os ++ print_node t "" prefix.

Lemma print_tree_prefix_appends_from (h : tree_ptr T) :
  (forall t, h = Some t -> appends t) ->
  forall os prefix,
    print_tree_prefix h os prefix = os ++ print_tree_prefix h "" prefix.
Proof.
  intros H os prefix. destruct h as [t|]; cbn [print_tree_prefix].
  - apply (H t eq_refl).
  - reflexivity.
Qed.

Lemma print_children_appends_from (c : children_type T) :
  Forall (fun h => forall t, h = Some t -> appends t) c ->
  forall os prefix,
    print_children c os prefix = os ++ print_children c "" prefix.
Proof.
  induction 1 as [|child c Hc _ IHc]; intros os prefix;
    cbn [print_children].
  - now rewrite string_app_empty.
  - cbn [append].
    set (x := prefix ++ branch _ ++ " "). set (p := prefix ++ indent _).
    rewrite (IHc (print_tree_prefix child (os ++ x) p)),
      (IHc (print_tree_prefix child x p)).
    rewrite (print_tree_prefix_appends_from child Hc (os ++ x)),
      (print_tree_prefix_appends_from child Hc x).
    now rewrite !string_app_assoc.
Qed.

Lemma print_node_appends (t : tree T) : appends t.
Proof.
  induction t as [v c IH] using tree_ind. intros os prefix.
  rewrite !print_node_eq. cbn [append].
  rewrite (print_children_appends_from c IH (os ++ _)),
    (print_children_appends_from c IH (show v ++ _)).
  now rewrite !string_app_assoc.
Qed.

Lemma print_children_appends (c : children_type T) os prefix :
  print_children c os prefix = os ++ print_children c "" prefix.
Proof.
  apply print_children_appends_from, Forall_forall.
  intros h _ t _. apply print_node_appends.
Qed.

(** C10: for a null handle [print_tree] appends exactly ["(null)"] and a
    newline to the sink, whatever the prefix, and nothing else.  For a
    present handle it appends the value of the node and a newline, and
    after them the rendering of the children, which is what the loop over
    the children writes to a sink that starts empty. *)
Theorem print_tree_null_and_value (os prefix : string) :
  print_tree_prefix None os prefix = os ++ "(null)" ++ newline /\
  print_tree None os = os ++ "(null)" ++ newline /\
  forall t : tree T,
    print_tree_prefix (Some t) os prefix =
      os ++ show (value t) ++ newline
         ++ print_children (_M_children t) "" prefix.
Proof.
  split; [reflexivity|]. split; [reflexivity|].
  intros [v c]. cbn [print_tree_prefix value _M_value _M_children].
  rewrite print_node_eq, print_children_appends.
  now rewrite !string_app_assoc.
Qed.
End PrintTree.

(** ** Traversal iterators

    The three iterator classes keep raw pointers to nodes.  The records
    below are parameterised by the type [P] of these pointers, so that the
    comparison operators can be studied for any notion of node identity;
    the traversals themselves run on [P := tree T], a pointer to a node of
    the (unchanging) tree being the subtree at that node.  A range
    [(first, last)] of [const_iterator]s over a children vector is the list
    of the handles from [first] up to [last]. *)

(** *** Depth-first (pre-order) traversal *)

Module depth_first_iteration.

Record iterator (P : Type) : Type := {
  _M_current : option P;
  _M_stack : list (list (option P))
}.
Arguments _M_current {P} _.
Arguments _M_stack {P} _.

Section Generic.
Context {P : Type}.
Variable P_eq_dec : forall a b : P, {a = b} + {a <> b}.

(** [iterator()]. *)
Definition end_ : iterator P :=
  {| _M_current := None; _M_stack := [] |}.

(** [iterator(root)]. *)
Definition begin (root : P) : iterator P :=
  {| _M_current := Some root; _M_stack := [] |}.

Definition empty (it : iterator P) : bool :=
  match _M_current it with None => true | Some _ => false end.

(** [operator*]: asserts [!empty()]. *)
Definition deref (it : iterator P) : option P := _M_current it.

(** [operator==]: [_M_current == rhs._M_current]. *)
Definition operator_eq (a b : iterator P) : bool :=
  match _M_current a, _M_current b with
  | None, None => true
  | Some p, Some q => if P_eq_dec p q then true else false
  | _, _ => false
  end.

Definition operator_ne (a b : iterator P) : bool :=
  negb (operator_eq a b).
End Generic.

Section Traversal.
Context {T : Type}.

(** The [for (;;)] loop of [operator++]: take the next handle of the
    range on top of the stack, skipping null handles, and pop the
    ranges that are exhausted. *)
Fixpoint advance (stack : list (children_type T)) : iterator (tree T) :=
  match stack with
  | [] => {| _M_current := None; _M_stack := [] |}
  | top :: below =>
      (fix scan (next_node : children_type T) : iterator (tree T) :=
         match next_node with
         | [] => advance below
         | Some t :: next_node' =>
             {| _M_current := Some t;
                _M_stack := next_node' :: below |}
         | None :: next_node' => scan next_node'
         end) top
  end.

(** [operator++]: asserts [!empty()]. *)
Definition operator_inc (it : iterator (tree T))
  : option (iterator (tree T)) :=
  match _M_current it with
  | None => None
  | Some current =>
      Some (advance
              (if vec_empty (_M_children current) then _M_stack it
               else _M_children current :: _M_stack it))
  end.

(** [n] applications of [operator++]. *)
Fixpoint increments (n : nat) (it : iterator (tree T))
  : option (iterator (tree T)) :=
  match n with
  | O => Some it
  | S n' =>
      match operator_inc it with
      | Some it' => increments n' it'
      | None => None
      end
  end.

(** The nodes that remain to be visited. *)
Definition remaining (it : iterator (tree T)) : list (tree T) :=
  match _M_current it with
  | None => []
  | Some current =>
      nodes current ++ flat_map nodes_children (_M_stack it)
  end.

Lemma dfs_remaining_advance stack :
  remaining (advance stack) = flat_map nodes_children stack.
Proof.
  induction stack as [|top below IH]; [reflexivity|].
  cbn [advance flat_map].
  induction top as [|[t|] top IHt]; cbn [nodes_children app].
  - exact IH.
  - unfold remaining. cbn [_M_current _M_stack flat_map].
    now rewrite app_assoc.
  - exact IHt.
Qed.

Lemma dfs_remaining_operator_inc it it' :
  operator_inc it = Some it' ->
  exists current,
    _M_current it = Some current /\
    remaining it = current :: remaining it'.
Proof.
  unfold operator_inc, remaining at 1.
  destruct (_M_current it) as [[v c]|]; [|discriminate].
  intro H. injection H as <-. exists (Node v c). split; [reflexivity|].
  rewrite dfs_remaining_advance, nodes_Node. cbn [_M_children app].
  destruct c; reflexivity.
Qed.

(** The nodes visited by [for (it = first; it != end(); ++it)], in the
    order of the visits. *)
Equations? visited (it : iterator (tree T)) : list (tree T)
  by wf (List.length (remaining it)) lt :=
  visited it with inspect (operator_inc it) := {
    | exist _ None _ := []
    | exist _ (Some it') E with _M_current it := {
        | Some current := current :: visited it'
        | None := [] } }.
Proof.
  destruct (dfs_remaining_operator_inc it it' E) as [c [_ ->]]. cbn. lia.
Qed.

Lemma dfs_visited_remaining it : visited it = remaining it.
Proof.
  funelim (visited it); clear_inspect.
  - unfold operator_inc in e. unfold remaining.
    destruct (_M_current it); [discriminate|reflexivity].
  - destruct (dfs_remaining_operator_inc it it' E) as [c [Hc ->]].
    rewrite Hc in Heq. injection Heq as ->. now f_equal.
  - unfold remaining. now rewrite Heq.
Qed.

(** The pre-order of a handle, in the words of the specification: the
    node, then the pre-order of each child from left to right, a null
    handle contributing nothing. *)
Definition preorder_ptr (h : tree_ptr T) : list (tree T) :=
  match h with
  | Some t => visited (begin t)
  | None => []
  end.

Lemma dfs_visited_begin root : visited (begin root) = nodes root.
Proof.
  rewrite dfs_visited_remaining. unfold remaining, begin.
  cbn [_M_current _M_stack flat_map]. apply app_nil_r.
Qed.

Lemma flat_map_preorder_ptr c :
  flat_map preorder_ptr c = nodes_children c.
Proof.
  induction c as [|[t|] c IH]; cbn [flat_map preorder_ptr nodes_children].
  - reflexivity.
  - now rewrite dfs_visited_begin, IH.
  - exact IH.
Qed.
End Traversal.

(** The tree [1(2(4, 5), 3)]. *)
Definition example_tree : tree nat :=
  Node 1 [Some (Node 2 [Some (Node 4 []); Some (Node 5 [])]);
          Some (Node 3 [])].

(** C5: depth-first iteration is a pre-order.  The nodes visited from a
    root are the root followed, for each child handle from left to right,
    by the nodes visited from that child, a null handle contributing
    nothing; this is the list [nodes] of the nodes of the tree.  On
    [1(2(4, 5), 3)] the values come out as 1, 2, 4, 5, 3. *)
Theorem depth_first_is_preorder :
  (forall (T : Type) (v : T) (c : children_type T),
      visited (begin (Node v c)) = Node v c :: flat_map preorder_ptr c) /\
  (forall (T : Type) (root : tree T),
      visited (begin root) = nodes root) /\
  map value (visited (begin example_tree)) = [1; 2; 4; 5; 3].
Proof.
  split; [|split].
  - intros T v c.
    now rewrite dfs_visited_begin, nodes_Node, flat_map_preorder_ptr.
  - intros T root. apply dfs_visited_begin.
  - reflexivity.
Qed.
End depth_first_iteration.

(** *** In-order traversal *)

Module in_order_iteration.

Record iterator (P : Type) : Type := {
  _M_stack : list (option P * list (option P));
  _M_current : option P
}.
Arguments _M_stack {P} _.
Arguments _M_current {P} _.

Section Generic.
Context {P : Type}.
Variable P_eq_dec : forall a b : P, {a = b} + {a <> b}.

(** [iterator()]. *)
Definition end_ : iterator P :=
  {| _M_stack := []; _M_current := None |}.

Definition empty (it : iterator P) : bool :=
  match _M_current it with None => true | Some _ => false end.

(** [operator*]: asserts [!empty()]. *)
Definition deref (it : iterator P) : option P := _M_current it.

(** [operator==]: [_M_current == rhs._M_current]. *)
Definition operator_eq (a b : iterator P) : bool :=
  match _M_current a, _M_current b with
  | None, None => true
  | Some p, Some q => if P_eq_dec p q then true else false
  | _, _ => false
  end.

Definition operator_ne (a b : iterator P) : bool :=
  negb (operator_eq a b).
End Generic.

Section Traversal.
Context {T : Type}.

Definition stack_type : Type :=
  list (option (tree T) * children_type T).

(** [find_leftmost_child(root)]: go down the first children while they
    are present, pushing a frame for each node passed; the result is
    the node reached and the stack. *)
Fixpoint find_leftmost_child (root : tree T) (stack : stack_type)
  : tree T * stack_type :=
  match root with
  | Node _ [] => (root, stack)
  | Node _ (Some left_child :: next_child) =>
      find_leftmost_child left_child ((Some root, next_child) :: stack)
  | Node _ (None :: next_child) =>
      (root, (None, next_child) :: stack)
  end.

(** [iterator(root)]. *)
Definition begin (root : tree T) : iterator (tree T) :=
  let (curr, stack) := find_leftmost_child root [] in
  {| _M_stack := stack; _M_current := Some curr |}.

(** The [for (;;)] loop of [operator++]. *)
Fixpoint advance (stack : stack_type) : iterator (tree T) :=
  match stack with
  | [] => {| _M_stack := []; _M_current := None |}
  | (Some curr, next_child) :: below =>
      {| _M_stack := (None, next_child) :: below;
         _M_current := Some curr |}
  | (None, next_child) :: below =>
      (fix scan (next_child : children_type T) : iterator (tree T) :=
         match next_child with
         | [] => advance below
         | Some t :: next_child' =>
             let (curr, stack') :=
               find_leftmost_child t ((None, next_child') :: below) in
             {| _M_stack := stack'; _M_current := Some curr |}
         | None :: next_child' => scan next_child'
         end) next_child
  end.

(** [operator++]: asserts [!empty()]. *)
Definition operator_inc (it : iterator (tree T))
  : option (iterator (tree T)) :=
  match _M_current it with
  | None => None
  | Some _ => Some (advance (_M_stack it))
  end.

(** [n] applications of [operator++]. *)
Fixpoint increments (n : nat) (it : iterator (tree T))
  : option (iterator (tree T)) :=
  match n with
  | O => Some it
  | S n' =>
      match operator_inc it with
      | Some it' => increments n' it'
      | None => None
      end
  end.

(** The in-order sequence of a node: the nodes of the subtree in its
    first slot when that slot is present, the node, and the nodes of
    the subtrees in the other slots from left to right. *)
Fixpoint inorder (t : tree T) : list (tree T) :=
  match t with
  | Node _ c =>
      let others :=
        fix go (l : children_type T) : list (tree T) :=
          match l with
          | [] => []
          | Some t' :: l' => inorder t' ++ go l'
          | None :: l' => go l'
          end in
      match c with
      | [] => [t]
      | Some left_child :: next_child =>
          inorder left_child ++ t :: others next_child
      | None :: next_child => t :: others next_child
      end
  end.

Definition inorder_ptr (h : tree_ptr T) : list (tree T) :=
  match h with Some t => inorder t | None => [] end.

Lemma inorder_Node v c :
  inorder (Node v c) =
    match c with
    | [] => [Node v c]
    | Some left_child :: next_child =>
        inorder left_child ++ Node v c :: flat_map inorder_ptr next_child
    | None :: next_child => Node v c :: flat_map inorder_ptr next_child
    end.
Proof.
  assert (H : forall l,
             (fix go (l : children_type T) : list (tree T) :=
                match l with
                | [] => []
                | Some t' :: l' => inorder t' ++ go l'
                | None :: l' => go l'
                end) l = flat_map inorder_ptr l).
  { induction l as [|[t|] l IH]; cbn [flat_map inorder_ptr];
      [reflexivity|now rewrite IH|exact IH]. }
  destruct c as [|[l|] c]; cbn [inorder]; now rewrite ?H.
Qed.

(** The nodes that the frames of the stack still have to yield. *)
Definition pending_frame (f : option (tree T) * children_type T)
  : list (tree T) :=
  match fst f with
  | Some curr => curr :: flat_map inorder_ptr (snd f)
  | None => flat_map inorder_ptr (snd f)
  end.

Definition remaining (it : iterator (tree T)) : list (tree T) :=
  match _M_current it with
  | None => []
  | Some current => current :: flat_map pending_frame (_M_stack it)
  end.

Lemma find_leftmost_child_spec (t : tree T) :
  forall stack,
    fst (find_leftmost_child t stack)
      :: flat_map pending_frame (snd (find_leftmost_child t stack))
    = inorder t ++ flat_map pending_frame stack.
Proof.
  induction t as [v c IH] using tree_ind. intro stack.
  rewrite inorder_Node. destruct c as [|[l|] next].
  - reflexivity.
  - cbn [find_leftmost_child]. inversion IH as [|? ? Hl _]; subst.
    rewrite (Hl l eq_refl). cbn [flat_map pending_frame fst snd].
    now rewrite <- !app_assoc.
  - reflexivity.
Qed.

Lemma ino_remaining_advance stack :
  remaining (advance stack) = flat_map pending_frame stack.
Proof.
  induction stack as [|[[curr|] next] below IH]; [reflexivity|reflexivity|].
  cbn [advance flat_map]. unfold pending_frame at 1. cbn [fst snd].
  induction next as [|[t|] next IHn]; cbn [flat_map inorder_ptr app].
  - exact IH.
  - pose proof (find_leftmost_child_spec t ((None, next) :: below)) as H.
    destruct (find_leftmost_child t ((None, next) :: below)) as [c st].
    unfold remaining. cbn [_M_current _M_stack fst snd] in *.
    rewrite H. cbn [flat_map]. unfold pending_frame at 1.
    cbn [fst snd]. now rewrite app_assoc.
  - exact IHn.
Qed.

Lemma ino_remaining_operator_inc it it' :
  operator_inc it = Some it' ->
  exists current,
    _M_current it = Some current /\
    remaining it = current :: remaining it'.
Proof.
  unfold operator_inc, remaining at 1.
  destruct (_M_current it) as [c|]; [|discriminate].
  intro H. injection H as <-. exists c. split; [reflexivity|].
  now rewrite ino_remaining_advance.
Qed.

(** The nodes visited by [for (it = first; it != end(); ++it)], in the
    order of the visits. *)
Equations? visited (it : iterator (tree T)) : list (tree T)
  by wf (List.length (remaining it)) lt :=
  visited it with inspect (operator_inc it) := {
    | exist _ None _ := []
    | exist _ (Some it') E with _M_current it := {
        | Some current := current :: visited it'
        | None := [] } }.
Proof.
  destruct (ino_remaining_operator_inc it it' E) as [c [_ ->]]. cbn. lia.
Qed.

Lemma ino_visited_remaining it : visited it = remaining it.
Proof.
  funelim (visited it); clear_inspect.
  - unfold operator_inc in e. unfold remaining.
    destruct (_M_current it); [discriminate|reflexivity].
  - destruct (ino_remaining_operator_inc it it' E) as [c [Hc ->]].
    rewrite Hc in Heq. injection Heq as ->. now f_equal.
  - unfold remaining. now rewrite Heq.
Qed.

Lemma ino_visited_begin root : visited (begin root) = inorder root.
Proof.
  rewrite ino_visited_remaining. unfold begin.
  pose proof (find_leftmost_child_spec root []) as H.
  destruct (find_leftmost_child root []) as [c st].
  unfold remaining. cbn [_M_current _M_stack fst snd flat_map] in *.
  now rewrite H, app_nil_r.
Qed.

(** What a loop over the subtree behind a handle visits. *)
Definition visited_ptr (h : tree_ptr T) : list (tree T) :=
  match h with
  | Some t => visited (begin t)
  | None => []
  end.

Lemma flat_map_visited_ptr c :
  flat_map visited_ptr c = flat_map inorder_ptr c.
Proof.
  apply flat_map_ext. intros [t|]; [apply ino_visited_begin|reflexivity].
Qed.
End Traversal.

(** The tree [2(1, 3)]. *)
Definition example_tree : tree nat :=
  Node 2 [Some (Node 1 []); Some (Node 3 [])].

(** The order as the claim words it: for every node the nodes of its
    left-most present subtree first, then the node itself, then the nodes
    of its remaining present subtrees in order, absent slots being skipped
    throughout. *)
Fixpoint left_most_present_first {T : Type} (t : tree T) : list (tree T) :=
  match t with
  | Node _ c =>
      let others :=
        fix go (l : children_type T) : list (tree T) :=
          match l with
          | [] => []
          | Some t' :: l' => left_most_present_first t' ++ go l'
          | None :: l' => go l'
          end in
      (fix first (l : children_type T) : list (tree T) :=
         match l with
         | [] => [t]
         | Some left_child :: l' =>
             left_most_present_first left_child ++ t :: others l'
         | None :: l' => first l'
         end) c
  end.

(** The tree [2(null, 1, 3)]: the left-most slot of the root is absent. *)
Definition null_left_tree : tree nat :=
  Node 2 [None; Some (Node 1 []); Some (Node 3 [])].

(** C6 as it is worded fails on [2(null, 1, 3)].  The left-most present
    subtree of the root is 1, so that the claim asks for 1, 2, 3; the
    iteration yields 2, 1, 3: [find_leftmost_child] descends through the
    left-most slot only, and a node whose left-most slot is absent comes
    before all of its children. *)
Lemma in_order_null_left_slot_counterexample :
  map value (visited (begin null_left_tree)) = [2; 1; 3] /\
  map value (left_most_present_first null_left_tree) = [1; 2; 3] /\
  ~ (forall t : tree nat, visited (begin t) = left_most_present_first t).
Proof.
  split; [rewrite ino_visited_begin; reflexivity|].
  split; [reflexivity|].
  intro H. specialize (H null_left_tree).
  rewrite ino_visited_begin in H. cbv in H. discriminate H.
Qed.

(** C6, as amended.  In-order iteration visits, for every node whose
    left-most slot holds a node, the nodes of the subtree in that slot,
    then the node itself, then the nodes of the subtrees in its other
    slots from left to right, null handles contributing nothing.  A node
    whose left-most slot is null is visited before all of its children,
    and a node without children is visited alone.  On [2(1, 3)] the values
    come out as 1, 2, 3. *)
Theorem in_order_is_left_self_others :
  (forall (T : Type) (v : T),
      visited (begin (Node v [])) = [Node v []]) /\
  (forall (T : Type) (v : T) (left_child : tree T) (c : children_type T),
      visited (begin (Node v (Some left_child :: c))) =
        visited (begin left_child)
          ++ Node v (Some left_child :: c) :: flat_map visited_ptr c) /\
  (forall (T : Type) (v : T) (c : children_type T),
      visited (begin (Node v (None :: c))) =
        Node v (None :: c) :: flat_map visited_ptr c) /\
  map value (visited (begin example_tree)) = [1; 2; 3].
Proof.
  repeat split; intros;
    rewrite ?ino_visited_begin, ?flat_map_visited_ptr, ?inorder_Node;
    reflexivity.
Qed.
End in_order_iteration.

(** *** Breadth-first traversal

    The breadth-first iterator keeps its position as a
    [std::vector<pointer>::iterator] into its own vector [_M_this_level].
    Such an iterator is a pointer into the heap buffer of a vector: it is
    modelled by the identity of the buffer (absent for a value-initialised
    iterator and for a vector that has not allocated) and an offset.
    Buffers are numbered in the order of their allocation; the number of
    the next buffer is threaded through the operations that may allocate. *)

Module breadth_first_iteration.

Record vector (P : Type) : Type := {
  storage : option nat;
  elems : list P
}.
Arguments storage {P} _.
Arguments elems {P} _.

Definition vector_iterator : Type := (option nat * nat)%type.

Record iterator (P : Type) : Type := {
  _M_current : vector_iterator;
  _M_this_level : vector P;
  _M_next_level : vector P
}.
Arguments _M_current {P} _.
Arguments _M_this_level {P} _.
Arguments _M_next_level {P} _.

Definition storage_eqb (a b : option nat) : bool :=
  match a, b with
  | None, None => true
  | Some x, Some y => Nat.eqb x y
  | _, _ => false
  end.

(** [==] on vector iterators: the same address. *)
Definition vector_iterator_eqb (a b : vector_iterator) : bool :=
  storage_eqb (fst a) (fst b) && Nat.eqb (snd a) (snd b).

Section Generic.
Context {P : Type}.

(** A default-constructed vector and a moved-from vector. *)
Definition vec_default : vector P := {| storage := None; elems := [] |}.

(** [begin()] and [end()] of a vector. *)
Definition vec_begin (v : vector P) : vector_iterator := (storage v, 0).
Definition vec_end (v : vector P) : vector_iterator :=
  (storage v, List.length (elems v)).

(** [push_back]: the first one allocates the buffer.  (A later one may
    move the elements to a larger buffer; no iterator into a vector is
    kept across a [push_back], and the identity of the buffer is only
    observed once the vector has stopped growing.) *)
Definition vec_push_back (v : vector P) (x : P) (heap : nat)
  : vector P * nat :=
  match storage v with
  | Some _ => ({| storage := storage v; elems := elems v ++ [x] |}, heap)
  | None => ({| storage := Some heap; elems := elems v ++ [x] |}, S heap)
  end.

(** [iterator()]. *)
Definition end_ : iterator P :=
  {| _M_current := (None, 0);
     _M_this_level := vec_default;
     _M_next_level := vec_default |}.

(** [iterator(root)]: [_M_this_level({root})] allocates. *)
Definition begin (root : P) (heap : nat) : iterator P * nat :=
  let this_level := {| storage := Some heap; elems := [root] |} in
  ({| _M_current := vec_begin this_level;
      _M_this_level := this_level;
      _M_next_level := vec_default |}, S heap).

(** [empty()]: [_M_current == _M_this_level.end()]. *)
Definition empty (it : iterator P) : bool :=
  vector_iterator_eqb (_M_current it) (vec_end (_M_this_level it)).

(** [operator*]: asserts [!empty()], and reads through [_M_current],
    which has to point into the buffer of [_M_this_level]. *)
Definition deref (it : iterator P) : option P :=
  if empty it then None
  else if storage_eqb (fst (_M_current it)) (storage (_M_this_level it))
       then nth_error (elems (_M_this_level it)) (snd (_M_current it))
       else None.

(** [operator==]. *)
Definition operator_eq (a b : iterator P) : bool :=
  (empty a && empty b)
  || vector_iterator_eqb (_M_current a) (_M_current b).

Definition operator_ne (a b : iterator P) : bool :=
  negb (operator_eq a b).

(** Two iterators at the same position of a traversal: they reference
    the same node, at the same place of the same level, and have
    collected the same part of the next level. *)
Definition same_position (a b : iterator P) : Prop :=
  deref a <> None /\ deref a = deref b /\
  snd (_M_current a) = snd (_M_current b) /\
  elems (_M_this_level a) = elems (_M_this_level b) /\
  elems (_M_next_level a) = elems (_M_next_level b).
End Generic.

Section Traversal.
Context {T : Type}.

(** The [for] loop of [operator++] over the children of the current
    node. *)
Fixpoint push_children (c : children_type T)
  (next_level : vector (tree T)) (heap : nat)
  : vector (tree T) * nat :=
  match c with
  | [] => (next_level, heap)
  | Some t :: c' =>
      let (next_level', heap') := vec_push_back next_level t heap in
      push_children c' next_level' heap'
  | None :: c' => push_children c' next_level heap
  end.

(** [operator++]. *)
Definition operator_inc (it : iterator (tree T)) (heap : nat)
  : option (iterator (tree T) * nat) :=
  match deref it with
  | None => None
  | Some node =>
      let (next_level, heap') :=
        push_children (_M_children node) (_M_next_level it) heap in
      let current := (fst (_M_current it), S (snd (_M_current it))) in
      if vector_iterator_eqb current (vec_end (_M_this_level it))
      then Some ({| _M_current := vec_begin next_level;
                    _M_this_level := next_level;
                    _M_next_level := vec_default |}, heap')
      else Some ({| _M_current := current;
                    _M_this_level := _M_this_level it;
                    _M_next_level := next_level |}, heap')
  end.

(** [n] applications of [operator++]. *)
Fixpoint increments (n : nat) (it : iterator (tree T)) (heap : nat)
  : option (iterator (tree T) * nat) :=
  match n with
  | O => Some (it, heap)
  | S n' =>
      match operator_inc it heap with
      | Some (it', heap') => increments n' it' heap'
      | None => None
      end
  end.

(** The nodes behind the present handles of a children vector, and the
    next level of a level. *)
Definition present (c : children_type T) : list (tree T) :=
  flat_map (fun h : tree_ptr T =>
              match h with Some t => [t] | None => [] end) c.

Definition generation (level : list (tree T)) : list (tree T) :=
  flat_map (fun t => present (_M_children t)) level.

Definition total_weight (level : list (tree T)) : nat :=
  list_sum (map weight level).

Lemma total_weight_app l1 l2 :
  total_weight (l1 ++ l2) = total_weight l1 + total_weight l2.
Proof. unfold total_weight. now rewrite map_app, list_sum_app. Qed.

Lemma total_weight_cons t l :
  total_weight (t :: l) = weight t + total_weight l.
Proof. reflexivity. Qed.

Lemma total_weight_present c :
  total_weight (present c) <= weight_children c.
Proof.
  induction c as [|[t|] c IH]; cbn [present flat_map weight_children].
  - apply Nat.le_refl.
  - fold (present c). rewrite total_weight_app, total_weight_cons.
    unfold total_weight at 1. cbn [map list_sum fold_right]. lia.
  - fold (present c). cbn [app]. lia.
Qed.

Lemma total_weight_generation level :
  total_weight (generation level) + List.length level
  <= total_weight level.
Proof.
  induction level as [|[v c] level IH]; [apply Nat.le_refl|].
  cbn [generation flat_map]. fold (generation level).
  rewrite total_weight_app, total_weight_cons, weight_Node.
  cbn [_M_children List.length].
  pose proof (total_weight_present c). lia.
Qed.

(** Level order in the words of the specification: a level from left to
    right, then the level order of the next level, which consists of
    the present children of the nodes of the level, grouped by parent
    and from left to right. *)
Equations? level_order (level : list (tree T)) : list (tree T)
  by wf (total_weight level) lt :=
  level_order [] := [];
  level_order (t :: l) := (t :: l) ++ level_order (generation (t :: l)).
Proof.
  pose proof (total_weight_generation (t :: l)) as H.
  cbn [List.length generation flat_map] in H.
  fold (generation l) in H. lia.
Qed.

Lemma level_order_eq level :
  level_order level = level ++ level_order (generation level).
Proof. destruct level; now simp level_order. Qed.

(** The nodes that remain to be visited. *)
Definition remaining (it : iterator (tree T)) : list (tree T) :=
  match deref it with
  | None => []
  | Some _ =>
      let rest := skipn (snd (_M_current it)) (elems (_M_this_level it)) in
      rest ++ level_order (elems (_M_next_level it) ++ generation rest)
  end.

Implicit Types (it : iterator (tree T)) (node : tree T).

Lemma storage_eqb_eq a b : storage_eqb a b = true <-> a = b.
Proof.
  destruct a as [x|], b as [y|]; cbn; split; try congruence.
  - intro H. apply Nat.eqb_eq in H. congruence.
  - intro H. injection H as ->. apply Nat.eqb_refl.
Qed.

Lemma vector_iterator_eqb_eq a b :
  vector_iterator_eqb a b = true <-> a = b.
Proof.
  destruct a as [s1 o1], b as [s2 o2]. unfold vector_iterator_eqb.
  cbn [fst snd]. rewrite andb_true_iff, storage_eqb_eq, Nat.eqb_eq.
  split; [intros [-> ->]; reflexivity|intro H; now injection H].
Qed.

Lemma skipn_nth_error {A : Type} (l : list A) (n : nat) (x : A) :
  nth_error l n = Some x -> skipn n l = x :: skipn (S n) l.
Proof.
  revert l. induction n as [|n IH]; intros [|a l] H; try discriminate.
  - injection H as ->. reflexivity.
  - cbn [nth_error] in H. rewrite skipn_cons. now apply IH.
Qed.

Lemma deref_Some it node :
  deref it = Some node ->
  fst (_M_current it) = storage (_M_this_level it) /\
  nth_error (elems (_M_this_level it)) (snd (_M_current it)) = Some node.
Proof.
  unfold deref. destruct (empty it); [discriminate|].
  destruct (storage_eqb _ _) eqn:E; [|discriminate].
  apply storage_eqb_eq in E. now split.
Qed.

Lemma push_children_elems c next_level heap :
  elems (fst (push_children c next_level heap)) =
    elems next_level ++ present c.
Proof.
  revert next_level heap.
  induction c as [|[t|] c IH]; intros next_level heap;
    cbn [push_children present flat_map].
  - now rewrite app_nil_r.
  - fold (present c).
    destruct (vec_push_back next_level t heap) as [n h] eqn:E.
    rewrite IH. unfold vec_push_back in E.
    destruct (storage next_level); injection E as <- <-;
      cbn [elems]; now rewrite <- app_assoc.
  - apply IH.
Qed.

Lemma bfs_remaining_level it :
  snd (_M_current it) = 0 ->
  fst (_M_current it) = storage (_M_this_level it) ->
  elems (_M_next_level it) = [] ->
  remaining it = level_order (elems (_M_this_level it)).
Proof.
  intros Ho Hs Hn. unfold remaining, deref, empty, vec_end.
  destruct (_M_current it) as [s o]. cbn [fst snd] in *. subst s o.
  rewrite Hn. unfold vector_iterator_eqb. cbn [fst snd app skipn].
  rewrite (proj2 (storage_eqb_eq _ _) eq_refl). cbn [andb].
  destruct (elems (_M_this_level it)) as [|x l] eqn:E.
  - reflexivity.
  - cbn [List.length Nat.eqb nth_error]. now rewrite <- level_order_eq.
Qed.

Lemma bfs_remaining_operator_inc it heap it' heap' :
  operator_inc it heap = Some (it', heap') ->
  exists node,
    deref it = Some node /\ remaining it = node :: remaining it'.
Proof.
  unfold operator_inc. destruct (deref it) as [node|] eqn:D;
    [|discriminate].
  intro H. exists node. split; [reflexivity|].
  destruct (deref_Some it node D) as [Hs Hn].
  assert (Hr : remaining it =
               node :: skipn (S (snd (_M_current it)))
                             (elems (_M_this_level it))
                 ++ level_order
                      ((elems (_M_next_level it)
                          ++ present (_M_children node))
                         ++ generation
                              (skipn (S (snd (_M_current it)))
                                     (elems (_M_this_level it))))).
  { unfold remaining. rewrite D. cbn zeta.
    rewrite (skipn_nth_error _ _ _ Hn).
    cbn [generation flat_map app]. now rewrite <- app_assoc. }
  rewrite Hr. f_equal. clear Hr.
  pose proof (push_children_elems (_M_children node)
                (_M_next_level it) heap) as Hp.
  destruct (push_children (_M_children node) (_M_next_level it) heap)
    as [next_level h]. cbn [fst] in Hp.
  destruct (vector_iterator_eqb _ _) eqn:E; injection H as <- <-.
  - apply vector_iterator_eqb_eq in E. unfold vec_end in E.
    injection E as _ E.
    rewrite bfs_remaining_level by reflexivity. cbn [_M_this_level].
    rewrite E, skipn_all. cbn [app generation flat_map].
    now rewrite app_nil_r, Hp.
  - assert (Hlt : S (snd (_M_current it))
                  < List.length (elems (_M_this_level it))).
    { assert (snd (_M_current it)
              < List.length (elems (_M_this_level it)))
        by (apply nth_error_Some; congruence).
      assert (S (snd (_M_current it))
              <> List.length (elems (_M_this_level it))); [|lia].
      intro Hc. unfold vec_end, vector_iterator_eqb in E.
      cbn [fst snd] in E. rewrite Hc, Nat.eqb_refl in E.
      rewrite (proj2 (storage_eqb_eq _ _) Hs) in E. discriminate. }
    unfold remaining, deref, empty. cbn [_M_current _M_this_level
                                         _M_next_level fst snd].
    rewrite E, (proj2 (storage_eqb_eq _ _) Hs).
    destruct (nth_error (elems (_M_this_level it))
                (S (snd (_M_current it)))) eqn:En.
    + now rewrite Hp.
    + apply nth_error_None in En. lia.
Qed.

(** The nodes visited by [for (it = first; it != end(); ++it)], in the
    order of the visits. *)
Equations? visited (it : iterator (tree T)) (heap : nat) : list (tree T)
  by wf (List.length (remaining it)) lt :=
  visited it heap with inspect (operator_inc it heap) := {
    | exist _ None _ := []
    | exist _ (Some (it', heap')) E with deref it := {
        | Some node := node :: visited it' heap'
        | None := [] } }.
Proof.
  destruct (bfs_remaining_operator_inc it heap it' heap' E) as [c [_ ->]].
  cbn. lia.
Qed.

Lemma bfs_visited_remaining it heap : visited it heap = remaining it.
Proof.
  funelim (visited it heap); clear_inspect.
  - unfold operator_inc in e. unfold remaining.
    destruct (deref it); [|reflexivity].
    destruct (push_children _ _ _).
    destruct (vector_iterator_eqb _ _); discriminate.
  - destruct (bfs_remaining_operator_inc it heap it' heap' E)
      as [c [Hc ->]].
    rewrite Hc in Heq. injection Heq as ->. now f_equal.
  - unfold remaining. now rewrite Heq.
Qed.

Lemma bfs_visited_begin root heap :
  visited (fst (begin root heap)) (snd (begin root heap)) =
    level_order [root].
Proof.
  rewrite bfs_visited_remaining. now rewrite bfs_remaining_level.
Qed.

(** The levels of a tree: the nodes at depth [d] below a node, from
    left to right. *)
Fixpoint at_depth (d : nat) (t : tree T) : list (tree T) :=
  match d with
  | O => [t]
  | S d' => flat_map (at_depth d') (present (_M_children t))
  end.

Fixpoint height (t : tree T) : nat :=
  match t with
  | Node _ c =>
      S ((fix go (l : children_type T) : nat :=
            match l with
            | [] => 0
            | Some t' :: l' => Nat.max (height t') (go l')
            | None :: l' => go l'
            end) c)
  end.

Lemma height_present v c t :
  In t (present c) -> height t < height (Node v c).
Proof.
  cbn [height]. induction c as [|[t'|] c IH]; cbn [present flat_map].
  - intros [].
  - fold (present c). cbn [app]. intros [<-|H]; [lia|].
    specialize (IH H). lia.
  - exact IH.
Qed.

Lemma flat_map_all_nil {A B : Type} (f : A -> list B) (l : list A) :
  (forall x, In x l -> f x = []) -> flat_map f l = [].
Proof.
  induction l as [|a l IH]; intro H; [reflexivity|].
  cbn [flat_map]. rewrite (H a (or_introl eq_refl)), IH; [reflexivity|].
  intros x Hx. apply H. now right.
Qed.

Lemma at_depth_above d :
  forall t, height t <= d -> at_depth d t = [].
Proof.
  induction d as [|d IH]; intros [v c] H.
  - cbn [height] in H. lia.
  - cbn [at_depth _M_children]. apply flat_map_all_nil.
    intros t Ht. apply IH.
    pose proof (height_present v c t Ht). lia.
Qed.

Lemma generation_flat_map {A : Type} (f : A -> list (tree T)) l :
  generation (flat_map f l) = flat_map (fun x => generation (f x)) l.
Proof.
  unfold generation. induction l as [|a l IH]; [reflexivity|].
  cbn [flat_map]. now rewrite flat_map_app, IH.
Qed.

Lemma generation_at_depth d :
  forall t, generation (at_depth d t) = at_depth (S d) t.
Proof.
  induction d as [|d IH]; intro t.
  - cbn [at_depth generation flat_map]. rewrite app_nil_r.
    induction (present (_M_children t)) as [|x l IHl];
      [reflexivity|]. cbn [flat_map app]. now f_equal.
  - change (at_depth (S d) t)
      with (flat_map (at_depth d) (present (_M_children t))).
    rewrite generation_flat_map.
    change (at_depth (S (S d)) t)
      with (flat_map (at_depth (S d)) (present (_M_children t))).
    apply flat_map_ext. exact IH.
Qed.

Lemma level_order_at_depth t n :
  forall d, height t - d = n ->
    level_order (at_depth d t) =
      flat_map (fun k => at_depth k t) (seq d n).
Proof.
  induction n as [|n IH]; intros d H.
  - rewrite at_depth_above by lia. reflexivity.
  - rewrite level_order_eq, generation_at_depth, (IH (S d)) by lia.
    reflexivity.
Qed.
End Traversal.

(** A root with the children [A, B, C], each with two children. *)
Definition example_tree : tree nat :=
  Node 0 [Some (Node 1 [Some (Node 11 []); Some (Node 12 [])]);
          Some (Node 2 [Some (Node 21 []); Some (Node 22 [])]);
          Some (Node 3 [Some (Node 31 []); Some (Node 32 [])])].

(** C4: breadth-first iteration visits the tree level by level: the
    root, then the nodes at depth 1, then the nodes at depth 2, and so
    on down to the last level.  Every level consists of the present
    children of the nodes of the level before, grouped by parent, parents
    and children from left to right; null handles are skipped.  For a
    root with the children A, B, C that have two children each, the order
    is root, A, B, C, then the children of A, of B and of C. *)
Theorem breadth_first_is_level_order :
  (forall (T : Type) (root : tree T) (heap : nat),
      visited (fst (begin root heap)) (snd (begin root heap)) =
        flat_map (fun d => at_depth d root) (seq 0 (height root))) /\
  (forall (T : Type) (t : tree T), at_depth 0 t = [t]) /\
  (forall (T : Type) (t : tree T) (d : nat),
      at_depth (S d) t =
        flat_map (fun parent => present (_M_children parent))
                 (at_depth d t)) /\
  (forall (T : Type) (c : children_type T) (t : tree T),
      present (Some t :: c) = t :: present c /\
      present (None :: c) = present c) /\
  map value (visited (fst (begin example_tree 0))
                     (snd (begin example_tree 0))) =
    [0; 1; 2; 3; 11; 12; 21; 22; 31; 32].
Proof.
  split; [|split; [|split; [|split]]].
  - intros T root heap. rewrite bfs_visited_begin.
    rewrite <- (level_order_at_depth root (height root) 0)
      by apply Nat.sub_0_r.
    reflexivity.
  - reflexivity.
  - intros T t d. symmetry. apply generation_at_depth.
  - intros T c t. split; reflexivity.
  - reflexivity.
Qed.
End breadth_first_iteration.

(** ** Equality of iterators *)

(** Structural equality of trees, to compare pointers into one tree whose
    nodes can be told apart by their subtrees. *)
Section TreeEquality.
Context {T : Type}.
Variable T_eqb : T -> T -> bool.
Hypothesis T_eqb_eq : forall x y, T_eqb x y = true <-> x = y.

Fixpoint tree_eqb (a b : tree T) : bool :=
  match a, b with
  | Node v c, Node w d =>
      T_eqb v w &&
      (fix go (l : children_type T) (m : children_type T) : bool :=
         match l, m with
         | [], [] => true
         | Some x :: l', Some y :: m' => tree_eqb x y && go l' m'
         | None :: l', None :: m' => go l' m'
         | _, _ => false
         end) c d
  end.

Lemma tree_eqb_eq (a : tree T) : forall b, tree_eqb a b = true <-> a = b.
Proof.
  induction a as [v c IH] using tree_ind. intros [w d].
  cbn [tree_eqb]. rewrite andb_true_iff, T_eqb_eq.
  match goal with |- _ /\ ?g c d = true <-> _ => set (go := g) end.
  assert (H : forall m, go c m = true <-> c = m).
  { induction IH as [|h l Hh _ IHl]; intros [|k m].
    - split; reflexivity.
    - split; discriminate.
    - destruct h; split; discriminate.
    - destruct h as [x|], k as [y|]; cbn [go];
        try (split; [discriminate|congruence]).
      + rewrite andb_true_iff, (Hh x eq_refl y), IHl.
        split; [intros [-> ->]; reflexivity|intro E; now injection E].
      + rewrite IHl.
        split; [intros ->; reflexivity|intro E; now injection E]. }
  rewrite H. split; [intros [-> ->]; reflexivity|intro E; now injection E].
Qed.

Definition tree_eq_dec (a b : tree T) : {a = b} + {a <> b} :=
  match tree_eqb a b as r return tree_eqb a b = r -> {a = b} + {a <> b} with
  | true => fun H => left (proj1 (tree_eqb_eq a b) H)
  | false => fun H =>
      right (fun E =>
               eq_ind true (fun r => r = false -> False)
                      (fun D => diff_true_false D) _
                      (eq_sym (proj2 (tree_eqb_eq a b) E)) H)
  end eq_refl.
End TreeEquality.

(** C7, a defect of the code.  Two iterators that [begin()] returns for one
    root reference the identical traversal position, the root.  The
    depth-first and the in-order iterators compare equal there, as the
    claim says: their [operator==] compares the node pointers.  The
    breadth-first iterators compare unequal, in both directions:
    [operator==] compares [_M_current], which points into the buffer of
    each iterator's own [_M_this_level].  So it is not the case that two
    breadth-first iterators are equal exactly when both are exhausted or
    both are at the same position. *)
Theorem breadth_first_begin_iterators_unequal :
  let root := breadth_first_iteration.example_tree in
  let first := breadth_first_iteration.begin root 0 in
  let second := breadth_first_iteration.begin root (snd first) in
  let a := fst first in
  let b := fst second in
  depth_first_iteration.operator_eq (tree_eq_dec Nat.eqb Nat.eqb_eq)
    (depth_first_iteration.begin root) (depth_first_iteration.begin root)
  = true /\
  in_order_iteration.operator_eq (tree_eq_dec Nat.eqb Nat.eqb_eq)
    (in_order_iteration.begin root) (in_order_iteration.begin root)
  = true /\
  breadth_first_iteration.same_position a b /\
  breadth_first_iteration.deref a = Some root /\
  breadth_first_iteration.deref b = Some root /\
  breadth_first_iteration.operator_eq a b = false /\
  breadth_first_iteration.operator_eq b a = false /\
  ~ (forall x y : breadth_first_iteration.iterator (tree nat),
        breadth_first_iteration.operator_eq x y = true <->
        (breadth_first_iteration.empty x = true /\
         breadth_first_iteration.empty y = true) \/
        breadth_first_iteration.same_position x y).
Proof.
  cbn zeta.
  set (a := fst (breadth_first_iteration.begin _ 0)).
  set (b := fst (breadth_first_iteration.begin _ _)).
  assert (H : breadth_first_iteration.same_position a b).
  { unfold breadth_first_iteration.same_position. cbn.
    repeat split. discriminate. }
  split; [vm_compute; reflexivity|]. split; [vm_compute; reflexivity|].
  split; [exact H|]. split; [reflexivity|]. split; [reflexivity|].
  split; [reflexivity|]. split; [reflexivity|].
  intro C. pose proof (proj2 (C a b) (or_intror H)) as D.
  vm_compute in D. discriminate D.
Qed.

Section IteratorEquality.
Context {P : Type}.
Variable P_eq_dec : forall a b : P, {a = b} + {a <> b}.

Lemma dfs_operator_eq_iff (a b : depth_first_iteration.iterator P) :
  depth_first_iteration.operator_eq P_eq_dec a b = true <->
  depth_first_iteration._M_current a = depth_first_iteration._M_current b.
Proof.
  unfold depth_first_iteration.operator_eq.
  destruct (depth_first_iteration._M_current a) as [p|],
    (depth_first_iteration._M_current b) as [q|];
    try (split; [discriminate|congruence]); [|split; reflexivity].
  destruct (P_eq_dec p q); split; congruence.
Qed.

Lemma ino_operator_eq_iff (a b : in_order_iteration.iterator P) :
  in_order_iteration.operator_eq P_eq_dec a b = true <->
  in_order_iteration._M_current a = in_order_iteration._M_current b.
Proof.
  unfold in_order_iteration.operator_eq.
  destruct (in_order_iteration._M_current a) as [p|],
    (in_order_iteration._M_current b) as [q|];
    try (split; [discriminate|congruence]); [|split; reflexivity].
  destruct (P_eq_dec p q); split; congruence.
Qed.

Lemma bfs_operator_eq_iff (a b : breadth_first_iteration.iterator P) :
  breadth_first_iteration.operator_eq a b = true <->
  (breadth_first_iteration.empty a = true /\
   breadth_first_iteration.empty b = true) \/
  breadth_first_iteration._M_current a = breadth_first_iteration._M_current b.
Proof.
  unfold breadth_first_iteration.operator_eq.
  now rewrite orb_true_iff, andb_true_iff,
    breadth_first_iteration.vector_iterator_eqb_eq.
Qed.

Lemma option_eq_cases (x y : option P) :
  x = y <->
  (x = None /\ y = None) \/ (exists p, x = Some p /\ y = Some p).
Proof.
  destruct x as [p|], y as [q|]; split; try congruence.
  - intros E. right. exists p. split; congruence.
  - intros [[H _]|[r [H1 H2]]]; congruence.
  - intros [[H _]|[r [H1 H2]]]; congruence.
  - intros [[_ H]|[r [H1 H2]]]; congruence.
  - intros _. now left.
Qed.

(** What [operator==] decides.  For each of the three kinds, a
    default-constructed iterator is exhausted and compares equal to every
    exhausted iterator.  Two depth-first iterators, and two in-order
    iterators, compare equal exactly when both are exhausted or
    [operator*] gives the same node for both.  Two breadth-first iterators
    compare equal exactly when both are exhausted or their cursors are the
    same place of the same level buffer; those of two iterators created
    one after the other never are. *)
Lemma iterator_equality :
  (* a default-constructed iterator against an exhausted one *)
  (depth_first_iteration.empty (@depth_first_iteration.end_ P) = true /\
   forall it : depth_first_iteration.iterator P,
     depth_first_iteration.empty it = true ->
     depth_first_iteration.operator_eq P_eq_dec
       depth_first_iteration.end_ it = true /\
     depth_first_iteration.operator_eq P_eq_dec
       it depth_first_iteration.end_ = true) /\
  (in_order_iteration.empty (@in_order_iteration.end_ P) = true /\
   forall it : in_order_iteration.iterator P,
     in_order_iteration.empty it = true ->
     in_order_iteration.operator_eq P_eq_dec
       in_order_iteration.end_ it = true /\
     in_order_iteration.operator_eq P_eq_dec
       it in_order_iteration.end_ = true) /\
  (breadth_first_iteration.empty (@breadth_first_iteration.end_ P) = true /\
   forall it : breadth_first_iteration.iterator P,
     breadth_first_iteration.empty it = true ->
     breadth_first_iteration.operator_eq
       breadth_first_iteration.end_ it = true /\
     breadth_first_iteration.operator_eq
       it breadth_first_iteration.end_ = true) /\
  (* two iterators of the same kind *)
  (forall a b : depth_first_iteration.iterator P,
      depth_first_iteration.operator_eq P_eq_dec a b = true <->
      (depth_first_iteration.empty a = true /\
       depth_first_iteration.empty b = true) \/
      (exists p, depth_first_iteration.deref a = Some p /\
                 depth_first_iteration.deref b = Some p)) /\
  (forall a b : in_order_iteration.iterator P,
      in_order_iteration.operator_eq P_eq_dec a b = true <->
      (in_order_iteration.empty a = true /\
       in_order_iteration.empty b = true) \/
      (exists p, in_order_iteration.deref a = Some p /\
                 in_order_iteration.deref b = Some p)) /\
  (forall a b : breadth_first_iteration.iterator P,
      breadth_first_iteration.operator_eq a b = true <->
      (breadth_first_iteration.empty a = true /\
       breadth_first_iteration.empty b = true) \/
      breadth_first_iteration._M_current a =
        breadth_first_iteration._M_current b) /\
  (forall a b : breadth_first_iteration.iterator P,
      breadth_first_iteration.operator_eq a b = true ->
      breadth_first_iteration.deref a <> None ->
      breadth_first_iteration.deref b <> None ->
      breadth_first_iteration.storage
        (breadth_first_iteration._M_this_level a) =
      breadth_first_iteration.storage
        (breadth_first_iteration._M_this_level b) /\
      snd (breadth_first_iteration._M_current a) =
      snd (breadth_first_iteration._M_current b)) /\
  (forall (root1 root2 : P) (heap : nat),
      breadth_first_iteration.operator_eq
        (fst (breadth_first_iteration.begin root1 heap))
        (fst (breadth_first_iteration.begin root2
                (snd (breadth_first_iteration.begin root1 heap)))) = false).
Proof.
  split; [|split; [|split; [|split; [|split; [|split; [|split]]]]]].
  - split; [reflexivity|]. intros it H.
    rewrite !dfs_operator_eq_iff. unfold depth_first_iteration.empty in H.
    destruct (depth_first_iteration._M_current it) eqn:E; [discriminate|].
    split; reflexivity.
  - split; [reflexivity|]. intros it H.
    rewrite !ino_operator_eq_iff. unfold in_order_iteration.empty in H.
    destruct (in_order_iteration._M_current it) eqn:E; [discriminate|].
    split; reflexivity.
  - split; [reflexivity|]. intros it H.
    unfold breadth_first_iteration.operator_eq. rewrite H.
    split; reflexivity.
  - intros a b. rewrite dfs_operator_eq_iff, option_eq_cases.
    unfold depth_first_iteration.empty, depth_first_iteration.deref.
    destruct (depth_first_iteration._M_current a),
      (depth_first_iteration._M_current b);
      split; (intros [[H1 H2]|H]; [left|right; exact H]);
      split; congruence.
  - intros a b. rewrite ino_operator_eq_iff, option_eq_cases.
    unfold in_order_iteration.empty, in_order_iteration.deref.
    destruct (in_order_iteration._M_current a),
      (in_order_iteration._M_current b);
      split; (intros [[H1 H2]|H]; [left|right; exact H]);
      split; congruence.
  - exact bfs_operator_eq_iff.
  - intros a b H Ha Hb. apply bfs_operator_eq_iff in H.
    unfold breadth_first_iteration.deref in Ha, Hb.
    destruct (breadth_first_iteration.empty a); [congruence|].
    destruct (breadth_first_iteration.empty b); [congruence|].
    destruct H as [[H _]|H]; [discriminate|].
    destruct (breadth_first_iteration.storage_eqb
                (fst (breadth_first_iteration._M_current a)) _) eqn:Ea;
      [|congruence].
    destruct (breadth_first_iteration.storage_eqb
                (fst (breadth_first_iteration._M_current b)) _) eqn:Eb;
      [|congruence].
    apply breadth_first_iteration.storage_eqb_eq in Ea, Eb.
    rewrite <- Ea, <- Eb, H. split; reflexivity.
  - intros root1 root2 heap.
    unfold breadth_first_iteration.operator_eq,
      breadth_first_iteration.empty,
      breadth_first_iteration.vector_iterator_eqb.
    cbn. rewrite Nat.eqb_refl. cbn.
    destruct (Nat.eqb_spec heap (S heap)) as [E|_]; [lia|reflexivity].
Qed.
End IteratorEquality.

(** On the example trees: the iterators obtained by incrementing
    [begin()] once per node are exhausted, and equal to the
    default-constructed iterator. *)
Lemma iterator_equality_witness :
  (exists it,
      depth_first_iteration.increments 5
        (depth_first_iteration.begin depth_first_iteration.example_tree)
      = Some it /\
      depth_first_iteration.operator_eq (tree_eq_dec Nat.eqb Nat.eqb_eq)
        depth_first_iteration.end_ it = true) /\
  (exists it,
      in_order_iteration.increments 3
        (in_order_iteration.begin in_order_iteration.example_tree)
      = Some it /\
      in_order_iteration.operator_eq (tree_eq_dec Nat.eqb Nat.eqb_eq)
        in_order_iteration.end_ it = true) /\
  (exists it heap,
      breadth_first_iteration.increments 10
        (fst (breadth_first_iteration.begin
                breadth_first_iteration.example_tree 0))
        (snd (breadth_first_iteration.begin
                breadth_first_iteration.example_tree 0))
      = Some (it, heap) /\
      breadth_first_iteration.operator_eq
        breadth_first_iteration.end_ it = true) /\
  (exists a b,
      fst (breadth_first_iteration.begin
             breadth_first_iteration.example_tree 0) = a /\
      fst (breadth_first_iteration.begin
             breadth_first_iteration.example_tree 1) = b /\
      breadth_first_iteration.operator_eq a b = false /\
      ~ (breadth_first_iteration.storage
           (breadth_first_iteration._M_this_level a) =
         breadth_first_iteration.storage
           (breadth_first_iteration._M_this_level b) /\
         snd (breadth_first_iteration._M_current a) =
         snd (breadth_first_iteration._M_current b))).
Proof.
  destruct (iterator_equality (tree_eq_dec Nat.eqb Nat.eqb_eq))
    as [[_ Hd] [[_ Hi] [[_ Hb] [_ [_ [_ [Hs Hn]]]]]]].
  split; [|split; [|split]].
  - eexists. split; [vm_compute; reflexivity|].
    apply Hd. reflexivity.
  - eexists. split; [vm_compute; reflexivity|].
    apply Hi. reflexivity.
  - eexists. eexists. split; [vm_compute; reflexivity|].
    apply Hb. reflexivity.
  - eexists. eexists. split; [reflexivity|]. split; [reflexivity|].
    split; [exact (Hn _ _ 0)|].
    intros [E _]. cbn in E. discriminate E.
Defined.

(** ** The iteration protocol of the traversal iterators *)

Section DepthFirstProtocol.
Context {T : Type}.
Implicit Types (it : depth_first_iteration.iterator (tree T)).

Lemma dfs_deref_remaining it :
  depth_first_iteration.deref it =
    hd_error (depth_first_iteration.remaining it).
Proof.
  unfold depth_first_iteration.deref, depth_first_iteration.remaining.
  destruct (depth_first_iteration._M_current it) as [[v c]|]; [|reflexivity].
  now rewrite nodes_Node.
Qed.

Lemma dfs_advance_exhausted (stack : list (children_type T)) :
  depth_first_iteration._M_current (depth_first_iteration.advance stack)
  = None ->
  depth_first_iteration.advance stack = depth_first_iteration.end_.
Proof.
  induction stack as [|top below IH]; [reflexivity|].
  cbn [depth_first_iteration.advance].
  induction top as [|[t|] top IHt]; [exact IH|discriminate|exact IHt].
Qed.

Lemma dfs_increments_remaining k :
  forall it,
    k <= List.length (depth_first_iteration.remaining it) ->
    exists it',
      depth_first_iteration.increments k it = Some it' /\
      depth_first_iteration.remaining it' =
        skipn k (depth_first_iteration.remaining it).
Proof.
  induction k as [|k IH]; intros it Hk.
  - exists it. split; reflexivity.
  - cbn [depth_first_iteration.increments].
    destruct (depth_first_iteration.operator_inc it) as [it1|] eqn:E.
    + destruct (depth_first_iteration.dfs_remaining_operator_inc it it1 E)
        as [c [_ Hr]].
      rewrite Hr in Hk |- *. cbn [List.length skipn] in *.
      apply IH. lia.
    + unfold depth_first_iteration.operator_inc in E.
      unfold depth_first_iteration.remaining in Hk.
      destruct (depth_first_iteration._M_current it); [discriminate|].
      cbn in Hk. lia.
Qed.

Lemma dfs_increments_last k :
  forall it it',
    depth_first_iteration.increments (S k) it = Some it' ->
    exists it0,
      depth_first_iteration.increments k it = Some it0 /\
      depth_first_iteration.operator_inc it0 = Some it'.
Proof.
  induction k as [|k IH]; intros it it' E.
  - cbn in E. exists it. split; [reflexivity|].
    destruct (depth_first_iteration.operator_inc it); [exact E|discriminate].
  - cbn [depth_first_iteration.increments] in E |- *.
    destruct (depth_first_iteration.operator_inc it) as [it1|];
      [|discriminate].
    apply IH. exact E.
Qed.

Lemma dfs_increments_exhausted k :
  forall it,
    List.length (depth_first_iteration.remaining it) < k ->
    depth_first_iteration.increments k it = None.
Proof.
  induction k as [|k IH]; intros it Hk; [lia|].
  cbn [depth_first_iteration.increments].
  destruct (depth_first_iteration.operator_inc it) as [it1|] eqn:E;
    [|reflexivity].
  destruct (depth_first_iteration.dfs_remaining_operator_inc it it1 E)
    as [c [_ Hr]].
  rewrite Hr in Hk. cbn [List.length] in Hk. apply IH. lia.
Qed.

Lemma dfs_remaining_begin (root : tree T) :
  depth_first_iteration.remaining (depth_first_iteration.begin root)
  = nodes root.
Proof.
  rewrite <- depth_first_iteration.dfs_visited_remaining.
  apply depth_first_iteration.dfs_visited_begin.
Qed.

(** X1: [k] increments of the depth-first [begin()] are defined exactly
    for [k] up to the number of nodes.  Below that number the iterator is
    not exhausted and [operator*] gives the node of rank [k] of the
    pre-order; at that number the iterator is the default-constructed one;
    beyond it an exhausted iterator would be incremented. *)
Theorem depth_first_protocol (root : tree T) (k : nat) :
  (k < List.length (nodes root) ->
   exists it,
     depth_first_iteration.increments k (depth_first_iteration.begin root)
     = Some it /\
     depth_first_iteration.empty it = false /\
     depth_first_iteration.deref it = nth_error (nodes root) k) /\
  depth_first_iteration.increments (List.length (nodes root))
    (depth_first_iteration.begin root)
  = Some depth_first_iteration.end_ /\
  (List.length (nodes root) < k ->
   depth_first_iteration.increments k (depth_first_iteration.begin root)
   = None).
Proof.
  split; [|split].
  - intro Hk.
    destruct (dfs_increments_remaining k (depth_first_iteration.begin root))
      as [it [E Hr]]; [rewrite dfs_remaining_begin; lia|].
    rewrite dfs_remaining_begin in Hr.
    exists it. split; [exact E|].
    assert (Hd : depth_first_iteration.deref it = nth_error (nodes root) k).
    { rewrite dfs_deref_remaining, Hr. clear -Hk.
      revert k Hk. induction (nodes root) as [|x l IH]; intros [|k] Hk;
        cbn in *; try lia; [reflexivity|apply IH; lia]. }
    split; [|exact Hd].
    unfold depth_first_iteration.empty.
    unfold depth_first_iteration.deref in Hd. rewrite Hd.
    destruct (nth_error (nodes root) k) eqn:En; [reflexivity|].
    apply nth_error_None in En. lia.
  - destruct (dfs_increments_remaining (List.length (nodes root))
                (depth_first_iteration.begin root))
      as [it [E Hr]]; [rewrite dfs_remaining_begin; lia|].
    rewrite E. f_equal.
    rewrite dfs_remaining_begin, skipn_all in Hr.
    assert (Hn : List.length (nodes root) <> 0).
    { destruct root. rewrite nodes_Node. discriminate. }
    destruct (List.length (nodes root)) as [|n]; [congruence|].
    destruct (dfs_increments_last n _ _ E) as [it0 [_ E0]].
    unfold depth_first_iteration.operator_inc in E0.
    destruct (depth_first_iteration._M_current it0); [|discriminate].
    injection E0 as <-. apply dfs_advance_exhausted.
    unfold depth_first_iteration.remaining in Hr.
    destruct (depth_first_iteration._M_current _) as [[v c]|];
      [|reflexivity].
    rewrite nodes_Node in Hr. discriminate.
  - intro Hk. apply dfs_increments_exhausted.
    rewrite dfs_remaining_begin. exact Hk.
Qed.
End DepthFirstProtocol.

Lemma depth_first_protocol_witness :
  (exists it,
      depth_first_iteration.increments 2
        (depth_first_iteration.begin depth_first_iteration.example_tree)
      = Some it /\
      depth_first_iteration.empty it = false /\
      depth_first_iteration.deref it
      = nth_error (nodes depth_first_iteration.example_tree) 2) /\
  depth_first_iteration.increments 6
    (depth_first_iteration.begin depth_first_iteration.example_tree)
  = None.
Proof.
  split.
  - apply (proj1 (depth_first_protocol
                    depth_first_iteration.example_tree 2)).
    vm_compute. lia.
  - apply (proj2 (proj2 (depth_first_protocol
                           depth_first_iteration.example_tree 6))).
    vm_compute. lia.
Defined.

Section InOrderProtocol.
Context {T : Type}.
Implicit Types (it : in_order_iteration.iterator (tree T)).

Lemma ino_deref_remaining it :
  in_order_iteration.deref it = hd_error (in_order_iteration.remaining it).
Proof.
  unfold in_order_iteration.deref, in_order_iteration.remaining.
  destruct (in_order_iteration._M_current it); reflexivity.
Qed.

Lemma ino_advance_exhausted (stack : @in_order_iteration.stack_type T) :
  in_order_iteration._M_current (in_order_iteration.advance stack) = None ->
  in_order_iteration.advance stack = in_order_iteration.end_.
Proof.
  induction stack as [|[[curr|] next] below IH];
    [reflexivity|discriminate|].
  cbn [in_order_iteration.advance].
  induction next as [|[t|] next IHn]; [exact IH| |exact IHn].
  destruct (in_order_iteration.find_leftmost_child t _). discriminate.
Qed.

Lemma ino_increments_remaining k :
  forall it,
    k <= List.length (in_order_iteration.remaining it) ->
    exists it',
      in_order_iteration.increments k it = Some it' /\
      in_order_iteration.remaining it' =
        skipn k (in_order_iteration.remaining it).
Proof.
  induction k as [|k IH]; intros it Hk.
  - exists it. split; reflexivity.
  - cbn [in_order_iteration.increments].
    destruct (in_order_iteration.operator_inc it) as [it1|] eqn:E.
    + destruct (in_order_iteration.ino_remaining_operator_inc it it1 E)
        as [c [_ Hr]].
      rewrite Hr in Hk |- *. cbn [List.length skipn] in *.
      apply IH. lia.
    + unfold in_order_iteration.operator_inc in E.
      unfold in_order_iteration.remaining in Hk.
      destruct (in_order_iteration._M_current it); [discriminate|].
      cbn in Hk. lia.
Qed.

Lemma ino_increments_last k :
  forall it it',
    in_order_iteration.increments (S k) it = Some it' ->
    exists it0,
      in_order_iteration.increments k it = Some it0 /\
      in_order_iteration.operator_inc it0 = Some it'.
Proof.
  induction k as [|k IH]; intros it it' E.
  - cbn in E. exists it. split; [reflexivity|].
    destruct (in_order_iteration.operator_inc it); [exact E|discriminate].
  - cbn [in_order_iteration.increments] in E |- *.
    destruct (in_order_iteration.operator_inc it) as [it1|];
      [|discriminate].
    apply IH. exact E.
Qed.

Lemma ino_increments_exhausted k :
  forall it,
    List.length (in_order_iteration.remaining it) < k ->
    in_order_iteration.increments k it = None.
Proof.
  induction k as [|k IH]; intros it Hk; [lia|].
  cbn [in_order_iteration.increments].
  destruct (in_order_iteration.operator_inc it) as [it1|] eqn:E;
    [|reflexivity].
  destruct (in_order_iteration.ino_remaining_operator_inc it it1 E)
    as [c [_ Hr]].
  rewrite Hr in Hk. cbn [List.length] in Hk. apply IH. lia.
Qed.

Lemma ino_remaining_begin (root : tree T) :
  in_order_iteration.remaining (in_order_iteration.begin root)
  = in_order_iteration.inorder root.
Proof.
  rewrite <- in_order_iteration.ino_visited_remaining.
  apply in_order_iteration.ino_visited_begin.
Qed.

Lemma inorder_nonempty (t : tree T) : in_order_iteration.inorder t <> [].
Proof.
  destruct t as [v [|[l|] c]]; rewrite in_order_iteration.inorder_Node;
    try discriminate.
  destruct (in_order_iteration.inorder l); discriminate.
Qed.

Lemma nth_error_skipn_hd {A : Type} (l : list A) (k : nat) :
  hd_error (skipn k l) = nth_error l k.
Proof.
  revert l. induction k as [|k IH]; intros [|x l]; cbn; auto.
Qed.

(** X2: [k] increments of the in-order [begin()] are defined exactly for
    [k] up to the number of nodes of the in-order sequence.  Below that
    number the iterator is not exhausted and [operator*] gives the node of
    rank [k]; at that number the iterator is the default-constructed one;
    beyond it an exhausted iterator would be incremented. *)
Theorem in_order_protocol (root : tree T) (k : nat) :
  (k < List.length (in_order_iteration.inorder root) ->
   exists it,
     in_order_iteration.increments k (in_order_iteration.begin root)
     = Some it /\
     in_order_iteration.empty it = false /\
     in_order_iteration.deref it =
       nth_error (in_order_iteration.inorder root) k) /\
  in_order_iteration.increments
    (List.length (in_order_iteration.inorder root))
    (in_order_iteration.begin root)
  = Some in_order_iteration.end_ /\
  (List.length (in_order_iteration.inorder root) < k ->
   in_order_iteration.increments k (in_order_iteration.begin root) = None).
Proof.
  split; [|split].
  - intro Hk.
    destruct (ino_increments_remaining k (in_order_iteration.begin root))
      as [it [E Hr]]; [rewrite ino_remaining_begin; lia|].
    rewrite ino_remaining_begin in Hr.
    exists it. split; [exact E|].
    assert (Hd : in_order_iteration.deref it =
                 nth_error (in_order_iteration.inorder root) k)
      by (now rewrite ino_deref_remaining, Hr, nth_error_skipn_hd).
    split; [|exact Hd].
    unfold in_order_iteration.empty.
    unfold in_order_iteration.deref in Hd. rewrite Hd.
    destruct (nth_error _ k) eqn:En; [reflexivity|].
    apply nth_error_None in En. lia.
  - destruct (ino_increments_remaining
                (List.length (in_order_iteration.inorder root))
                (in_order_iteration.begin root))
      as [it [E Hr]]; [rewrite ino_remaining_begin; lia|].
    rewrite E. f_equal.
    rewrite ino_remaining_begin, skipn_all in Hr.
    pose proof (inorder_nonempty root) as Hn.
    destruct (in_order_iteration.inorder root) as [|x l]; [congruence|].
    cbn [List.length] in E.
    destruct (ino_increments_last _ _ _ E) as [it0 [_ E0]].
    unfold in_order_iteration.operator_inc in E0.
    destruct (in_order_iteration._M_current it0); [|discriminate].
    injection E0 as <-. apply ino_advance_exhausted.
    unfold in_order_iteration.remaining in Hr.
    destruct (in_order_iteration._M_current _); [discriminate|reflexivity].
  - intro Hk. apply ino_increments_exhausted.
    rewrite ino_remaining_begin. exact Hk.
Qed.
End InOrderProtocol.

Section BreadthFirstProtocol.
Context {T : Type}.
Implicit Types (it : breadth_first_iteration.iterator (tree T)).

(** The cursor of a breadth-first iterator points into the buffer of its
    own [_M_this_level]. *)
Definition bfs_cursor_ok it : Prop :=
  fst (breadth_first_iteration._M_current it) =
    breadth_first_iteration.storage (breadth_first_iteration._M_this_level it)
  /\
  snd (breadth_first_iteration._M_current it) <=
    List.length
      (breadth_first_iteration.elems
         (breadth_first_iteration._M_this_level it)).

Lemma bfs_deref_remaining it :
  breadth_first_iteration.deref it =
    hd_error (breadth_first_iteration.remaining it).
Proof.
  unfold breadth_first_iteration.remaining.
  destruct (breadth_first_iteration.deref it) as [node|] eqn:D;
    [|reflexivity].
  destruct (breadth_first_iteration.deref_Some it node D) as [_ Hn].
  cbn zeta. now rewrite (breadth_first_iteration.skipn_nth_error _ _ _ Hn).
Qed.

Lemma bfs_operator_inc_cursor_ok it heap it' heap' :
  breadth_first_iteration.operator_inc it heap = Some (it', heap') ->
  bfs_cursor_ok it'.
Proof.
  unfold breadth_first_iteration.operator_inc.
  destruct (breadth_first_iteration.deref it) as [node|] eqn:D;
    [|discriminate].
  destruct (breadth_first_iteration.deref_Some it node D) as [Hs Hn].
  destruct (breadth_first_iteration.push_children _ _ _) as [next h].
  destruct (breadth_first_iteration.vector_iterator_eqb _ _);
    intro H; injection H as <- <-; unfold bfs_cursor_ok; cbn.
  - split; [reflexivity|lia].
  - split; [exact Hs|]. apply Nat.le_succ_l, nth_error_Some. congruence.
Qed.

Lemma bfs_exhausted_empty it :
  bfs_cursor_ok it ->
  breadth_first_iteration.deref it = None ->
  breadth_first_iteration.empty it = true.
Proof.
  intros [Hs Hl]. unfold breadth_first_iteration.deref.
  destruct (breadth_first_iteration.empty it) eqn:E; [reflexivity|].
  rewrite (proj2 (breadth_first_iteration.storage_eqb_eq _ _) Hs).
  intro Hn. apply nth_error_None in Hn.
  unfold breadth_first_iteration.empty, breadth_first_iteration.vec_end,
    breadth_first_iteration.vector_iterator_eqb in E. cbn [fst snd] in E.
  rewrite (proj2 (breadth_first_iteration.storage_eqb_eq _ _) Hs) in E.
  cbn [andb] in E. apply Nat.eqb_neq in E. lia.
Qed.

Lemma bfs_increments_remaining k :
  forall it heap,
    k <= List.length (breadth_first_iteration.remaining it) ->
    exists it' heap',
      breadth_first_iteration.increments k it heap = Some (it', heap') /\
      breadth_first_iteration.remaining it' =
        skipn k (breadth_first_iteration.remaining it) /\
      (bfs_cursor_ok it -> bfs_cursor_ok it').
Proof.
  induction k as [|k IH]; intros it heap Hk.
  - exists it, heap. split; [reflexivity|]. split; [reflexivity|auto].
  - cbn [breadth_first_iteration.increments].
    destruct (breadth_first_iteration.operator_inc it heap)
      as [[it1 heap1]|] eqn:E.
    + destruct (breadth_first_iteration.bfs_remaining_operator_inc
                  it heap it1 heap1 E) as [c [_ Hr]].
      rewrite Hr in Hk |- *. cbn [List.length skipn] in *.
      destruct (IH it1 heap1) as [it' [heap' [E' [Hr' Hok]]]]; [lia|].
      exists it', heap'. split; [exact E'|]. split; [exact Hr'|].
      intros _. apply Hok.
      exact (bfs_operator_inc_cursor_ok it heap it1 heap1 E).
    + exfalso. unfold breadth_first_iteration.operator_inc in E.
      unfold breadth_first_iteration.remaining in Hk.
      destruct (breadth_first_iteration.deref it);
        [|cbn in Hk; lia].
      destruct (breadth_first_iteration.push_children _ _ _).
      destruct (breadth_first_iteration.vector_iterator_eqb _ _);
        discriminate.
Qed.

Lemma bfs_increments_exhausted k :
  forall it heap,
    List.length (breadth_first_iteration.remaining it) < k ->
    breadth_first_iteration.increments k it heap = None.
Proof.
  induction k as [|k IH]; intros it heap Hk; [lia|].
  cbn [breadth_first_iteration.increments].
  destruct (breadth_first_iteration.operator_inc it heap)
    as [[it1 heap1]|] eqn:E; [|reflexivity].
  destruct (breadth_first_iteration.bfs_remaining_operator_inc
              it heap it1 heap1 E) as [c [_ Hr]].
  rewrite Hr in Hk. cbn [List.length] in Hk. apply IH. lia.
Qed.

Lemma bfs_remaining_begin (root : tree T) (heap : nat) :
  breadth_first_iteration.remaining
    (fst (breadth_first_iteration.begin root heap))
  = breadth_first_iteration.level_order [root].
Proof.
  rewrite <- (breadth_first_iteration.bfs_visited_remaining _
                (snd (breadth_first_iteration.begin root heap))).
  apply breadth_first_iteration.bfs_visited_begin.
Qed.

(** X3: [k] increments of the breadth-first [begin()] are defined exactly
    for [k] up to the number of nodes of the level order.  Below that
    number the iterator is not exhausted and [operator*] gives the node of
    rank [k]; at that number the iterator is exhausted and compares equal
    to the default-constructed one; beyond it an exhausted iterator would
    be incremented. *)
Theorem breadth_first_protocol (root : tree T) (heap k : nat) :
  let first := breadth_first_iteration.begin root heap in
  let order := breadth_first_iteration.level_order [root] in
  (k < List.length order ->
   exists it heap',
     breadth_first_iteration.increments k (fst first) (snd first)
     = Some (it, heap') /\
     breadth_first_iteration.empty it = false /\
     breadth_first_iteration.deref it = nth_error order k) /\
  (exists it heap',
     breadth_first_iteration.increments (List.length order)
       (fst first) (snd first) = Some (it, heap') /\
     breadth_first_iteration.empty it = true /\
     breadth_first_iteration.operator_eq it breadth_first_iteration.end_
     = true) /\
  (List.length order < k ->
   breadth_first_iteration.increments k (fst first) (snd first) = None).
Proof.
  cbn zeta.
  assert (Hb : bfs_cursor_ok (fst (breadth_first_iteration.begin root heap)))
    by (unfold bfs_cursor_ok; cbn; split; [reflexivity|lia]).
  split; [|split].
  - intro Hk.
    destruct (bfs_increments_remaining k
                (fst (breadth_first_iteration.begin root heap))
                (snd (breadth_first_iteration.begin root heap)))
      as [it [heap' [E [Hr _]]]]; [rewrite bfs_remaining_begin; lia|].
    rewrite bfs_remaining_begin in Hr.
    exists it, heap'. split; [exact E|].
    assert (Hd : breadth_first_iteration.deref it =
                 nth_error (breadth_first_iteration.level_order [root]) k)
      by (now rewrite bfs_deref_remaining, Hr, nth_error_skipn_hd).
    split; [|exact Hd].
    unfold breadth_first_iteration.deref in Hd.
    destruct (breadth_first_iteration.empty it); [|reflexivity].
    symmetry in Hd. apply nth_error_None in Hd. lia.
  - destruct (bfs_increments_remaining
                (List.length (breadth_first_iteration.level_order [root]))
                (fst (breadth_first_iteration.begin root heap))
                (snd (breadth_first_iteration.begin root heap)))
      as [it [heap' [E [Hr Hok]]]]; [rewrite bfs_remaining_begin; lia|].
    exists it, heap'. split; [exact E|].
    rewrite bfs_remaining_begin, skipn_all in Hr.
    assert (He : breadth_first_iteration.empty it = true).
    { apply bfs_exhausted_empty; [exact (Hok Hb)|].
      rewrite bfs_deref_remaining, Hr. reflexivity. }
    split; [exact He|].
    unfold breadth_first_iteration.operator_eq. now rewrite He.
  - intro Hk. apply bfs_increments_exhausted.
    rewrite bfs_remaining_begin. exact Hk.
Qed.
End BreadthFirstProtocol.

Lemma in_order_protocol_witness :
  (exists it,
      in_order_iteration.increments 1
        (in_order_iteration.begin in_order_iteration.example_tree)
      = Some it /\
      in_order_iteration.empty it = false /\
      in_order_iteration.deref it
      = nth_error
          (in_order_iteration.inorder in_order_iteration.example_tree) 1) /\
  in_order_iteration.increments 4
    (in_order_iteration.begin in_order_iteration.example_tree)
  = None.
Proof.
  split.
  - apply (proj1 (in_order_protocol in_order_iteration.example_tree 1)).
    vm_compute. lia.
  - apply (proj2 (proj2 (in_order_protocol
                           in_order_iteration.example_tree 4))).
    vm_compute. lia.
Defined.

Lemma breadth_first_protocol_witness :
  (exists it heap',
      breadth_first_iteration.increments 4
        (fst (breadth_first_iteration.begin
                breadth_first_iteration.example_tree 0))
        (snd (breadth_first_iteration.begin
                breadth_first_iteration.example_tree 0))
      = Some (it, heap') /\
      breadth_first_iteration.empty it = false /\
      breadth_first_iteration.deref it
      = nth_error
          (breadth_first_iteration.level_order
             [breadth_first_iteration.example_tree]) 4) /\
  breadth_first_iteration.increments 11
    (fst (breadth_first_iteration.begin
            breadth_first_iteration.example_tree 0))
    (snd (breadth_first_iteration.begin
            breadth_first_iteration.example_tree 0))
  = None.
Proof.
  split.
  - apply (proj1 (breadth_first_protocol
                    breadth_first_iteration.example_tree 0 4)).
    vm_compute. lia.
  - apply (proj2 (proj2 (breadth_first_protocol
                           breadth_first_iteration.example_tree 0 11))).
    vm_compute. lia.
Defined.

(** ** Copies of a breadth-first iterator *)

Section BreadthFirstCopy.
Context {T : Type}.
Implicit Types (it : breadth_first_iteration.iterator (tree T))
  (v : breadth_first_iteration.vector (tree T)).

(** The copy constructor of a vector: the elements go to a new buffer,
    unless there is none to copy. *)
Definition bfs_vector_copy v (heap : nat)
  : breadth_first_iteration.vector (tree T) * nat :=
  match breadth_first_iteration.elems v with
  | [] => (breadth_first_iteration.vec_default, heap)
  | _ :: _ =>
      ({| breadth_first_iteration.storage := Some heap;
          breadth_first_iteration.elems := breadth_first_iteration.elems v |},
       S heap)
  end.

(** The copy constructor of the iterator, which the class leaves to the
    compiler: member by member, [_M_current] as it is. *)
Definition bfs_copy it (heap : nat)
  : breadth_first_iteration.iterator (tree T) * nat :=
  let (this_level, heap1) :=
    bfs_vector_copy (breadth_first_iteration._M_this_level it) heap in
  let (next_level, heap2) :=
    bfs_vector_copy (breadth_first_iteration._M_next_level it) heap1 in
  ({| breadth_first_iteration._M_current :=
        breadth_first_iteration._M_current it;
      breadth_first_iteration._M_this_level := this_level;
      breadth_first_iteration._M_next_level := next_level |}, heap2).

(** [operator++(int)]: the copy [temp] that it returns, and the iterator
    after [++*this]. *)
Definition bfs_operator_inc_post it (heap : nat)
  : option (breadth_first_iteration.iterator (tree T)
            * breadth_first_iteration.iterator (tree T) * nat) :=
  let (temp, heap1) := bfs_copy it heap in
  match breadth_first_iteration.operator_inc it heap1 with
  | Some (it', heap2) => Some (temp, it', heap2)
  | None => None
  end.

(** The buffers that the two vectors of an iterator own. *)
Definition bfs_buffer v : list nat :=
  match breadth_first_iteration.storage v with
  | Some s => [s]
  | None => []
  end.

Definition bfs_buffers it : list nat :=
  bfs_buffer (breadth_first_iteration._M_this_level it)
  ++ bfs_buffer (breadth_first_iteration._M_next_level it).

(** The buffers of an iterator were allocated before [heap], its two
    vectors do not share one, and a vector with elements has one. *)
Definition bfs_fresh it (heap : nat) : Prop :=
  (forall s, In s (bfs_buffers it) -> s < heap) /\
  NoDup (bfs_buffers it) /\
  (breadth_first_iteration.storage (breadth_first_iteration._M_this_level it)
   = None ->
   breadth_first_iteration.elems (breadth_first_iteration._M_this_level it)
   = []) /\
  (breadth_first_iteration.storage (breadth_first_iteration._M_next_level it)
   = None ->
   breadth_first_iteration.elems (breadth_first_iteration._M_next_level it)
   = []).

Lemma bfs_push_children_storage (c : children_type T) :
  forall v (heap : nat),
    (breadth_first_iteration.storage v = None ->
     breadth_first_iteration.elems v = []) ->
    let v' := fst (breadth_first_iteration.push_children c v heap) in
    let heap' := snd (breadth_first_iteration.push_children c v heap) in
    heap <= heap' /\
    (breadth_first_iteration.storage v' = None ->
     breadth_first_iteration.elems v' = []) /\
    (forall s, In s (bfs_buffer v') ->
               In s (bfs_buffer v) \/ heap <= s < heap').
Proof.
  induction c as [|[t|] c IH]; intros v heap Hv;
    cbn [breadth_first_iteration.push_children].
  - cbn [fst snd]. split; [lia|]. split; [exact Hv|]. intros s Hs. now left.
  - destruct (breadth_first_iteration.vec_push_back v t heap)
      as [v1 heap1] eqn:E.
    unfold breadth_first_iteration.vec_push_back in E.
    assert (H1 : heap <= heap1 /\
                 breadth_first_iteration.storage v1 <> None /\
                 (forall s, In s (bfs_buffer v1) ->
                            In s (bfs_buffer v) \/ heap <= s < heap1)).
    { unfold bfs_buffer.
      destruct (breadth_first_iteration.storage v) as [s0|] eqn:Es;
        injection E as <- <-;
        cbn [breadth_first_iteration.storage]; rewrite ?Es.
      - split; [lia|]. split; [discriminate|]. intros s Hs. now left.
      - split; [lia|]. split; [discriminate|].
        intros s [<-|[]]. right. lia. }
    destruct H1 as [Hh [Hs1 Hb1]].
    destruct (IH v1 heap1) as [I1 [I2 I3]]; [intro; contradiction|].
    cbv zeta in I1, I2, I3 |- *.
    split; [lia|]. split; [exact I2|].
    intros s Hs. destruct (I3 s Hs) as [H|H]; [|right; lia].
    destruct (Hb1 s H) as [H'|H']; [now left|right; lia].
  - apply IH. exact Hv.
Qed.

Lemma bfs_operator_inc_fresh it (heap : nat) it' (heap' : nat) :
  bfs_fresh it heap ->
  breadth_first_iteration.operator_inc it heap = Some (it', heap') ->
  bfs_fresh it' heap' /\ heap <= heap' /\
  (S (snd (breadth_first_iteration._M_current it))
   = List.length
       (breadth_first_iteration.elems
          (breadth_first_iteration._M_this_level it)) ->
   forall s,
     breadth_first_iteration.storage
       (breadth_first_iteration._M_this_level it) = Some s ->
     ~ In s (bfs_buffers it')).
Proof.
  intros [F1 [F2 [F3 F4]]]. unfold breadth_first_iteration.operator_inc.
  destruct (breadth_first_iteration.deref it) as [node|] eqn:D;
    [|discriminate].
  destruct (breadth_first_iteration.deref_Some it node D) as [Hs Hn].
  pose proof (bfs_push_children_storage (_M_children node)
                (breadth_first_iteration._M_next_level it) heap F4) as Hp.
  destruct (breadth_first_iteration.push_children (_M_children node)
              (breadth_first_iteration._M_next_level it) heap)
    as [next h].
  cbv zeta in Hp. cbn [fst snd] in Hp. destruct Hp as [P1 [P2 P3]].
  assert (Hnext : forall s, In s (bfs_buffer next) ->
                            s < h /\
                            ~ In s (bfs_buffer
                                      (breadth_first_iteration._M_this_level
                                         it))).
  { intros s Hin. destruct (P3 s Hin) as [H|H].
    - split; [apply Nat.lt_le_trans with heap;
              [apply F1; unfold bfs_buffers; apply in_or_app; now right
              |exact P1]|].
      intro Hin'. revert F2 H Hin'. unfold bfs_buffers, bfs_buffer.
      destruct (breadth_first_iteration.storage
                  (breadth_first_iteration._M_this_level it)) as [a|];
        destruct (breadth_first_iteration.storage
                    (breadth_first_iteration._M_next_level it)) as [b|];
        cbn; intros F2 H Hin'; try tauto.
      destruct H as [<-|[]]. destruct Hin' as [<-|[]].
      inversion F2 as [|x l Hx _]. apply Hx. now left.
    - split; [lia|]. intro Hin'.
      assert (s < heap)
        by (apply F1; unfold bfs_buffers; apply in_or_app; now left).
      lia. }
  destruct (breadth_first_iteration.vector_iterator_eqb _ _) eqn:Ev;
    intro H; injection H as <- <-.
  - split; [|split; [exact P1|]].
    + unfold bfs_fresh, bfs_buffers.
      cbn [breadth_first_iteration._M_this_level
           breadth_first_iteration._M_next_level
           breadth_first_iteration.vec_default].
      unfold bfs_buffer at 2 4. cbn [breadth_first_iteration.storage
                                     breadth_first_iteration.elems].
      rewrite !app_nil_r.
      split; [intros s Hin; apply (Hnext s Hin)|].
      split; [|split; [exact P2|reflexivity]].
      unfold bfs_buffer. destruct (breadth_first_iteration.storage next);
        repeat constructor. intros [].
    + intros _ s Es. unfold bfs_buffers.
      cbn [breadth_first_iteration._M_this_level
           breadth_first_iteration._M_next_level].
      intro Hin. apply in_app_or in Hin. destruct Hin as [Hin|Hin].
      * apply (proj2 (Hnext s Hin)). unfold bfs_buffer. rewrite Es.
        now left.
      * exact Hin.
  - split; [|split; [exact P1|]].
    + unfold bfs_fresh, bfs_buffers.
      cbn [breadth_first_iteration._M_this_level
           breadth_first_iteration._M_next_level].
      split; [|split; [|split; [exact F3|exact P2]]].
      * intros s Hin. apply in_app_or in Hin. destruct Hin as [Hin|Hin].
        -- apply Nat.lt_le_trans with heap; [|exact P1].
           apply F1. unfold bfs_buffers. apply in_or_app. now left.
        -- apply (Hnext s Hin).
      * assert (Hthis : NoDup (bfs_buffer
                                 (breadth_first_iteration._M_this_level it)))
          by (unfold bfs_buffer;
              destruct (breadth_first_iteration.storage _);
              repeat constructor; intros []).
        assert (Hnx : NoDup (bfs_buffer next))
          by (unfold bfs_buffer;
              destruct (breadth_first_iteration.storage next);
              repeat constructor; intros []).
        revert Hnext Hthis Hnx. generalize (bfs_buffer next).
        generalize (bfs_buffer (breadth_first_iteration._M_this_level it)).
        intros l1 l2 Hnext Hthis Hnx.
        induction l1 as [|a l1 IHl]; [exact Hnx|].
        cbn [app]. constructor.
        -- intro Hin. apply in_app_or in Hin. destruct Hin as [Hin|Hin].
           ++ inversion Hthis; contradiction.
           ++ apply (proj2 (Hnext a Hin)). now left.
        -- apply IHl; [|now inversion Hthis].
           intros s Hin. split; [apply (Hnext s Hin)|].
           intro Hin'. apply (proj2 (Hnext s Hin)). now right.
    + intro Hend. exfalso.
      apply Bool.not_true_iff_false in Ev. apply Ev.
      apply breadth_first_iteration.vector_iterator_eqb_eq.
      unfold breadth_first_iteration.vec_end. now rewrite Hs, Hend.
Qed.

Lemma bfs_fresh_le it (heap heap' : nat) :
  bfs_fresh it heap -> heap <= heap' -> bfs_fresh it heap'.
Proof.
  intros [F1 F2] Hle. split; [|exact F2].
  intros s Hin. apply Nat.lt_le_trans with heap; [now apply F1|exact Hle].
Qed.

Lemma bfs_increments_fresh (k : nat) :
  forall it (heap : nat) it' (heap' : nat),
    bfs_fresh it heap ->
    breadth_first_iteration.increments k it heap = Some (it', heap') ->
    bfs_fresh it' heap'.
Proof.
  induction k as [|k IH]; intros it heap it' heap' Hf E;
    cbn [breadth_first_iteration.increments] in E.
  - injection E as <- <-. exact Hf.
  - destruct (breadth_first_iteration.operator_inc it heap)
      as [[it1 heap1]|] eqn:E1; [|discriminate].
    apply (IH it1 heap1 it' heap'); [|exact E].
    exact (proj1 (bfs_operator_inc_fresh it heap it1 heap1 Hf E1)).
Qed.

Lemma bfs_begin_fresh (root : tree T) (heap : nat) :
  bfs_fresh (fst (breadth_first_iteration.begin root heap))
    (snd (breadth_first_iteration.begin root heap)).
Proof.
  unfold bfs_fresh, bfs_buffers, bfs_buffer. cbn.
  split; [intros s [<-|[]]; lia|].
  split; [repeat constructor; intros []|].
  split; [discriminate|reflexivity].
Qed.

Lemma bfs_vector_copy_buffer v (heap : nat) :
  heap <= snd (bfs_vector_copy v heap) /\
  forall s, In s (bfs_buffer (fst (bfs_vector_copy v heap))) ->
            heap <= s.
Proof.
  unfold bfs_vector_copy, bfs_buffer.
  destruct (breadth_first_iteration.elems v); cbn.
  - split; [lia|intros s []].
  - split; [lia|intros s [<-|[]]; lia].
Qed.

Lemma bfs_copy_buffers it (heap : nat) :
  breadth_first_iteration._M_current (fst (bfs_copy it heap))
  = breadth_first_iteration._M_current it /\
  heap <= snd (bfs_copy it heap) /\
  forall s, In s (bfs_buffers (fst (bfs_copy it heap))) -> heap <= s.
Proof.
  unfold bfs_copy, bfs_buffers.
  pose proof (bfs_vector_copy_buffer
                (breadth_first_iteration._M_this_level it) heap) as [A1 A2].
  destruct (bfs_vector_copy (breadth_first_iteration._M_this_level it) heap)
    as [this_level heap1].
  pose proof (bfs_vector_copy_buffer
                (breadth_first_iteration._M_next_level it) heap1) as [B1 B2].
  destruct (bfs_vector_copy (breadth_first_iteration._M_next_level it) heap1)
    as [next_level heap2].
  cbn [fst snd breadth_first_iteration._M_current
       breadth_first_iteration._M_this_level
       breadth_first_iteration._M_next_level] in *.
  split; [reflexivity|]. split; [lia|].
  intros s Hin. apply in_app_or in Hin. destruct Hin as [Hin|Hin].
  - now apply A2.
  - specialize (B2 s Hin). lia.
Qed.

(** X17: [operator++(int)] returns a copy whose cursor still points into
    the buffer of the original's [_M_this_level], not into the copy's own
    vectors.  When the original stands at the last node of a level, as
    [begin()] does, [++*this] gives that buffer up: the cursor of the
    returned iterator then points into a buffer that neither iterator
    owns, and this is the iterator that [*it++] dereferences. *)
Theorem breadth_first_post_increment_dangles
  (root : tree T) (heap k : nat) it (h : nat) :
  breadth_first_iteration.increments k
    (fst (breadth_first_iteration.begin root heap))
    (snd (breadth_first_iteration.begin root heap)) = Some (it, h) ->
  breadth_first_iteration.empty it = false ->
  exists temp it' h' s,
    bfs_operator_inc_post it h = Some (temp, it', h') /\
    breadth_first_iteration._M_current temp
    = breadth_first_iteration._M_current it /\
    breadth_first_iteration.storage
      (breadth_first_iteration._M_this_level it) = Some s /\
    fst (breadth_first_iteration._M_current temp) = Some s /\
    ~ In s (bfs_buffers temp) /\
    (S (snd (breadth_first_iteration._M_current it))
     = List.length
         (breadth_first_iteration.elems
            (breadth_first_iteration._M_this_level it)) ->
     ~ In s (bfs_buffers it')).
Proof.
  intros E Hne.
  pose proof (bfs_increments_fresh k _ _ _ _ (bfs_begin_fresh root heap) E)
    as Hf.
  destruct (bfs_increments_remaining k
              (fst (breadth_first_iteration.begin root heap))
              (snd (breadth_first_iteration.begin root heap)))
    as [it0 [h0 [E0 [_ Hok]]]].
  { rewrite bfs_remaining_begin.
    destruct (Nat.le_gt_cases k
                (List.length (breadth_first_iteration.level_order [root])))
      as [Hle|Hgt]; [exact Hle|].
    rewrite bfs_increments_exhausted in E; [discriminate|].
    now rewrite bfs_remaining_begin. }
  rewrite E in E0. injection E0 as <- <-.
  assert (Hcur : bfs_cursor_ok it).
  { apply Hok. unfold bfs_cursor_ok. cbn. split; [reflexivity|lia]. }
  destruct (breadth_first_iteration.deref it) as [node|] eqn:D;
    [|rewrite (bfs_exhausted_empty it Hcur D) in Hne; discriminate].
  destruct (breadth_first_iteration.deref_Some it node D) as [Hs Hn].
  destruct Hf as [F1 [F2 [F3 F4]]].
  destruct (breadth_first_iteration.storage
              (breadth_first_iteration._M_this_level it)) as [s|] eqn:Es.
  2:{ rewrite (F3 eq_refl) in Hn. destruct (snd _) in Hn; discriminate. }
  assert (Hsh : s < h).
  { apply F1. unfold bfs_buffers, bfs_buffer. rewrite Es. now left. }
  unfold bfs_operator_inc_post.
  destruct (bfs_copy_buffers it h) as [C1 [C2 C3]].
  destruct (bfs_copy it h) as [temp h1]. cbn [fst snd] in C1, C2, C3.
  assert (Hf1 : bfs_fresh it h1).
  { apply (bfs_fresh_le it h h1); [|exact C2].
    unfold bfs_fresh. rewrite Es. repeat split; assumption. }
  destruct (breadth_first_iteration.operator_inc it h1)
    as [[it' h']|] eqn:Ei.
  - destruct (bfs_operator_inc_fresh it h1 it' h' Hf1 Ei) as [_ [_ Hend]].
    exists temp, it', h', s. split; [reflexivity|]. split; [exact C1|].
    split; [reflexivity|]. split; [now rewrite C1, Hs|].
    split; [intro Hin; specialize (C3 s Hin); lia|].
    intro Hlast. apply (Hend Hlast s). exact Es.
  - unfold breadth_first_iteration.operator_inc in Ei. rewrite D in Ei.
    destruct (breadth_first_iteration.push_children _ _ _).
    destruct (breadth_first_iteration.vector_iterator_eqb _ _);
      discriminate.
Qed.
End BreadthFirstCopy.

Lemma breadth_first_post_increment_dangles_witness :
  exists temp it' h' s,
    bfs_operator_inc_post
      (fst (breadth_first_iteration.begin
              breadth_first_iteration.example_tree 0))
      (snd (breadth_first_iteration.begin
              breadth_first_iteration.example_tree 0))
    = Some (temp, it', h') /\
    breadth_first_iteration._M_current temp
    = breadth_first_iteration._M_current
        (fst (breadth_first_iteration.begin
                breadth_first_iteration.example_tree 0)) /\
    breadth_first_iteration.storage
      (breadth_first_iteration._M_this_level
         (fst (breadth_first_iteration.begin
                 breadth_first_iteration.example_tree 0))) = Some s /\
    fst (breadth_first_iteration._M_current temp) = Some s /\
    ~ In s (bfs_buffers temp) /\
    ~ In s (bfs_buffers it').
Proof.
  destruct (breadth_first_post_increment_dangles
              breadth_first_iteration.example_tree 0 0
              (fst (breadth_first_iteration.begin
                      breadth_first_iteration.example_tree 0))
              (snd (breadth_first_iteration.begin
                      breadth_first_iteration.example_tree 0)))
    as [temp [it' [h' [s [E [C [Es [Hc [H1 H2]]]]]]]]].
  - reflexivity.
  - reflexivity.
  - exists temp, it', h', s.
    split; [exact E|]. split; [exact C|]. split; [exact Es|].
    split; [exact Hc|]. split; [exact H1|]. apply H2. reflexivity.
Defined.

(** ** The three traversals visit the same nodes *)

Section SameNodes.
Context {T : Type}.

Lemma inorder_children_permutation (c : children_type T) :
  Forall (fun h => forall t, h = Some t ->
            Permutation (in_order_iteration.inorder t) (nodes t)) c ->
  Permutation (flat_map in_order_iteration.inorder_ptr c) (nodes_children c).
Proof.
  induction 1 as [|[t|] c Ht _ IH];
    cbn [flat_map in_order_iteration.inorder_ptr nodes_children].
  - constructor.
  - apply Permutation_app; [exact (Ht t eq_refl)|exact IH].
  - exact IH.
Qed.

Lemma inorder_permutation (t : tree T) :
  Permutation (in_order_iteration.inorder t) (nodes t).
Proof.
  induction t as [v c IH] using tree_ind.
  rewrite in_order_iteration.inorder_Node, nodes_Node.
  destruct c as [|[l|] c].
  - reflexivity.
  - inversion IH as [|? ? Hl Hc]; subst. cbn [nodes_children].
    apply Permutation_sym, Permutation_cons_app, Permutation_sym.
    apply Permutation_app; [exact (Hl l eq_refl)|].
    now apply inorder_children_permutation.
  - inversion IH as [|? ? _ Hc]; subst. cbn [nodes_children].
    constructor. now apply inorder_children_permutation.
Qed.

Lemma nodes_children_present (c : children_type T) :
  nodes_children c = flat_map nodes (breadth_first_iteration.present c).
Proof.
  induction c as [|[t|] c IH];
    cbn [nodes_children breadth_first_iteration.present flat_map app].
  - reflexivity.
  - fold (breadth_first_iteration.present c). now rewrite IH.
  - exact IH.
Qed.

Lemma nodes_level_permutation (level : list (tree T)) :
  Permutation (flat_map nodes level)
    (level ++ flat_map nodes (breadth_first_iteration.generation level)).
Proof.
  induction level as [|[v c] level IH]; [constructor|].
  cbn [flat_map breadth_first_iteration.generation _M_children].
  fold (breadth_first_iteration.generation level).
  rewrite nodes_Node, flat_map_app, <- nodes_children_present.
  cbn [app]. constructor.
  apply Permutation_trans
    with (nodes_children c
            ++ level
            ++ flat_map nodes (breadth_first_iteration.generation level)).
  - apply Permutation_app_head. exact IH.
  - rewrite !app_assoc. apply Permutation_app_tail, Permutation_app_comm.
Qed.

Lemma level_order_permutation (level : list (tree T)) :
  Permutation (breadth_first_iteration.level_order level)
              (flat_map nodes level).
Proof.
  funelim (breadth_first_iteration.level_order level); [constructor|].
  apply Permutation_sym.
  apply Permutation_trans with (1 := nodes_level_permutation (t :: l)).
  apply Permutation_app_head, Permutation_sym.
  match goal with IH : Permutation _ _ |- _ => exact IH end.
Qed.

(** X4: the in-order and the breadth-first traversal of a tree visit the
    nodes that the depth-first traversal visits, every node as often (once
    for each place it has in the tree); in particular the three loops make
    the same number of visits. *)
Theorem traversals_visit_the_same_nodes (root : tree T) (heap : nat) :
  let dfs :=
    depth_first_iteration.visited (depth_first_iteration.begin root) in
  let ino :=
    in_order_iteration.visited (in_order_iteration.begin root) in
  let bfs :=
    breadth_first_iteration.visited
      (fst (breadth_first_iteration.begin root heap))
      (snd (breadth_first_iteration.begin root heap)) in
  Permutation ino dfs /\ Permutation bfs dfs /\
  List.length ino = List.length dfs /\ List.length bfs = List.length dfs.
Proof.
  cbn zeta.
  rewrite depth_first_iteration.dfs_visited_begin,
    in_order_iteration.ino_visited_begin,
    breadth_first_iteration.bfs_visited_begin.
  assert (H1 := inorder_permutation root).
  assert (H2 := level_order_permutation [root]).
  cbn [flat_map] in H2. rewrite app_nil_r in H2.
  repeat split; auto using Permutation_length.
Qed.
End SameNodes.

(** ** [tree::destroy] on trees of any arity *)

Section DestroyAnyArity.
Context {T : Type}.
Implicit Types (c t : tree T) (h p : tree_ptr T) (cc : children_type T)
  (s : @destroy_state T).

(** The state after at most [n] iterations of the loop of [destroy];
    [None] when the assertion fails or a vector is indexed out of range. *)
Fixpoint destroy_iterations (n : nat) (s : destroy_state)
  : option (@destroy_state T) :=
  match n with
  | O => Some s
  | S n' =>
      match current s with
      | None => Some s
      | Some c =>
          match destroy_body c (parent s) (released s) with
          | Some s' => destroy_iterations n' s'
          | None => None
          end
      end
  end.

(** The values of the nodes that are alive or released in a state. *)
Definition destroy_values (s : destroy_state) : list T :=
  values_ptr (current s) ++ values_ptr (parent s)
    ++ map _M_value (released s).

Lemma values_children_repeat_null (k : nat) :
  @values_children T (repeat None k) = [].
Proof. induction k as [|k IH]; [reflexivity|exact IH]. Qed.

Lemma destroy_parent_any cc p released0 :
  cc <> [] ->
  match p with
  | Some q => exists rest, _M_children q = None :: rest
  | None => True
  end ->
  exists cc' d,
    destroy_parent cc p released0 = Some (cc', released0 ++ d) /\
    cc' <> [] /\
    Permutation (values_children cc' ++ map _M_value d)
                (values_children cc ++ values_ptr p).
Proof.
  intros Hne Hok. destruct p as [[pv pc]|].
  2:{ exists cc, []. cbn [destroy_parent]. rewrite !app_nil_r.
      repeat split; auto. }
  destruct Hok as [rest Hok]. cbn [_M_children] in Hok. subst pc.
  assert (Hdrop :
    exists cc' d,
      Some (cc, released0 ++ drop (Some (Node pv (None :: rest)))) =
        Some (cc', released0 ++ d) /\
      cc' <> [] /\
      Permutation (values_children cc' ++ map _M_value d)
        (values_children cc ++ values_ptr (Some (Node pv (None :: rest))))).
  { exists cc, (drop (Some (Node pv (None :: rest)))).
    repeat split; auto. }
  destruct rest as [|[p1|] rest]; cbn [destroy_parent]; try exact Hdrop.
  clear Hdrop.
  destruct cc as [|a [|b [|x cc]]]; [congruence| | |];
    cbn [Nat.ltb Nat.leb List.length avoid_sole firstn skipn tl app
         repeat Nat.sub];
    (eexists; exists []; split; [rewrite app_nil_r; reflexivity|];
     split; [discriminate|]); rewrite app_nil_r.
  all: rewrite ?values_children_cons, ?values_ptr_Some.
  all: rewrite ?values_children_cons, ?values_children_app,
         ?values_children_repeat_null, ?app_nil_r.
  all: change (@values_ptr T None) with (@nil T); cbn [app].
  - reflexivity.
  - rewrite <- app_assoc. apply Permutation_app_head, Permutation_middle.
  - rewrite <- (values_children_cons x cc).
    set (moved := values_children (x :: cc)).
    rewrite <- !app_assoc. apply Permutation_app_head.
    apply Permutation_trans
      with (values_ptr b
              ++ pv :: (values_ptr (Some p1) ++ values_children rest)
              ++ moved).
    + rewrite <- app_assoc. apply Permutation_middle.
    + apply Permutation_app_head.
      apply (Permutation_app_comm
               (pv :: values_ptr (Some p1) ++ values_children rest) moved).
Qed.

Lemma destroy_child_any cv cc released0 :
  cc <> [] ->
  exists s' d,
    destroy_child cv cc released0 = Some s' /\
    released s' = released0 ++ d /\
    parent_ok s' /\
    Permutation
      (values_ptr (current s') ++ values_ptr (parent s') ++ map _M_value d)
      (cv :: values_children cc).
Proof.
  intro Hne. destruct cc as [|[c0|] cc]; [congruence| |].
  - eexists. exists []. cbn [destroy_child]. split; [reflexivity|].
    cbn [released current parent]. rewrite app_nil_r.
    split; [reflexivity|]. split.
    + unfold parent_ok. cbn [current parent].
      split; [now exists cc|discriminate].
    + cbn [map]. rewrite app_nil_r, values_ptr_Some, !values_children_cons.
      change (@values_ptr T None) with (@nil T). cbn [app].
      apply Permutation_sym, Permutation_middle.
  - assert (Hgen :
      exists s' d,
        Some {| current :=
                  Some (Node cv (remove_null_but_avoid_sole (None :: cc)));
                parent := None; released := released0 |} = Some s' /\
        released s' = released0 ++ d /\ parent_ok s' /\
        Permutation
          (values_ptr (current s') ++ values_ptr (parent s')
             ++ map _M_value d)
          (cv :: values_children (None :: cc))).
    { eexists. exists []. split; [reflexivity|].
      cbn [released current parent]. rewrite app_nil_r.
      split; [reflexivity|]. split; [exact I|].
      rewrite values_ptr_Some. unfold remove_null_but_avoid_sole.
      rewrite values_children_avoid_sole, values_children_filter.
      change (@values_ptr T None) with (@nil T). cbn [map app].
      now rewrite app_nil_r. }
    destruct cc as [|c1 [|x cc]]; cbn [destroy_child]; try exact Hgen.
    eexists. exists [Node cv [None; None]]. split; [reflexivity|].
    cbn [released current parent]. split; [reflexivity|].
    split; [exact I|].
    rewrite !values_children_cons.
    change (@values_ptr T None) with (@nil T).
    change (@values_children T []) with (@nil T).
    cbn [map app _M_value]. rewrite app_nil_r.
    apply Permutation_sym, Permutation_cons_append.
Qed.

Lemma destroy_body_any c p released0 :
  match p with
  | Some q => exists rest, _M_children q = None :: rest
  | None => True
  end ->
  exists s' d,
    destroy_body c p released0 = Some s' /\
    released s' = released0 ++ d /\
    parent_ok s' /\
    Permutation
      (values_ptr (current s') ++ values_ptr (parent s') ++ map _M_value d)
      (values_ptr (Some c) ++ values_ptr p).
Proof.
  intro Hok. destruct c as [cv cc]. unfold destroy_body.
  cbn [_M_children _M_value]. destruct cc as [|a cc'] eqn:Ecc.
  - cbn [vec_empty]. eexists. exists [Node cv []].
    split; [reflexivity|]. cbn [released current parent].
    split; [reflexivity|]. split; [exact I|].
    rewrite values_ptr_Some.
    change (@values_ptr T None) with (@nil T).
    change (@values_children T []) with (@nil T). cbn [map app _M_value].
    apply Permutation_sym, Permutation_cons_append.
  - cbn [vec_empty]. rewrite <- Ecc in *.
    assert (Hne : cc <> []) by (subst cc; discriminate).
    destruct (destroy_parent_any cc p released0 Hne Hok)
      as [cc1 [d1 [E1 [Hne1 Hv1]]]].
    rewrite E1.
    destruct (destroy_child_any cv cc1 (released0 ++ d1) Hne1)
      as [s' [d2 [E2 [Hr [Hp Hv2]]]]].
    exists s', (d1 ++ d2). split; [exact E2|].
    split; [now rewrite Hr, app_assoc|]. split; [exact Hp|].
    rewrite map_app, values_ptr_Some.
    apply Permutation_trans
      with ((values_ptr (current s') ++ values_ptr (parent s')
               ++ map _M_value d2) ++ map _M_value d1).
    { rewrite <- !app_assoc. do 2 apply Permutation_app_head.
      apply Permutation_app_comm. }
    apply Permutation_trans
      with ((cv :: values_children cc1) ++ map _M_value d1).
    { apply Permutation_app_tail. exact Hv2. }
    cbn [app]. constructor. exact Hv1.
Qed.

Lemma destroy_iterations_any n :
  forall s,
    parent_ok s ->
    exists s',
      destroy_iterations n s = Some s' /\
      parent_ok s' /\
      Permutation (destroy_values s') (destroy_values s).
Proof.
  induction n as [|n IH]; intros s Hok.
  - exists s. repeat split; auto.
  - cbn [destroy_iterations]. destruct (current s) as [c|] eqn:Ec.
    + assert (Hok' : match parent s with
                     | Some q => exists rest, _M_children q = None :: rest
                     | None => True
                     end).
      { unfold parent_ok in Hok. destruct (parent s); [apply Hok|exact I]. }
      destruct (destroy_body_any c (parent s) (released s) Hok')
        as [s1 [d [E1 [Hr [Hok1 Hv]]]]].
      rewrite E1. destruct (IH s1 Hok1) as [s2 [E2 [Hok2 Hv2]]].
      exists s2. split; [exact E2|]. split; [exact Hok2|].
      apply Permutation_trans with (1 := Hv2).
      unfold destroy_values. rewrite Hr, Ec, map_app, !app_assoc.
      apply Permutation_trans
        with ((values_ptr (current s1) ++ values_ptr (parent s1)
                 ++ map _M_value d) ++ map _M_value (released s)).
      * rewrite <- !app_assoc. do 2 apply Permutation_app_head.
        apply Permutation_app_comm.
      * rewrite <- !app_assoc. rewrite !app_assoc.
        apply Permutation_trans
          with ((values_ptr (Some c) ++ values_ptr (parent s))
                  ++ map _M_value (released s)).
        -- apply Permutation_app_tail. rewrite <- !app_assoc. exact Hv.
        -- reflexivity.
    + exists s. repeat split; auto.
Qed.

(** X5: on a tree of any arity the loop of [destroy] never fails its
    assertion and never indexes a children vector out of range.  After any
    number of iterations every node of the tree is either still owned by
    [current] or [parent], or has been released, and none is counted twice:
    no node is leaked and none is released more than once. *)
Theorem destroy_safe_on_any_tree (t : tree T) (n : nat) :
  (exists s,
      destroy_iterations n
        {| current := Some t; parent := None; released := [] |} = Some s /\
      Permutation (destroy_values s) (map _M_value (nodes t))) /\
  snd (destroy n (Some t)) <> Asserted.
Proof.
  split.
  - destruct (destroy_iterations_any n
                {| current := Some t; parent := None; released := [] |} I)
      as [s [E [_ Hv]]].
    exists s. split; [exact E|].
    apply Permutation_trans with (1 := Hv).
    unfold destroy_values. cbn [current parent released map].
    change (@values_ptr T None) with (@nil T). now rewrite !app_nil_r.
  - unfold destroy. cbn [snd].
    assert (H : forall s, parent_ok s -> destroy_loop n s <> Asserted).
    { induction n as [|n IH]; intros s Hok; cbn [destroy_loop];
        destruct (current s) as [c|] eqn:Ec; try discriminate.
      assert (Hok' : match parent s with
                     | Some q => exists rest, _M_children q = None :: rest
                     | None => True
                     end).
      { unfold parent_ok in Hok. destruct (parent s); [apply Hok|exact I]. }
      destruct (destroy_body_any c (parent s) (released s) Hok')
        as [s1 [d [E1 [_ [Hok1 _]]]]].
      rewrite E1. apply IH. exact Hok1. }
    apply H. exact I.
Qed.
End DestroyAnyArity.

(** * nvwa/mmap_line_reader.h: lines of a memory-mapped file

    [data()] and [size()] come from the base class [mmap_reader_base]: the
    bytes of the mapping and their number.  A [char] is an [ascii]; a line
    ([std::string] or [std::string_view] built from a pointer and a length)
    is the list of its bytes. *)

Module mmap_line_reader.

Record reader : Type := {
  data : list ascii;
  _M_delimiter : ascii;
  _M_strip_delimiter : bool
}.

Definition size (r : reader) : nat := List.length (data r).

Inductive strip_type : Type := strip_delimiter | no_strip_delimiter.

(** [set_delimiter(delimiter, strip)]. *)
Definition set_delimiter (r : reader) (delimiter : ascii)
  (strip : strip_type) : reader :=
  {| data := data r;
     _M_delimiter := delimiter;
     _M_strip_delimiter :=
       match strip with
       | strip_delimiter => true
       | no_strip_delimiter => false
       end |}.

(** The [while] loop of [read] on the bytes from [offset] on: how far [pos]
    advances, and [found_delimiter]. *)
Fixpoint scan (delimiter : ascii) (bytes : list ascii) : nat * bool :=
  match bytes with
  | [] => (0, false)
  | ch :: bytes' =>
      if Ascii.eqb ch delimiter then (1, true)
      else let (n, found) := scan delimiter bytes' in (S n, found)
  end.

(** [read(output, offset)]: [None] for [false], otherwise [output] and the
    new [offset].  The iterator never passes an [offset] beyond [size()];
    there the arithmetic of the source gives an empty line and leaves the
    offset as it is. *)
Definition read (r : reader) (offset : nat) : option (list ascii * nat) :=
  if offset =? size r then None
  else
    let bytes := skipn offset (data r) in
    let (n, found_delimiter) := scan (_M_delimiter r) bytes in
    let stripped :=
      if found_delimiter && _M_strip_delimiter r then 1 else 0 in
    Some (firstn (n - stripped) bytes, offset + n).

(** The lines that successive calls of [read] return, starting at
    [offset], for at most [fuel] calls. *)
Fixpoint read_from (fuel : nat) (r : reader) (offset : nat)
  : list (list ascii) :=
  match fuel with
  | O => []
  | S fuel' =>
      match read r offset with
      | Some (line, offset') => line :: read_from fuel' r offset'
      | None => []
      end
  end.

(** The lines of the file: there are at most [size()] of them. *)
Definition lines (r : reader) : list (list ascii) :=
  read_from (size r) r 0.

Section Iterator.
(** The readers live at addresses of type [P]. *)
Context {P : Type}.
Variable P_eq_dec : forall a b : P, {a = b} + {a <> b}.
Variable reader_at : P -> reader.

Record iterator : Type := {
  _M_reader : option P;
  _M_offset : nat;
  _M_line : list ascii
}.

(** [iterator()]. *)
Definition end_ : iterator :=
  {| _M_reader := None; _M_offset := 0; _M_line := [] |}.

(** The body of [operator++] for an iterator whose [_M_reader] is [p]. *)
Definition advance (p : P) (it : iterator) : iterator :=
  match read (reader_at p) (_M_offset it) with
  | Some (line, offset) =>
      {| _M_reader := Some p; _M_offset := offset; _M_line := line |}
  | None =>
      {| _M_reader := None; _M_offset := 0; _M_line := _M_line it |}
  end.

(** [operator++]: dereferences [_M_reader]. *)
Definition operator_inc (it : iterator) : option iterator :=
  match _M_reader it with
  | None => None
  | Some p => Some (advance p it)
  end.

(** [iterator(reader)], which is [begin()] for [reader == this]. *)
Definition begin (p : P) : iterator :=
  advance p {| _M_reader := Some p; _M_offset := 0; _M_line := [] |}.

(** [operator*]: asserts that [_M_reader] is not null. *)
Definition deref (it : iterator) : option (list ascii) :=
  match _M_reader it with
  | Some _ => Some (_M_line it)
  | None => None
  end.

(** [operator==]. *)
Definition operator_eq (a b : iterator) : bool :=
  match _M_reader a, _M_reader b with
  | None, None => Nat.eqb (_M_offset a) (_M_offset b)
  | Some p, Some q =>
      if P_eq_dec p q then Nat.eqb (_M_offset a) (_M_offset b) else false
  | _, _ => false
  end.

Definition operator_ne (a b : iterator) : bool := negb (operator_eq a b).

(** [n] applications of [operator++]. *)
Fixpoint increments (n : nat) (it : iterator) : option iterator :=
  match n with
  | O => Some it
  | S n' =>
      match operator_inc it with
      | Some it' => increments n' it'
      | None => None
      end
  end.
End Iterator.

(** *** What [read] returns *)

Lemma scan_split (d : ascii) (bytes : list ascii) :
  (exists body rest,
      bytes = body ++ d :: rest /\ ~ In d body /\
      scan d bytes = (S (List.length body), true))
  \/
  (~ In d bytes /\ scan d bytes = (List.length bytes, false)).
Proof.
  induction bytes as [|ch bytes IH]; cbn [scan].
  - right. split; [intros []|reflexivity].
  - destruct (Ascii.eqb_spec ch d) as [->|Hne].
    + left. exists [], bytes. repeat split. intros [].
    + destruct IH as [[body [rest [E [Hn Hs]]]]|[Hn Hs]]; rewrite Hs.
      * left. exists (ch :: body), rest. subst bytes.
        repeat split. cbn [In]. intros [E'|Hin]; [congruence|contradiction].
      * right. split; [|reflexivity].
        cbn [In]. intros [E'|Hin]; [congruence|contradiction].
Qed.

Lemma read_at_end (r : reader) : read r (size r) = None.
Proof. unfold read. now rewrite Nat.eqb_refl. Qed.

Lemma read_cases (r : reader) (offset : nat) :
  offset < size r ->
  let d := _M_delimiter r in
  let bytes := skipn offset (data r) in
  ((exists body rest,
       bytes = body ++ d :: rest /\ ~ In d body /\
       read r offset =
         Some (if _M_strip_delimiter r then body else body ++ [d],
               offset + S (List.length body)))
   \/
   (~ In d bytes /\ bytes <> [] /\ read r offset = Some (bytes, size r)))
  /\ read r (size r) = None.
Proof.
  intros Hlt d bytes. split; [|apply read_at_end].
  assert (Hl : List.length bytes = size r - offset)
    by (unfold bytes, size; apply length_skipn).
  unfold read. destruct (Nat.eqb_spec offset (size r)) as [E|_]; [lia|].
  fold bytes. fold d.
  destruct (scan_split d bytes) as [[body [rest [E [Hn Hs]]]]|[Hn Hs]];
    rewrite Hs; cbn [andb].
  - left. exists body, rest. split; [exact E|]. split; [exact Hn|].
    f_equal. f_equal. rewrite E.
    destruct (_M_strip_delimiter r).
    + replace (S (List.length body) - 1) with (List.length body + 0) by lia.
      now rewrite firstn_app_2, app_nil_r.
    + replace (S (List.length body) - 0)
        with (List.length body + 1) by lia.
      now rewrite firstn_app_2.
  - right. split; [exact Hn|]. split.
    + intro E. rewrite E in Hl. cbn in Hl. lia.
    + rewrite Nat.sub_0_r, firstn_all. f_equal. f_equal. lia.
Qed.

(** The text that is missing at the end of a file for its last line to be
    terminated: the delimiter, unless the file is empty or ends with it. *)
Definition missing (d : ascii) (bytes : list ascii) : list ascii :=
  if Ascii.eqb (last bytes d) d then [] else [d].

(** The lines written back with a delimiter after each of them. *)
Definition join (d : ascii) (ls : list (list ascii)) : list ascii :=
  flat_map (fun l => l ++ [d]) ls.

Lemma skipn_add {A : Type} (l : list A) (n k : nat) :
  skipn (n + k) l = skipn k (skipn n l).
Proof. now rewrite skipn_skipn, Nat.add_comm. Qed.

Lemma skipn_size (r : reader) : skipn (size r) (data r) = [].
Proof. apply skipn_all. Qed.

Lemma missing_app (d : ascii) (l1 l2 : list ascii) :
  l2 <> [] -> missing d (l1 ++ l2) = missing d l2.
Proof.
  intro H. unfold missing. f_equal. f_equal.
  destruct (@exists_last _ l2 H) as [l' [y ->]].
  now rewrite app_assoc, !last_last.
Qed.

Lemma missing_no_delimiter (d : ascii) (l : list ascii) :
  l <> [] -> ~ In d l -> missing d l = [d].
Proof.
  intros H Hn. unfold missing.
  destruct (@exists_last _ l H) as [l' [y ->]]. rewrite last_last.
  destruct (Ascii.eqb_spec y d) as [->|_]; [|reflexivity].
  exfalso. apply Hn, in_or_app. right. now left.
Qed.

Lemma missing_delimiter_last (d : ascii) (l : list ascii) :
  missing d (l ++ [d]) = [].
Proof. unfold missing. now rewrite last_last, Ascii.eqb_refl. Qed.

Lemma read_from_spec (r : reader) (fuel : nat) :
  forall offset,
    offset <= size r -> size r - offset <= fuel ->
    let d := _M_delimiter r in
    let bytes := skipn offset (data r) in
    let ls := read_from fuel r offset in
    Forall (fun l => l <> []) (map (fun l => l ++ [d]) ls) /\
    if _M_strip_delimiter r
    then Forall (fun l => ~ In d l) ls /\
         join d ls = bytes ++ (if Nat.eqb offset (size r) then []
                               else missing d bytes)
    else List.concat ls = bytes /\ Forall (fun l => l <> []) ls.
Proof.
  induction fuel as [|fuel IH]; intros offset Hle Hfuel; cbn zeta.
  - assert (offset = size r) by lia. subst offset.
    cbn [read_from]. rewrite skipn_size, Nat.eqb_refl.
    split; [constructor|].
    destruct (_M_strip_delimiter r); repeat split; constructor.
  - cbn [read_from].
    destruct (Nat.eqb_spec offset (size r)) as [E|Hne].
    { subst offset. rewrite read_at_end, skipn_size.
      split; [constructor|].
      destruct (_M_strip_delimiter r); repeat split; constructor. }
    assert (Hlt : offset < size r) by lia.
    assert (Hl : List.length (skipn offset (data r)) = size r - offset)
      by (unfold size; apply length_skipn).
    destruct (proj1 (read_cases r offset Hlt))
      as [[body [rest [E [Hn Hr]]]]|[Hn [Hb Hr]]]; rewrite Hr.
    + rewrite E in Hl. rewrite length_app in Hl. cbn [List.length] in Hl.
      assert (Hrest : skipn (offset + S (List.length body)) (data r) = rest).
      { rewrite skipn_add, E.
        replace (S (List.length body)) with (List.length body + 1) by lia.
        rewrite skipn_add, skipn_app, skipn_all, Nat.sub_diag.
        reflexivity. }
      specialize (IH (offset + S (List.length body))).
      cbn zeta in IH. rewrite Hrest in IH.
      destruct IH as [IH1 IH2]; [lia|lia|].
      cbn [map]. split.
      { constructor; [|exact IH1].
        destruct (_M_strip_delimiter r), body; discriminate. }
      rewrite E. destruct (_M_strip_delimiter r).
      * destruct IH2 as [IHf IHj]. split; [constructor; assumption|].
        unfold join in *. cbn [flat_map]. rewrite IHj, <- !app_assoc.
        cbn [app]. f_equal. f_equal. f_equal.
        destruct (Nat.eqb_spec (offset + S (List.length body)) (size r))
          as [Ee|Ene].
        -- assert (Hnil : rest = [])
             by (destruct rest; [reflexivity|cbn in Hl; lia]).
           rewrite Hnil. symmetry. apply missing_delimiter_last.
        -- assert (rest <> [])
             by (intro Hnil; rewrite Hnil in Hl; cbn in Hl; lia).
           change (body ++ _M_delimiter r :: rest)
             with (body ++ [_M_delimiter r] ++ rest).
           rewrite app_assoc. symmetry. now apply missing_app.
      * destruct IH2 as [IHc IHf]. cbn [List.concat]. rewrite IHc, <- app_assoc.
        split; [reflexivity|]. constructor; [|exact IHf].
        destruct body; discriminate.
    + assert (Hend : read_from fuel r (size r) = []).
      { destruct fuel; [reflexivity|]. cbn [read_from].
        now rewrite read_at_end. }
      rewrite Hend. cbn [map]. split.
      { constructor; [|constructor].
        destruct (skipn offset (data r)); discriminate. }
      destruct (_M_strip_delimiter r).
      * split; [constructor; [exact Hn|constructor]|].
        unfold join. cbn [flat_map]. rewrite app_nil_r.
        f_equal. symmetry. now apply missing_no_delimiter.
      * cbn [List.concat]. rewrite app_nil_r. split; [reflexivity|].
        constructor; [exact Hb|constructor].
Qed.

Lemma read_advances (r : reader) (offset : nat) :
  offset < size r ->
  exists line offset',
    read r offset = Some (line, offset') /\
    offset < offset' <= size r.
Proof.
  intro Hlt.
  assert (Hl : List.length (skipn offset (data r)) = size r - offset)
    by (unfold size; apply length_skipn).
  destruct (proj1 (read_cases r offset Hlt))
    as [[body [rest [E [_ Hr]]]]|[_ [_ Hr]]]; rewrite Hr.
  - eexists. eexists. split; [reflexivity|].
    rewrite E, length_app in Hl. cbn [List.length] in Hl. lia.
  - eexists. eexists. split; [reflexivity|lia].
Qed.

(** With enough fuel [read_from] returns all the lines that follow. *)
Lemma read_from_fuel (r : reader) (fuel1 : nat) :
  forall fuel2 offset,
    offset <= size r ->
    size r - offset <= fuel1 -> size r - offset <= fuel2 ->
    read_from fuel1 r offset = read_from fuel2 r offset.
Proof.
  induction fuel1 as [|fuel1 IH]; intros fuel2 offset Hle H1 H2.
  - assert (offset = size r) by lia. subst offset.
    destruct fuel2; cbn [read_from]; [reflexivity|].
    now rewrite read_at_end.
  - destruct (Nat.eq_dec offset (size r)) as [->|Hne].
    + cbn [read_from]. rewrite read_at_end.
      destruct fuel2; cbn [read_from]; [reflexivity|].
      now rewrite read_at_end.
    + destruct fuel2 as [|fuel2]; [lia|]. cbn [read_from].
      destruct (read_advances r offset) as [l [o' [E Ho]]]; [lia|].
      rewrite E. f_equal. apply IH; lia.
Qed.

(** X6: below the end of the file [read] returns the bytes from [offset]
    up to the next delimiter, with the delimiter unless it is stripped, and
    moves [offset] just behind that delimiter; when no delimiter follows it
    returns all the bytes that are left and moves [offset] to the end.  At
    the end of the file it returns [false]. *)
Theorem read_returns_next_line (r : reader) (offset : nat) :
  offset < size r ->
  let d := _M_delimiter r in
  let bytes := skipn offset (data r) in
  ((exists body rest,
       bytes = body ++ d :: rest /\ ~ In d body /\
       read r offset =
         Some (if _M_strip_delimiter r then body else body ++ [d],
               offset + S (List.length body)))
   \/
   (~ In d bytes /\ bytes <> [] /\ read r offset = Some (bytes, size r)))
  /\ read r (size r) = None.
Proof. exact (read_cases r offset). Qed.

(** X7: when the delimiter is kept, the lines of a file are not empty and
    their concatenation is the file: no byte is lost, added or reordered. *)
Theorem lines_concat_unstripped (r : reader) :
  _M_strip_delimiter r = false ->
  List.concat (lines r) = data r /\
  Forall (fun l => l <> []) (lines r).
Proof.
  intro Hs. pose proof (read_from_spec r (size r) 0) as H.
  cbn zeta in H. rewrite Hs in H. cbn [skipn] in H.
  apply H; lia.
Qed.

(** X8: when the delimiter is stripped, no line contains the delimiter,
    and writing the lines back with a delimiter after each gives the file,
    followed by a delimiter if the file is not empty and does not end with
    one. *)
Theorem lines_join_stripped (r : reader) :
  _M_strip_delimiter r = true ->
  Forall (fun l => ~ In (_M_delimiter r) l) (lines r) /\
  join (_M_delimiter r) (lines r) =
    data r ++ missing (_M_delimiter r) (data r).
Proof.
  intro Hs. pose proof (read_from_spec r (size r) 0) as H.
  cbn zeta in H. rewrite Hs in H. cbn [skipn] in H.
  destruct H as [_ [H1 H2]]; [lia|lia|]. split; [exact H1|].
  unfold lines. rewrite H2. f_equal.
  destruct (Nat.eqb_spec 0 (size r)) as [E|_]; [|reflexivity].
  unfold size in E. destruct (data r); [|discriminate].
  unfold missing. cbn. now rewrite Ascii.eqb_refl.
Qed.

(** *** The iterator *)

Section IteratorFacts.
Context {P : Type}.
Variable P_eq_dec : forall a b : P, {a = b} + {a <> b}.
Variable reader_at : P -> reader.
Variable p : P.

Local Abbreviation r := (reader_at p).
Local Abbreviation operator_inc := (@operator_inc P reader_at).
Local Abbreviation increments := (@increments P reader_at).
Local Abbreviation advance := (@advance P reader_at).
Local Abbreviation begin := (@begin P reader_at).
Implicit Types (it : @iterator P).

Lemma advance_cases it :
  _M_offset it <= size r ->
  (_M_offset it = size r /\
   advance p it =
     {| _M_reader := None; _M_offset := 0; _M_line := _M_line it |})
  \/
  (exists line offset',
      read r (_M_offset it) = Some (line, offset') /\
      _M_offset it < offset' <= size r /\
      advance p it =
        {| _M_reader := Some p; _M_offset := offset'; _M_line := line |}).
Proof.
  intro Hle. unfold advance.
  destruct (Nat.eqb_spec (_M_offset it) (size r)) as [E|Hne].
  - left. split; [exact E|]. now rewrite E, read_at_end.
  - right. assert (Hlt : _M_offset it < size r) by lia.
    assert (Hl : List.length (skipn (_M_offset it) (data r)) =
                 size r - _M_offset it)
      by (unfold size; apply length_skipn).
    destruct (proj1 (read_cases r (_M_offset it) Hlt))
      as [[body [rest [E [Hn Hr]]]]|[Hn [Hb Hr]]]; rewrite Hr.
    + eexists. eexists. split; [reflexivity|]. split; [|reflexivity].
      rewrite E, length_app in Hl. cbn [List.length] in Hl. lia.
    + eexists. eexists. split; [reflexivity|]. split; [lia|reflexivity].
Qed.

Lemma increments_add (m n : nat) :
  forall it,
    increments (m + n) it =
      match increments m it with
      | Some it' => increments n it'
      | None => None
      end.
Proof.
  induction m as [|m IH]; intro it; [reflexivity|].
  cbn [Nat.add mmap_line_reader.increments].
  destruct (operator_inc it); [apply IH|reflexivity].
Qed.

(** Where [m] increments lead from an iterator on the reader at [p]. *)
Lemma increments_position (m : nat) :
  forall it it',
    increments m it = Some it' ->
    _M_reader it = Some p -> _M_offset it <= size r ->
    (_M_reader it' = Some p /\ _M_offset it' <= size r /\
     (1 <= m -> _M_offset it < _M_offset it'))
    \/
    (_M_reader it' = None /\ _M_offset it' = 0 /\ 1 <= m).
Proof.
  induction m as [|m IH]; intros it it' E Hp Hle.
  - injection E as <-. left. repeat split; auto. lia.
  - cbn [mmap_line_reader.increments] in E.
    unfold mmap_line_reader.operator_inc in E. rewrite Hp in E.
    destruct (advance_cases it Hle)
      as [[_ Ha]|[line [o' [_ [Ho Ha]]]]]; rewrite Ha in E.
    + destruct m as [|m].
      * injection E as <-. right. repeat split. lia.
      * discriminate E.
    + assert (Ho' : o' <= size r) by lia.
      destruct (IH _ _ E eq_refl Ho') as [[H1 [H2 H3]]|[H1 [H2 H3]]];
        cbn [_M_offset] in *.
      * left. repeat split; auto. intros _.
        destruct m as [|m]; [injection E as <-; cbn; lia|].
        specialize (H3 ltac:(lia)). lia.
      * right. repeat split; auto; lia.
Qed.

Lemma iterate_lines (fuel : nat) :
  forall offset line0,
    offset <= size r -> size r - offset <= fuel ->
    let ls := read_from fuel r offset in
    let it0 :=
      {| _M_reader := Some p; _M_offset := offset; _M_line := line0 |} in
    (forall k, k < List.length ls ->
       exists it,
         increments (S k) it0 = Some it /\
         _M_reader it = Some p /\
         nth_error ls k = Some (_M_line it)) /\
    (exists it,
        increments (S (List.length ls)) it0 = Some it /\
        _M_reader it = None /\ _M_offset it = 0).
Proof.
  induction fuel as [|fuel IH]; intros offset line0 Hle Hfuel; cbn zeta.
  - assert (offset = size r) by lia. subst offset. cbn [read_from].
    split; [intros k Hk; cbn in Hk; lia|].
    cbn [List.length mmap_line_reader.increments].
    unfold mmap_line_reader.operator_inc, mmap_line_reader.advance.
    cbn [_M_reader _M_offset]. rewrite read_at_end.
    eexists. repeat split.
  - cbn [read_from].
    set (it0 := {| _M_reader := Some p; _M_offset := offset;
                   _M_line := line0 |}).
    destruct (advance_cases it0 Hle)
      as [[Ho Ha]|[line [o' [Hr [Ho Ha]]]]]; cbn [_M_offset it0] in *.
    + subst offset. rewrite read_at_end.
      split; [intros k Hk; cbn in Hk; lia|].
      cbn [List.length mmap_line_reader.increments].
      unfold mmap_line_reader.operator_inc. cbn [_M_reader it0].
      rewrite Ha. eexists. repeat split.
    + rewrite Hr. destruct (IH o' line) as [IH1 IH2]; [lia|lia|].
      cbn zeta in IH1, IH2.
      assert (Hstep : forall n,
                increments (S n) it0 =
                  increments n {| _M_reader := Some p; _M_offset := o';
                                  _M_line := line |}).
      { intro n. cbn [mmap_line_reader.increments].
        unfold mmap_line_reader.operator_inc at 1. cbn [_M_reader it0].
        now rewrite Ha. }
      split.
      * intros [|k] Hk.
        -- rewrite Hstep. eexists. repeat split.
        -- cbn [List.length] in Hk. rewrite Hstep.
           destruct (IH1 k) as [it [E [Hp Hn]]]; [lia|].
           exists it. repeat split; assumption.
      * cbn [List.length]. rewrite Hstep.
        destruct IH2 as [it [E [Hp Hz]]].
        exists it. repeat split; assumption.
Qed.

Lemma begin_increments (k : nat) :
  increments k (begin p) =
    increments (S k)
      {| _M_reader := Some p; _M_offset := 0; _M_line := [] |}.
Proof. reflexivity. Qed.

Lemma protocol_helper :
  (forall k, k < List.length (lines r) ->
     exists it,
       increments k (begin p) = Some it /\
       _M_reader it = Some p /\
       nth_error (lines r) k = Some (_M_line it)) /\
  (exists it,
      increments (List.length (lines r)) (begin p) = Some it /\
      _M_reader it = None /\ _M_offset it = 0).
Proof.
  destruct (iterate_lines (size r) 0 []) as [H1 H2]; [lia|lia|].
  cbn zeta in H1, H2. fold (lines r) in H1, H2.
  split; [intros k Hk|]; rewrite begin_increments; auto.
Qed.

(** X9: iterating from [begin()] yields the lines of the file in order:
    after [k] increments, for [k] below the number of lines, the iterator
    refers to the reader and [operator*] is line [k]; after as many
    increments as there are lines it compares equal to [end()]; one more
    increment would dereference a null reader.  On an empty file [begin()]
    already equals [end()]. *)
Theorem iterator_yields_lines (k : nat) :
  (k < List.length (lines r) ->
   exists it,
     increments k (begin p) = Some it /\
     deref it = nth_error (lines r) k /\
     operator_eq P_eq_dec it end_ = false) /\
  (exists it,
      increments (List.length (lines r)) (begin p) = Some it /\
      deref it = None /\
      operator_eq P_eq_dec it end_ = true /\
      operator_inc it = None) /\
  (data r = [] -> operator_eq P_eq_dec (begin p) end_ = true).
Proof.
  destruct protocol_helper as [H1 [ite [E [Hp Ho]]]].
  assert (Hend : deref ite = None /\
                 operator_eq P_eq_dec ite end_ = true /\
                 operator_inc ite = None).
  { unfold deref, operator_eq, mmap_line_reader.operator_inc.
    rewrite Hp, Ho. repeat split. }
  split; [|split].
  - intro Hk. destruct (H1 k Hk) as [it [Ei [Hr Hn]]].
    exists it. split; [exact Ei|]. unfold deref, operator_eq.
    rewrite Hr. cbn [_M_reader end_]. now split.
  - exists ite. split; [exact E|exact Hend].
  - intro Hd. unfold lines, size in E. rewrite Hd in E.
    cbn in E. injection E as <-. apply Hend.
Qed.

(** X10: on one reader [operator==] tells the positions apart: of the
    iterators reached from [begin()] by [i] and by [j] increments, up to
    the number of lines, two compare equal exactly when [i = j]. *)
Theorem position_decides_equality (i j : nat) :
  i <= List.length (lines r) -> j <= List.length (lines r) ->
  exists a b,
    increments i (begin p) = Some a /\
    increments j (begin p) = Some b /\
    (operator_eq P_eq_dec a b = true <-> i = j).
Proof.
  assert (Hreach : forall k, k <= List.length (lines r) ->
            exists it,
              increments k (begin p) = Some it /\
              (k < List.length (lines r) -> _M_reader it = Some p) /\
              (k = List.length (lines r) ->
               _M_reader it = None /\ _M_offset it = 0)).
  { destruct protocol_helper as [H1 [ite [E [Hp Ho]]]].
    intros k Hk. destruct (Nat.eq_dec k (List.length (lines r))) as [->|Hn].
    - exists ite. split; [exact E|]. split; [lia|auto].
    - destruct (H1 k) as [it [Ei [Hr _]]]; [lia|].
      exists it. split; [exact Ei|]. split; [auto|lia]. }
  assert (Hlt : forall i j a b,
            i < j -> j <= List.length (lines r) ->
            increments i (begin p) = Some a ->
            increments j (begin p) = Some b ->
            operator_eq P_eq_dec a b = false /\
            operator_eq P_eq_dec b a = false).
  { clear i j. intros i j a b Hij Hj Ea Eb.
    destruct (Hreach i) as [a' [Ea' [Hra _]]]; [lia|].
    rewrite Ea in Ea'. injection Ea' as <-. specialize (Hra ltac:(lia)).
    replace j with (i + (j - i)) in Eb by lia.
    rewrite increments_add, Ea in Eb.
    assert (Hoa : _M_offset a <= size r).
    { rewrite begin_increments in Ea.
      destruct (increments_position _ _ _ Ea eq_refl)
        as [[_ [H _]]|[H _]]; [cbn; lia|exact H|congruence]. }
    destruct (increments_position _ _ _ Eb Hra Hoa)
      as [[Hrb [_ Hob]]|[Hrb _]]; unfold operator_eq; rewrite Hra, Hrb.
    - specialize (Hob ltac:(lia)).
      destruct (P_eq_dec p p) as [_|Hc]; [|congruence].
      split; apply Nat.eqb_neq; lia.
    - split; reflexivity. }
  intros Hi Hj.
  destruct (Hreach i Hi) as [a [Ea [Ha1 Ha2]]].
  destruct (Hreach j Hj) as [b [Eb [Hb1 Hb2]]].
  exists a, b. split; [exact Ea|]. split; [exact Eb|].
  destruct (Nat.lt_trichotomy i j) as [Hij|[->|Hij]].
  - destruct (Hlt i j a b Hij Hj Ea Eb) as [H _]. rewrite H.
    split; [discriminate|lia].
  - rewrite Ea in Eb. injection Eb as <-. split; [reflexivity|intros _].
    unfold operator_eq. destruct (_M_reader a) as [q|].
    + destruct (P_eq_dec q q); [apply Nat.eqb_refl|congruence].
    + apply Nat.eqb_refl.
  - destruct (Hlt j i b a Hij Hi Eb Ea) as [_ H]. rewrite H.
    split; [discriminate|lia].
Qed.
End IteratorFacts.
End mmap_line_reader.

(** The file [a,b] read with [','] as delimiter, which is stripped. *)
Definition example_mapped : mmap_line_reader.reader :=
  {| mmap_line_reader.data := ["a"; ","; "b"]%char;
     mmap_line_reader._M_delimiter := ","%char;
     mmap_line_reader._M_strip_delimiter := true |}.

Lemma read_returns_next_line_witness :
  ((exists body rest,
       skipn 0 (mmap_line_reader.data example_mapped)
       = body ++ ","%char :: rest /\ ~ In ","%char body /\
       mmap_line_reader.read example_mapped 0 =
         Some (body, 0 + S (List.length body)))
   \/
   (~ In ","%char (skipn 0 (mmap_line_reader.data example_mapped)) /\
    skipn 0 (mmap_line_reader.data example_mapped) <> [] /\
    mmap_line_reader.read example_mapped 0 =
      Some (skipn 0 (mmap_line_reader.data example_mapped),
            mmap_line_reader.size example_mapped)))
  /\ mmap_line_reader.read example_mapped
       (mmap_line_reader.size example_mapped) = None.
Proof.
  apply (mmap_line_reader.read_returns_next_line example_mapped 0).
  vm_compute. lia.
Defined.

Lemma lines_concat_unstripped_witness :
  List.concat
    (mmap_line_reader.lines
       (mmap_line_reader.set_delimiter example_mapped ","%char
          mmap_line_reader.no_strip_delimiter))
  = ["a"; ","; "b"]%char /\
  Forall (fun l => l <> [])
    (mmap_line_reader.lines
       (mmap_line_reader.set_delimiter example_mapped ","%char
          mmap_line_reader.no_strip_delimiter)).
Proof.
  apply (mmap_line_reader.lines_concat_unstripped
           (mmap_line_reader.set_delimiter example_mapped ","%char
          mmap_line_reader.no_strip_delimiter)).
  reflexivity.
Defined.

Lemma lines_join_stripped_witness :
  Forall (fun l => ~ In ","%char l)
    (mmap_line_reader.lines example_mapped) /\
  mmap_line_reader.join ","%char (mmap_line_reader.lines example_mapped)
  = ["a"; ","; "b"]%char
    ++ mmap_line_reader.missing ","%char ["a"; ","; "b"]%char.
Proof.
  apply (mmap_line_reader.lines_join_stripped example_mapped).
  reflexivity.
Defined.

Lemma iterator_yields_lines_witness :
  exists it,
    mmap_line_reader.increments (fun _ : nat => example_mapped) 1
      (mmap_line_reader.begin (fun _ : nat => example_mapped) 0)
    = Some it /\
    mmap_line_reader.deref it
    = nth_error (mmap_line_reader.lines example_mapped) 1 /\
    mmap_line_reader.operator_eq Nat.eq_dec it mmap_line_reader.end_
    = false.
Proof.
  apply (proj1 (mmap_line_reader.iterator_yields_lines
                  Nat.eq_dec (fun _ : nat => example_mapped) 0 1)).
  vm_compute. lia.
Defined.

Lemma position_decides_equality_witness :
  exists a b,
    mmap_line_reader.increments (fun _ : nat => example_mapped) 0
      (mmap_line_reader.begin (fun _ : nat => example_mapped) 0)
    = Some a /\
    mmap_line_reader.increments (fun _ : nat => example_mapped) 2
      (mmap_line_reader.begin (fun _ : nat => example_mapped) 0)
    = Some b /\
    (mmap_line_reader.operator_eq Nat.eq_dec a b = true <-> 0 = 2).
Proof.
  apply (mmap_line_reader.position_decides_equality
           Nat.eq_dec (fun _ : nat => example_mapped) 0 0 2);
    vm_compute; lia.
Defined.
From Stdlib Require Import ZArith.

(** * nvwa/file_line_reader.h, file_line_reader.cpp: lines of a stream

    [file_line_reader] reads the same lines as [mmap_line_reader], from a
    [FILE*] and into a buffer that the caller owns and that [read] enlarges.

    Conventions of the embedding.
    - A [FILE*] is the list of the bytes that the stream has not delivered
      yet; the end of the file is the empty list, and there are no read
      errors.  [fread] and [fgets] are modelled after the C standard.
    - A [char] array is a list of cells; a cell is [None] as long as nothing
      has been stored in it ([new char[n]] does not initialise).  Reading
      such a cell, and reading or writing outside an array, is undefined
      behaviour.
    - [size_t] has 64 bits and [int] has 32.  The two places where the code
      can leave their range are modelled with the wrap-around: the doubling
      [capacity * 2] and the narrowing [static_cast<int>(capacity -
      write_pos)].  The other sizes count bytes of one array or of the
      file and are natural numbers.
    - A loop runs on fuel: one iteration more than there can be bytes left
      in [_M_buffer] and in the stream, which is enough when every
      iteration but the last consumes a byte.  [Unfinished] is the outcome
      of a loop that is still running then, [Undefined] that of undefined
      behaviour. *)

Module file_line_reader.

Definition BUFFER_SIZE : nat := 256.
Definition LF : ascii := "010"%char.
Definition NUL : ascii := "000"%char.

Inductive outcome (A : Type) : Type :=
| Returned (a : A)
| Undefined
| Unfinished.
Arguments Returned {A} a.
Arguments Undefined {A}.
Arguments Unfinished {A}.

(** ** Arrays of [char] *)

Abbreviation cell := (option ascii) (only parsing).

(** [new char[n]]. *)
Definition new_char (n : nat) : list cell := repeat None n.

(** [a[i]] as a value. *)
Definition load (a : list cell) (i : nat) : option ascii :=
  match nth_error a i with
  | Some (Some ch) => Some ch
  | _ => None
  end.

(** Storing [chars] at [a + i]. *)
Definition write_chars (a : list cell) (i : nat) (chars : list ascii)
  : option (list cell) :=
  if i + List.length chars <=? List.length a
  then Some (firstn i a ++ map Some chars
               ++ skipn (i + List.length chars) a)
  else None.

(** [a[i] = ch]. *)
Definition store (a : list cell) (i : nat) (ch : ascii)
  : option (list cell) :=
  write_chars a i [ch].

(** [memcpy(dst, src, n)]. *)
Definition memcpy (dst src : list cell) (n : nat) : option (list cell) :=
  if (n <=? List.length src) && (n <=? List.length dst)
  then Some (firstn n src ++ skipn n dst)
  else None.

(** [strlen(s)]: the number of bytes before the first [NUL]. *)
Fixpoint strlen (s : list cell) : option nat :=
  match s with
  | Some ch :: s' =>
      if Ascii.eqb ch NUL then Some 0 else option_map S (strlen s')
  | _ => None
  end.

(** ** [size_t] and [int] *)

(** [capacity * 2] in [size_t]. *)
Definition size_mul2 (capacity : nat) : nat :=
  Z.to_nat ((Z.of_nat capacity * 2) mod 2 ^ 64).

(** [a - b] in [size_t]. *)
Definition size_sub (a b : nat) : Z :=
  (Z.of_nat a - Z.of_nat b) mod 2 ^ 64.

(** [static_cast<int>(z)]. *)
Definition to_int (z : Z) : Z :=
  (z + 2 ^ 31) mod 2 ^ 32 - 2 ^ 31.

(** ** The stream *)

(** [fread(buffer, 1, n, stream)]: the number of bytes read, the buffer and
    the stream. *)
Definition fread (buffer : list cell) (n : nat) (stream : list ascii)
  : option (nat * list cell * list ascii) :=
  let got := firstn n stream in
  match write_chars buffer 0 got with
  | Some buffer' => Some (List.length got, buffer', skipn n stream)
  | None => None
  end.

(** What [fgets] reads when it may read [k] bytes: up to and including the
    first line feed. *)
Fixpoint take_line (k : nat) (stream : list ascii)
  : list ascii * list ascii :=
  match k, stream with
  | S k', ch :: stream' =>
      if Ascii.eqb ch LF then ([ch], stream')
      else let (chunk, rest) := take_line k' stream' in (ch :: chunk, rest)
  | _, _ => ([], stream)
  end.

(** [fgets(s + pos, n, stream)]: [Some (None, _)] is the null pointer.
    With [n <= 0] the C library returns the null pointer, with [n = 1] it
    stores the terminator and reads nothing. *)
Definition fgets (s : list cell) (pos : nat) (n : Z) (stream : list ascii)
  : option (option (list cell) * list ascii) :=
  if (n <=? 0)%Z then Some (None, stream)
  else if (n =? 1)%Z then
    match write_chars s pos [NUL] with
    | Some s' => Some (Some s', stream)
    | None => None
    end
  else
    match stream with
    | [] => Some (None, stream)
    | _ =>
        let (chunk, rest) := take_line (Z.to_nat (n - 1)) stream in
        match write_chars s pos (chunk ++ [NUL]) with
        | Some s' => Some (Some s', rest)
        | None => None
        end
    end.

(** ** The reader *)

Inductive strip_type : Type := strip_delimiter | no_strip_delimiter.

Record reader : Type := {
  _M_stream : list ascii;
  _M_delimiter : ascii;
  _M_strip_delimiter : bool;
  _M_buffer : option (list cell);
  _M_offset : nat;
  _M_read_pos : nat;
  _M_size : nat
}.

(** [file_line_reader(stream, delimiter, strip)]. *)
Definition file_line_reader
  (stream : list ascii) (delimiter : ascii) (strip : strip_type) : reader :=
  {| _M_stream := stream;
     _M_delimiter := delimiter;
     _M_strip_delimiter :=
       match strip with strip_delimiter => true | _ => false end;
     _M_buffer :=
       if Ascii.eqb delimiter LF then None else Some (new_char BUFFER_SIZE);
     _M_offset := 0;
     _M_read_pos := 0;
     _M_size := 0 |}.

(** [expand(data, size, capacity)]. *)
Definition expand (data : list cell) (size capacity : nat)
  : option (list cell) :=
  memcpy (new_char capacity) data size.

(** The variables of [read] and of [get_line] while their loop runs. *)
Record loop_state : Type := {
  this : reader;
  output : list cell;
  capacity : nat;
  found_delimiter : bool;
  write_pos : nat
}.

Inductive step : Type :=
| Continue (s : loop_state)
| Break (s : loop_state)
| Fault.

Definition set_stream (r : reader) (stream : list ascii) : reader :=
  {| _M_stream := stream;
     _M_delimiter := _M_delimiter r;
     _M_strip_delimiter := _M_strip_delimiter r;
     _M_buffer := _M_buffer r;
     _M_offset := _M_offset r;
     _M_read_pos := _M_read_pos r;
     _M_size := _M_size r |}.

(** [if (write_pos + 1 == capacity) { output = expand(...); capacity *= 2; }] *)
Definition grow (output : list cell) (capacity write_pos : nat)
  : option (list cell * nat) :=
  if write_pos + 1 =? capacity then
    match expand output write_pos (size_mul2 capacity) with
    | Some output' => Some (output', size_mul2 capacity)
    | None => None
    end
  else Some (output, capacity).

(** One iteration of the loop of [get_line]. *)
Definition get_line_iteration (s : loop_state) : step :=
  let n := to_int (size_sub (capacity s) (write_pos s)) in
  match fgets (output s) (write_pos s) n (_M_stream (this s)) with
  | None => Fault
  | Some (None, _) => Break s
  | Some (Some output1, stream1) =>
      match strlen (skipn (write_pos s) output1) with
      | None => Fault
      | Some len =>
          let write_pos1 := write_pos s + len in
          match
            (if write_pos1 =? 0 then None
             else load output1 (write_pos1 - 1))
          with
          | None => Fault
          | Some ch =>
              if Ascii.eqb ch LF then
                Break {| this := set_stream (this s) stream1;
                         output := output1;
                         capacity := capacity s;
                         found_delimiter := true;
                         write_pos := write_pos1 |}
              else
                match grow output1 (capacity s) write_pos1 with
                | None => Fault
                | Some (output2, capacity2) =>
                    Continue {| this := set_stream (this s) stream1;
                                output := output2;
                                capacity := capacity2;
                                found_delimiter := found_delimiter s;
                                write_pos := write_pos1 |}
                end
          end
      end
  end.

(** [if (_M_read_pos == _M_size) { ... }] of [read]: the reader, and
    whether the loop breaks. *)
Definition refill (r : reader) : option (reader * bool) :=
  if _M_read_pos r =? _M_size r then
    match _M_buffer r with
    | None => None
    | Some buffer =>
        match fread buffer BUFFER_SIZE (_M_stream r) with
        | None => None
        | Some (n, buffer', stream') =>
            Some ({| _M_stream := stream';
                     _M_delimiter := _M_delimiter r;
                     _M_strip_delimiter := _M_strip_delimiter r;
                     _M_buffer := Some buffer';
                     _M_offset := _M_offset r;
                     _M_read_pos := 0;
                     _M_size := n |},
                  n =? 0)
        end
    end
  else Some (r, false).

(** [_M_buffer[_M_read_pos++]]. *)
Definition next_char (r : reader) : option (ascii * reader) :=
  match _M_buffer r with
  | None => None
  | Some buffer =>
      match load buffer (_M_read_pos r) with
      | None => None
      | Some ch =>
          Some (ch,
                {| _M_stream := _M_stream r;
                   _M_delimiter := _M_delimiter r;
                   _M_strip_delimiter := _M_strip_delimiter r;
                   _M_buffer := _M_buffer r;
                   _M_offset := _M_offset r;
                   _M_read_pos := S (_M_read_pos r);
                   _M_size := _M_size r |})
      end
  end.

(** One iteration of the loop of [read] for a delimiter other than the
    line feed. *)
Definition read_iteration (s : loop_state) : step :=
  match refill (this s) with
  | None => Fault
  | Some (r1, true) =>
      Break {| this := r1;
               output := output s;
               capacity := capacity s;
               found_delimiter := found_delimiter s;
               write_pos := write_pos s |}
  | Some (r1, false) =>
      match next_char r1 with
      | None => Fault
      | Some (ch, r2) =>
          match grow (output s) (capacity s) (write_pos s) with
          | None => Fault
          | Some (output1, capacity1) =>
              match store output1 (write_pos s) ch with
              | None => Fault
              | Some output2 =>
                  let s' found :=
                    {| this := r2;
                       output := output2;
                       capacity := capacity1;
                       found_delimiter := found;
                       write_pos := S (write_pos s) |} in
                  if Ascii.eqb ch (_M_delimiter r2)
                  then Break (s' true)
                  else Continue (s' (found_delimiter s))
              end
          end
      end
  end.

(** [for (;;)] *)
Fixpoint loop (iteration : loop_state -> step) (fuel : nat) (s : loop_state)
  : outcome loop_state :=
  match fuel with
  | O => Unfinished
  | S fuel' =>
      match iteration s with
      | Continue s' => loop iteration fuel' s'
      | Break s' => Returned s'
      | Fault => Undefined
      end
  end.

(** [get_line(output, capacity, found_delimiter, write_pos, stream)]. *)
Definition get_line (s : loop_state) : outcome loop_state :=
  loop get_line_iteration (S (List.length (_M_stream (this s)))) s.

(** What [read] hands back: the reader, the three reference parameters and
    the returned value. *)
Record read_result : Type := {
  reader_after : reader;
  output_after : list cell;
  size_after : nat;
  capacity_after : nat;
  returned : bool
}.

(** The statements of [read] after the loop. *)
Definition finish (s : loop_state) (size : nat) : outcome read_result :=
  let r := this s in
  let r' :=
    {| _M_stream := _M_stream r;
       _M_delimiter := _M_delimiter r;
       _M_strip_delimiter := _M_strip_delimiter r;
       _M_buffer := _M_buffer r;
       _M_offset := _M_offset r + write_pos s;
       _M_read_pos := _M_read_pos r;
       _M_size := _M_size r |} in
  if write_pos s =? 0 then
    Returned {| reader_after := r';
                output_after := output s;
                size_after := size;
                capacity_after := capacity s;
                returned := false |}
  else
    let write_pos1 :=
      if found_delimiter s && _M_strip_delimiter r
      then write_pos s - 1 else write_pos s in
    match store (output s) write_pos1 NUL with
    | None => Undefined
    | Some output1 =>
        Returned {| reader_after := r';
                    output_after := output1;
                    size_after := write_pos1;
                    capacity_after := capacity s;
                    returned := true |}
    end.

(** [read(output, size, capacity)]. *)
Definition read (r : reader) (output : list cell) (size capacity : nat)
  : outcome read_result :=
  let s :=
    {| this := r; output := output; capacity := capacity;
       found_delimiter := false; write_pos := 0 |} in
  let after_loop :=
    if Ascii.eqb (_M_delimiter r) LF then get_line s
    else loop read_iteration
           (S (BUFFER_SIZE + List.length (_M_stream r))) s in
  match after_loop with
  | Returned s' => finish s' size
  | Undefined => Undefined
  | Unfinished => Unfinished
  end.

(** ** What a reader has not handed out yet *)

(** The values of cells that are all determinate. *)
Fixpoint chars (cells : list cell) : option (list ascii) :=
  match cells with
  | [] => Some []
  | Some ch :: cells' => option_map (cons ch) (chars cells')
  | None :: _ => None
  end.

(** The invariant of the class: the constructor allocates [_M_buffer]
    exactly for a delimiter other than the line feed, and the bytes of
    [_M_buffer] below [_M_size] come from the stream. *)
Definition well_formed (r : reader) : bool :=
  match _M_buffer r with
  | None => Ascii.eqb (_M_delimiter r) LF
  | Some buffer =>
      negb (Ascii.eqb (_M_delimiter r) LF)
      && (List.length buffer =? BUFFER_SIZE)
      && (_M_read_pos r <=? _M_size r)
      && (_M_size r <=? BUFFER_SIZE)
      && match chars (firstn (_M_size r) buffer) with
         | Some _ => true
         | None => false
         end
  end.

(** The bytes of the file that [read] has not returned: those waiting in
    [_M_buffer], then those of the stream. *)
Definition pending (r : reader) : list ascii :=
  match _M_buffer r with
  | None => []
  | Some buffer =>
      match chars (skipn (_M_read_pos r) (firstn (_M_size r) buffer)) with
      | Some bytes => bytes
      | None => []
      end
  end ++ _M_stream r.

(** The line in the first [size] cells of [output]. *)
Definition line_at (output : list cell) (size : nat)
  : option (list ascii) :=
  chars (firstn size output).

(** ** Facts about arrays *)

Lemma chars_map (l : list ascii) : chars (map Some l) = Some l.
Proof.
  induction l as [|ch l IH]; [reflexivity|].
  cbn [map chars]. now rewrite IH.
Qed.

Lemma chars_inv (cells : list cell) (l : list ascii) :
  chars cells = Some l -> cells = map Some l.
Proof.
  revert l. induction cells as [|[ch|] cells IH]; intros l E; cbn in E.
  - now injection E as <-.
  - destruct (chars cells) as [l'|]; [|discriminate].
    injection E as <-. cbn [map]. f_equal. now apply IH.
  - discriminate.
Qed.

Lemma write_chars_fits (a : list cell) (i : nat) (l : list ascii) :
  i + List.length l <= List.length a ->
  write_chars a i l =
    Some (firstn i a ++ map Some l ++ skipn (i + List.length l) a).
Proof.
  intro H. unfold write_chars.
  destruct (Nat.leb_spec (i + List.length l) (List.length a));
    [reflexivity|lia].
Qed.

Lemma write_chars_length (a a' : list cell) (i : nat) (l : list ascii) :
  write_chars a i l = Some a' -> List.length a' = List.length a.
Proof.
  unfold write_chars.
  destruct (Nat.leb_spec (i + List.length l) (List.length a)) as [H|H];
    [|discriminate].
  intro E. injection E as <-.
  rewrite !length_app, length_map, length_firstn, length_skipn. lia.
Qed.

Lemma firstn_app_exact {A : Type} (l1 l2 : list A) (n : nat) :
  n = List.length l1 -> firstn n (l1 ++ l2) = l1.
Proof.
  intros ->. rewrite firstn_app, Nat.sub_diag, firstn_all.
  cbn [firstn]. apply app_nil_r.
Qed.

Lemma firstn_firstn_le {A : Type} (l : list A) (i j : nat) :
  i <= j -> firstn i (firstn j l) = firstn i l.
Proof. intro H. rewrite firstn_firstn. f_equal. lia. Qed.

Lemma in_firstn {A : Type} (l : list A) (n : nat) (x : A) :
  In x (firstn n l) -> In x l.
Proof.
  intro H. rewrite <- (firstn_skipn n l). apply in_or_app. now left.
Qed.

Lemma skipn_app_plus {A : Type} (l1 l2 : list A) (n : nat) :
  skipn (List.length l1 + n) (l1 ++ l2) = skipn n l2.
Proof.
  rewrite skipn_app, skipn_all2 by lia. cbn [app]. f_equal. lia.
Qed.

Lemma skipn_app_exact {A : Type} (l1 l2 : list A) (n : nat) :
  n = List.length l1 -> skipn n (l1 ++ l2) = l2.
Proof.
  intros ->. rewrite skipn_app, Nat.sub_diag, skipn_all. reflexivity.
Qed.

Lemma load_app (l : list ascii) (rest : list cell) (i : nat) :
  i < List.length l -> load (map Some l ++ rest) i = nth_error l i.
Proof.
  intro H. unfold load.
  rewrite nth_error_app1 by (rewrite length_map; exact H).
  rewrite nth_error_map. destruct (nth_error l i) eqn:E; [reflexivity|].
  apply nth_error_None in E. lia.
Qed.

Lemma size_mul2_small (capacity : nat) :
  (2 * Z.of_nat capacity < 2 ^ 64)%Z -> size_mul2 capacity = 2 * capacity.
Proof.
  intro H. unfold size_mul2. rewrite Z.mod_small by lia. lia.
Qed.

(** [grow] and the store that follows it, on a buffer that holds [acc]. *)
Lemma grow_store
  (out : list cell) (cap wp : nat) (ch : ascii) (acc : list ascii) :
  List.length out = cap -> wp < cap ->
  firstn wp out = map Some acc ->
  (2 * (Z.of_nat wp + 1) < 2 ^ 64)%Z ->
  exists out1 cap2 out2,
    grow out cap wp = Some (out1, cap2) /\
    store out1 wp ch = Some out2 /\
    List.length out2 = cap2 /\ S wp < cap2 /\
    (cap2 = cap \/ cap2 = 2 * cap /\ cap = wp + 1) /\
    firstn (S wp) out2 = map Some (acc ++ [ch]).
Proof.
  intros Hlen Hwp Hacc Hbound.
  assert (Hl : List.length acc = wp).
  { apply (f_equal (@List.length _)) in Hacc.
    rewrite length_firstn, length_map in Hacc. lia. }
  assert (Hstore : forall out1 cap2,
            List.length out1 = cap2 -> S wp < cap2 ->
            firstn wp out1 = map Some acc ->
            exists out2,
              store out1 wp ch = Some out2 /\
              List.length out2 = cap2 /\
              firstn (S wp) out2 = map Some (acc ++ [ch])).
  { intros out1 cap2 H1 H2 H3. unfold store.
    rewrite write_chars_fits by (cbn [List.length]; lia).
    eexists. split; [reflexivity|]. split.
    - rewrite !length_app, length_map, length_firstn, length_skipn.
      cbn [List.length]. lia.
    - rewrite H3, app_assoc, <- map_app. apply firstn_app_exact.
      rewrite length_map, length_app. cbn [List.length]. lia. }
  unfold grow. destruct (Nat.eqb_spec (wp + 1) cap) as [E|E].
  - rewrite size_mul2_small by lia.
    unfold expand, memcpy, new_char. rewrite repeat_length.
    destruct (Nat.leb_spec wp (List.length out)) as [_|]; [|lia].
    destruct (Nat.leb_spec wp (2 * cap)) as [_|]; [|lia].
    cbn [andb].
    destruct (Hstore (firstn wp out ++ skipn wp (repeat None (2 * cap)))
                (2 * cap)) as [out2 [H1 [H2 H3]]].
    + rewrite length_app, length_firstn, length_skipn, repeat_length. lia.
    + lia.
    + rewrite <- Hacc. apply firstn_app_exact.
      rewrite length_firstn. lia.
    + eexists. eexists. exists out2. split; [reflexivity|].
      split; [exact H1|]. split; [exact H2|]. split; [lia|].
      split; [right; lia|exact H3].
  - destruct (Hstore out cap Hlen) as [out2 [H1 [H2 H3]]]; [lia|exact Hacc|].
    eexists. eexists. exists out2. split; [reflexivity|].
    split; [exact H1|]. split; [exact H2|]. split; [lia|].
    split; [left; reflexivity|exact H3].
Qed.

(** ** The bytes in [_M_buffer] *)

(** What [read] leaves as it is, but for the offset. *)
Definition same_mode (r r' : reader) : Prop :=
  _M_delimiter r' = _M_delimiter r /\
  _M_strip_delimiter r' = _M_strip_delimiter r.

Lemma well_formed_rep (r : reader) :
  well_formed r = true -> Ascii.eqb (_M_delimiter r) LF = false ->
  exists valid junk,
    _M_buffer r = Some (map Some valid ++ junk) /\
    List.length valid = _M_size r /\
    _M_size r + List.length junk = BUFFER_SIZE /\
    _M_read_pos r <= _M_size r.
Proof.
  unfold well_formed. intros H Hd. rewrite Hd in H.
  destruct (_M_buffer r) as [b|]; [|discriminate]. cbn [negb andb] in H.
  destruct (Nat.eqb_spec (List.length b) BUFFER_SIZE) as [Hb|];
    [|discriminate].
  destruct (Nat.leb_spec (_M_read_pos r) (_M_size r)) as [Hp|];
    [|discriminate].
  destruct (Nat.leb_spec (_M_size r) BUFFER_SIZE) as [Hs|];
    [|discriminate].
  cbn [andb] in H.
  destruct (chars (firstn (_M_size r) b)) as [valid|] eqn:E;
    [|discriminate].
  apply chars_inv in E. exists valid, (skipn (_M_size r) b).
  assert (Hl : List.length valid = _M_size r).
  { apply (f_equal (@List.length _)) in E.
    rewrite length_firstn, length_map in E. lia. }
  split; [now rewrite <- E, firstn_skipn|].
  split; [exact Hl|]. split; [rewrite length_skipn; lia|exact Hp].
Qed.

Lemma rep_well_formed (r : reader) (valid : list ascii) (junk : list cell) :
  _M_buffer r = Some (map Some valid ++ junk) ->
  List.length valid = _M_size r ->
  _M_size r + List.length junk = BUFFER_SIZE ->
  _M_read_pos r <= _M_size r ->
  Ascii.eqb (_M_delimiter r) LF = false ->
  well_formed r = true /\
  pending r = skipn (_M_read_pos r) valid ++ _M_stream r.
Proof.
  intros Hb Hl Hj Hp Hd. unfold well_formed, pending. rewrite Hb, Hd.
  rewrite firstn_app_exact by (now rewrite length_map).
  rewrite chars_map, skipn_map, chars_map. split; [|reflexivity].
  cbn [negb andb]. rewrite length_app, length_map, Hl, Hj, Nat.eqb_refl.
  destruct (Nat.leb_spec (_M_read_pos r) (_M_size r)); [|lia].
  destruct (Nat.leb_spec (_M_size r) BUFFER_SIZE); [reflexivity|lia].
Qed.

Lemma skipn_cons_nth {A : Type} (l : list A) (i : nat) (x : A) :
  nth_error l i = Some x -> skipn i l = x :: skipn (S i) l.
Proof.
  revert i. induction l as [|y l IH]; intros [|i] E; try discriminate.
  - now injection E as ->.
  - cbn [nth_error] in E. cbn [skipn]. now apply IH.
Qed.

Ltac reader_fields :=
  cbn [_M_stream _M_delimiter _M_strip_delimiter _M_buffer _M_offset
       _M_read_pos _M_size] in *.

(** The next byte of [pending], as the loop of [read] gets it. *)
Lemma take_byte (r : reader) :
  well_formed r = true -> Ascii.eqb (_M_delimiter r) LF = false ->
  match pending r with
  | [] =>
      exists r1,
        refill r = Some (r1, true) /\
        well_formed r1 = true /\ pending r1 = [] /\
        same_mode r r1 /\ _M_offset r1 = _M_offset r
  | ch :: rest =>
      exists r1 r2,
        refill r = Some (r1, false) /\
        next_char r1 = Some (ch, r2) /\
        well_formed r2 = true /\ pending r2 = rest /\
        same_mode r r2 /\ _M_offset r2 = _M_offset r
  end.
Proof.
  intros Hw Hd.
  destruct (well_formed_rep r Hw Hd) as [valid [junk [Hb [Hl [Hj Hp]]]]].
  destruct (rep_well_formed r valid junk Hb Hl Hj Hp Hd) as [_ Hpend].
  rewrite Hpend. unfold refill.
  destruct (Nat.eqb_spec (_M_read_pos r) (_M_size r)) as [E|E].
  - rewrite E, <- Hl, skipn_all. cbn [app]. rewrite Hb. unfold fread.
    destruct (_M_stream r) as [|ch st] eqn:Es.
    + rewrite firstn_nil, skipn_nil.
      rewrite write_chars_fits by (cbn [List.length Nat.add]; lia).
      cbn [firstn Nat.add app map List.length skipn Nat.eqb].
      eexists. split; [reflexivity|].
      reader_fields.
      reader_fields.
    match goal with |- well_formed ?r1 = true /\ _ =>
        destruct (rep_well_formed r1 [] (map Some valid ++ junk))
          as [H1 H2]; reader_fields; auto
      end.
      { rewrite length_app, length_map. lia. }
      split; [exact H1|]. split; [|split; [split|]; reflexivity].
      rewrite H2. reflexivity.
    + set (got := firstn BUFFER_SIZE (ch :: st)).
      assert (Hg : List.length got <= BUFFER_SIZE)
        by (unfold got; rewrite length_firstn; lia).
      rewrite write_chars_fits
        by (rewrite length_app, length_map; cbn [Nat.add]; lia).
      cbn [firstn Nat.add app].
      assert (Hgot : got = ch :: firstn 255 st) by reflexivity.
      replace (List.length got =? 0) with false
        by (rewrite Hgot; reflexivity).
      eexists. eexists. split; [reflexivity|].
      unfold next_char. cbn [_M_buffer _M_read_pos].
      rewrite load_app by (rewrite Hgot; cbn [List.length]; lia).
      rewrite Hgot at 1. cbn [nth_error]. split; [reflexivity|].
      reader_fields.
      reader_fields.
    match goal with |- well_formed ?r2 = true /\ _ =>
        destruct (rep_well_formed r2 got
                    (skipn (List.length got) (map Some valid ++ junk)))
          as [H1 H2]; reader_fields; auto
      end.
      { rewrite length_skipn, length_app, length_map. lia. }
      { rewrite Hgot. cbn [List.length]. lia. }
      split; [exact H1|]. split; [|split; [split|]; reflexivity].
      rewrite H2. rewrite Hgot.
      change BUFFER_SIZE with (S 255). cbn [skipn].
      apply firstn_skipn.
  - assert (Hlt : _M_read_pos r < List.length valid) by lia.
    destruct (nth_error valid (_M_read_pos r)) as [ch|] eqn:En;
      [|apply nth_error_None in En; lia].
    rewrite (skipn_cons_nth valid _ ch En). cbn [app].
    eexists. eexists. split; [reflexivity|].
    unfold next_char. rewrite Hb, load_app, En by exact Hlt.
    split; [reflexivity|].
    reader_fields.
    match goal with |- well_formed ?r2 = true /\ _ =>
      destruct (rep_well_formed r2 valid junk)
        as [H1 H2]; reader_fields; auto; try lia
    end.
    split; [exact H1|]. split; [|split; [split|]; reflexivity].
    rewrite H2. reflexivity.
Qed.

(** ** The loop of [read] *)

Lemma read_loop_spec (d : ascii) :
  forall (bytes : list ascii) (s : loop_state) (fuel : nat)
         (acc : list ascii),
    well_formed (this s) = true ->
    Ascii.eqb (_M_delimiter (this s)) LF = false ->
    _M_delimiter (this s) = d ->
    pending (this s) = bytes ->
    List.length (output s) = capacity s ->
    write_pos s < capacity s ->
    firstn (write_pos s) (output s) = map Some acc ->
    List.length bytes < fuel ->
    (2 * Z.of_nat (write_pos s + fst (mmap_line_reader.scan d bytes))
     < 2 ^ 64)%Z ->
    exists s',
      loop read_iteration fuel s = Returned s' /\
      well_formed (this s') = true /\
      same_mode (this s) (this s') /\
      _M_offset (this s') = _M_offset (this s) /\
      pending (this s') =
        skipn (fst (mmap_line_reader.scan d bytes)) bytes /\
      write_pos s' = write_pos s + fst (mmap_line_reader.scan d bytes) /\
      found_delimiter s' =
        snd (mmap_line_reader.scan d bytes) || found_delimiter s /\
      List.length (output s') = capacity s' /\
      write_pos s' < capacity s' /\
      capacity s <= capacity s' /\
      capacity s' <= Nat.max (capacity s) (2 * (write_pos s' + 1)) /\
      firstn (write_pos s') (output s') =
        map Some (acc ++ firstn (fst (mmap_line_reader.scan d bytes)) bytes)
      /\
      (bytes = [] -> output s' = output s /\ capacity s' = capacity s).
Proof.
  induction bytes as [|ch rest IH];
    intros s fuel acc Hw Hlf Hd Hp Hlen Hwp Hacc Hfuel Hbound;
    (destruct fuel as [|fuel]; [cbn in Hfuel; lia|]);
    cbn [loop]; unfold read_iteration;
    pose proof (take_byte (this s) Hw Hlf) as Ht; rewrite Hp in Ht.
  - destruct Ht as [r1 [Hr [Hw1 [Hp1 [Hm1 Ho1]]]]]. rewrite Hr.
    eexists. split; [reflexivity|].
    cbn [this output capacity found_delimiter write_pos
         mmap_line_reader.scan fst snd skipn firstn orb].
    rewrite Nat.add_0_r, app_nil_r.
    repeat split; try assumption; try reflexivity; try lia; apply Hm1.
  - destruct Ht as [r1 [r2 [Hr [Hn [Hw2 [Hp2 [Hm2 Ho2]]]]]]].
    rewrite Hr, Hn.
    assert (Hscan : 1 <= fst (mmap_line_reader.scan d (ch :: rest))).
    { cbn [mmap_line_reader.scan]. destruct (Ascii.eqb ch d); [cbn; lia|].
      destruct (mmap_line_reader.scan d rest). cbn. lia. }
    destruct (grow_store (output s) (capacity s) (write_pos s) ch acc
                Hlen Hwp Hacc)
      as [out1 [cap2 [out2 [Hg [Hs [Hl2 [Hc2 [Hcap Hf2]]]]]]]]; [lia|].
    rewrite Hg, Hs. destruct Hm2 as [Hd2 Hs2]. rewrite Hd2, Hd.
    cbn [mmap_line_reader.scan] in Hbound |- *.
    destruct (Ascii.eqb ch d) eqn:Ed.
    + eexists. split; [reflexivity|].
      cbn [this output capacity found_delimiter write_pos fst snd skipn
           firstn orb].
      split; [exact Hw2|]. split; [split; assumption|].
      split; [exact Ho2|]. split; [exact Hp2|]. split; [lia|].
      split; [reflexivity|]. split; [exact Hl2|]. split; [lia|].
      split; [lia|]. split; [lia|]. split; [|discriminate].
      replace (write_pos s + 1) with (S (write_pos s)) by lia. exact Hf2.
    + match goal with |- exists s', loop _ _ ?s1 = _ /\ _ =>
        destruct (IH s1 fuel (acc ++ [ch]))
          as [s' [H1 [H2 [H3 [H4 [H5 [H6 [H7 [H8 [H9 [H10 [Hu [H11 _]]]]]]]]]]]]];
          cbn [this output capacity found_delimiter write_pos] in *
      end; try assumption.
      * rewrite Hd2. exact Hlf.
      * rewrite Hd2. exact Hd.
      * cbn [List.length] in Hfuel. lia.
      * destruct (mmap_line_reader.scan d rest) as [n f].
        cbn [fst] in *. lia.
      * exists s'. split; [exact H1|].
        destruct (mmap_line_reader.scan d rest) as [n f].
        cbn [fst snd skipn firstn] in *.
        split; [exact H2|].
        split; [destruct H3; split; congruence|].
        split; [congruence|]. split; [exact H5|]. split; [lia|].
        split; [exact H7|]. split; [exact H8|]. split; [exact H9|].
        split; [lia|]. split; [lia|]. split; [|discriminate].
        rewrite H11, <- app_assoc. reflexivity.
Qed.

(** ** What [read] returns *)

(** The bytes that are left, as a file that [mmap_line_reader] maps. *)
Definition as_mapped (r : reader) : mmap_line_reader.reader :=
  {| mmap_line_reader.data := pending r;
     mmap_line_reader._M_delimiter := _M_delimiter r;
     mmap_line_reader._M_strip_delimiter := _M_strip_delimiter r |}.

(** [res] is what [mmap_line_reader::read] gives at the start of the bytes
    that are left: the same line, now in [output] and followed by a [NUL],
    its length in [size], and as many bytes consumed; or [false], and then
    nothing is left and the parameters are as they were. *)
Definition reads_like_mapped
  (r : reader) (output : list cell) (size capacity : nat)
  (res : read_result) : Prop :=
  well_formed (reader_after res) = true /\
  same_mode r (reader_after res) /\
  List.length (output_after res) = capacity_after res /\
  capacity <= capacity_after res /\
  match mmap_line_reader.read (as_mapped r) 0 with
  | Some (line, consumed) =>
      returned res = true /\
      size_after res = List.length line /\
      line_at (output_after res) (size_after res) = Some line /\
      load (output_after res) (size_after res) = Some NUL /\
      capacity_after res <= Nat.max capacity (2 * (consumed + 1)) /\
      pending (reader_after res) = skipn consumed (pending r) /\
      _M_offset (reader_after res) = _M_offset r + consumed
  | None =>
      returned res = false /\
      size_after res = size /\
      output_after res = output /\
      capacity_after res = capacity /\
      pending (reader_after res) = [] /\
      _M_offset (reader_after res) = _M_offset r
  end.

Lemma scan_le (d : ascii) (bytes : list ascii) :
  fst (mmap_line_reader.scan d bytes) <= List.length bytes /\
  (bytes <> [] -> 1 <= fst (mmap_line_reader.scan d bytes)).
Proof.
  induction bytes as [|ch bytes IH]; cbn [mmap_line_reader.scan].
  - split; [cbn; lia|congruence].
  - destruct (Ascii.eqb ch d); [cbn; split; lia|].
    destruct (mmap_line_reader.scan d bytes) as [n f]. cbn in *.
    split; [lia|intros _; lia].
Qed.

(** The statements of [read] after a loop that has put the first [n] bytes
    of [bytes] into [output]. *)
Lemma finish_spec (s : loop_state) (size : nat) (bytes : list ascii) :
  List.length (output s) = capacity s ->
  write_pos s < capacity s ->
  firstn (write_pos s) (output s) =
    map Some (firstn (write_pos s) bytes) ->
  write_pos s <= List.length bytes ->
  exists res,
    finish s size = Returned res /\
    well_formed (reader_after res) = well_formed (this s) /\
    pending (reader_after res) = pending (this s) /\
    same_mode (this s) (reader_after res) /\
    _M_offset (reader_after res) = _M_offset (this s) + write_pos s /\
    List.length (output_after res) = capacity_after res /\
    capacity_after res = capacity s /\
    if write_pos s =? 0 then
      returned res = false /\ size_after res = size /\
      output_after res = output s
    else
      let k :=
        write_pos s
        - (if found_delimiter s && _M_strip_delimiter (this s)
           then 1 else 0) in
      returned res = true /\
      size_after res = List.length (firstn k bytes) /\
      line_at (output_after res) (size_after res) = Some (firstn k bytes) /\
      load (output_after res) (size_after res) = Some NUL.
Proof.
  intros Hlen Hwp Hacc Hle. unfold finish.
  destruct (Nat.eqb_spec (write_pos s) 0) as [E|E].
  - eexists. split; [reflexivity|].
    cbn [reader_after output_after size_after capacity_after returned].
    repeat split; try assumption; reflexivity.
  - set (k := write_pos s
              - (if found_delimiter s && _M_strip_delimiter (this s)
                 then 1 else 0)).
    assert (Hk : (if found_delimiter s && _M_strip_delimiter (this s)
                  then write_pos s - 1 else write_pos s) = k).
    { unfold k. destruct (found_delimiter s && _M_strip_delimiter (this s));
        lia. }
    rewrite Hk.
    assert (Hkw : k <= write_pos s) by (unfold k; lia).
    unfold store. rewrite write_chars_fits by (cbn [List.length]; lia).
    eexists. split; [reflexivity|].
    cbn [reader_after output_after size_after capacity_after returned].
    assert (Hfk : List.length (firstn k bytes) = k)
      by (rewrite length_firstn; lia).
    assert (Hpre : firstn k (output s) = map Some (firstn k bytes)).
    { rewrite <- (firstn_firstn_le (output s) k (write_pos s) Hkw), Hacc.
      rewrite <- firstn_map, firstn_firstn_le by exact Hkw.
      now rewrite firstn_map. }
    repeat split; try reflexivity.
    + rewrite !length_app, length_map, length_firstn, length_skipn.
      cbn [List.length]. lia.
    + symmetry. exact Hfk.
    + unfold line_at. rewrite Hpre.
      rewrite firstn_app_exact by (rewrite length_map; lia).
      apply chars_map.
    + unfold load. rewrite Hpre.
      rewrite nth_error_app2 by (rewrite length_map; lia).
      rewrite length_map, Hfk, Nat.sub_diag. reflexivity.
Qed.

Lemma read_delimited_spec (r : reader) (out : list cell) (size cap : nat) :
  well_formed r = true ->
  Ascii.eqb (_M_delimiter r) LF = false ->
  List.length out = cap -> 1 <= cap ->
  (Z.of_nat (List.length (pending r)) < 2 ^ 63)%Z ->
  exists res,
    read r out size cap = Returned res /\
    reads_like_mapped r out size cap res.
Proof.
  intros Hw Hlf Hlen Hcap Hbound. unfold read. rewrite Hlf.
  pose proof (scan_le (_M_delimiter r) (pending r)) as [Hn Hn1].
  set (s0 := {| this := r; output := out; capacity := cap;
                found_delimiter := false; write_pos := 0 |}).
  destruct (read_loop_spec (_M_delimiter r) (pending r) s0
              (S (BUFFER_SIZE + List.length (_M_stream r))) [])
    as [s' [H1 [H2 [H3 [H4 [H5 [H6 [H7 [H8 [H9 [H10 [Hu [H11 H12]]]]]]]]]]]]];
    cbn [this output capacity found_delimiter write_pos s0 firstn map
         Nat.add app] in *;
    try assumption; try reflexivity; try lia.
  { destruct (well_formed_rep r Hw Hlf) as [v [j [Hb [Hl [Hj Hp]]]]].
    destruct (rep_well_formed r v j Hb Hl Hj Hp Hlf) as [_ ->].
    rewrite length_app, length_skipn. lia. }
  rewrite H1.
  destruct (finish_spec s' size (pending r)) as [res [F1 F2]];
    try assumption.
  { rewrite H11, H6. reflexivity. }
  { lia. }
  exists res. split; [exact F1|].
  destruct F2 as [F2 [F3 [F4 [F5 [F6 [F7 F8]]]]]].
  unfold reads_like_mapped.
  split; [congruence|].
  split; [destruct H3, F4; split; congruence|].
  split; [exact F6|]. split; [lia|].
  unfold mmap_line_reader.read, mmap_line_reader.size, as_mapped.
  cbn [mmap_line_reader.data mmap_line_reader._M_delimiter
       mmap_line_reader._M_strip_delimiter skipn Nat.add].
  destruct (pending r) as [|ch rest] eqn:Ep.
  - cbn [List.length Nat.eqb]. cbn [mmap_line_reader.scan fst] in H6.
    rewrite H6 in F8. cbn [Nat.eqb] in F8.
    destruct (H12 eq_refl) as [Ho Hc]. destruct F8 as [F8 [F9 F10]].
    rewrite skipn_nil in H5.
    repeat split; try assumption; try congruence. lia.
  - cbn [List.length Nat.eqb].
    specialize (Hn1 ltac:(discriminate)).
    destruct (mmap_line_reader.scan (_M_delimiter r) (ch :: rest))
      as [n f] eqn:Es.
    cbn [fst snd] in *.
    destruct (Nat.eqb_spec (write_pos s') 0) as [|_]; [lia|].
    cbv zeta in F8. rewrite H7, H6, orb_false_r in F8.
    destruct H3 as [_ H3]. rewrite H3 in F8.
    destruct F8 as [F8 [F9 [F10 F11]]].
    repeat split; try assumption; try congruence; lia.
Qed.

(** ** The loop of [get_line] *)

Lemma take_line_spec (k : nat) :
  forall stream : list ascii,
    1 <= k -> stream <> [] ->
    exists chunk last rest,
      take_line k stream = (chunk ++ [last], rest) /\
      stream = chunk ++ last :: rest /\
      List.length chunk < k /\
      if Ascii.eqb last LF
      then mmap_line_reader.scan LF stream = (S (List.length chunk), true)
      else
        mmap_line_reader.scan LF stream =
          (S (List.length chunk) + fst (mmap_line_reader.scan LF rest),
           snd (mmap_line_reader.scan LF rest)) /\
        (List.length chunk + 1 < k -> rest = []).
Proof.
  induction k as [|k IH]; intros [|ch stream] Hk Hs;
    try lia; try congruence.
  cbn [take_line mmap_line_reader.scan].
  destruct (Ascii.eqb ch LF) eqn:Ech.
  - exists [], ch, stream. rewrite Ech. repeat split. cbn. lia.
  - destruct k as [|k]; [|destruct stream as [|ch' stream]].
    + exists [], ch, stream. rewrite Ech. cbn [take_line app List.length].
      destruct (mmap_line_reader.scan LF stream) as [n f].
      repeat split; lia.
    + exists [], ch, []. rewrite Ech. cbn. repeat split; lia.
    + destruct (IH (ch' :: stream)) as [chunk [last [rest [E1 [E2 [E3 E4]]]]]];
        [lia|discriminate|].
      rewrite E1. exists (ch :: chunk), last, rest.
      split; [reflexivity|]. split; [cbn [app]; now rewrite E2|].
      split; [cbn [List.length]; lia|].
      cbn [List.length]. destruct (Ascii.eqb last LF).
      * now rewrite E4.
      * destruct E4 as [E4 E5]. rewrite E4. cbn [fst snd Nat.add].
        split; [reflexivity|]. intro H. apply E5. lia.
Qed.

Lemma strlen_chars (l : list ascii) (rest : list cell) :
  ~ In NUL l ->
  strlen (map Some l ++ Some NUL :: rest) = Some (List.length l).
Proof.
  induction l as [|ch l IH]; intro H; cbn [map app strlen List.length].
  - reflexivity.
  - destruct (Ascii.eqb_spec ch NUL) as [->|_]; [exfalso; apply H; now left|].
    rewrite IH by (intro; apply H; now right). reflexivity.
Qed.

Lemma to_int_small (capacity write_pos : nat) :
  write_pos <= capacity -> (Z.of_nat capacity < 2 ^ 31)%Z ->
  to_int (size_sub capacity write_pos)
  = (Z.of_nat capacity - Z.of_nat write_pos)%Z.
Proof.
  intros H1 H2. unfold to_int, size_sub.
  rewrite (Z.mod_small (Z.of_nat capacity - Z.of_nat write_pos)) by lia.
  rewrite Z.mod_small by lia. lia.
Qed.

Lemma grow_spec (out : list cell) (cap wp : nat) (acc : list ascii) :
  List.length out = cap -> wp < cap ->
  firstn wp out = map Some acc ->
  (2 * (Z.of_nat wp + 1) < 2 ^ 64)%Z ->
  exists out2 cap2,
    grow out cap wp = Some (out2, cap2) /\
    List.length out2 = cap2 /\ wp + 2 <= cap2 /\
    (cap2 = cap /\ out2 = out \/ cap2 = 2 * cap /\ cap = wp + 1) /\
    firstn wp out2 = map Some acc.
Proof.
  intros Hlen Hwp Hacc Hbound. unfold grow.
  destruct (Nat.eqb_spec (wp + 1) cap) as [E|E].
  - rewrite size_mul2_small by lia.
    unfold expand, memcpy, new_char. rewrite repeat_length.
    destruct (Nat.leb_spec wp (List.length out)) as [_|]; [|lia].
    destruct (Nat.leb_spec wp (2 * cap)) as [_|]; [|lia].
    cbn [andb]. eexists. eexists. split; [reflexivity|].
    split; [rewrite length_app, length_firstn, length_skipn, repeat_length;
            lia|].
    split; [lia|]. split; [right; lia|].
    rewrite <- Hacc. apply firstn_app_exact. rewrite length_firstn. lia.
  - exists out, cap. split; [reflexivity|]. split; [exact Hlen|].
    split; [lia|]. split; [left; split; reflexivity|exact Hacc].
Qed.

Lemma get_line_loop_spec (fuel : nat) :
  forall (s : loop_state) (acc : list ascii),
    let bytes := _M_stream (this s) in
    let n := fst (mmap_line_reader.scan LF bytes) in
    List.length bytes < fuel ->
    List.length (output s) = capacity s ->
    write_pos s + 2 <= capacity s ->
    firstn (write_pos s) (output s) = map Some acc ->
    ~ In NUL (firstn n bytes) ->
    (Z.of_nat (capacity s) < 2 ^ 31)%Z ->
    (2 * Z.of_nat (write_pos s + n) + 2 < 2 ^ 31)%Z ->
    exists s',
      loop get_line_iteration fuel s = Returned s' /\
      this s' = set_stream (this s) (skipn n bytes) /\
      write_pos s' = write_pos s + n /\
      found_delimiter s' =
        snd (mmap_line_reader.scan LF bytes) || found_delimiter s /\
      List.length (output s') = capacity s' /\
      write_pos s' < capacity s' /\
      capacity s <= capacity s' /\
      capacity s' <= Nat.max (capacity s) (2 * (write_pos s' + 1)) /\
      firstn (write_pos s') (output s') = map Some (acc ++ firstn n bytes)
      /\
      (bytes = [] -> output s' = output s /\ capacity s' = capacity s).
Proof.
  induction fuel as [|fuel IH]; intros s acc; cbv zeta;
    remember (_M_stream (this s)) as bytes eqn:Hbytes;
    intros Hfuel Hlen Hwp Hacc Hnul Hcap Hbound; [lia|].
  cbn [loop]. unfold get_line_iteration.
  rewrite to_int_small by lia. unfold fgets.
  destruct (Z.leb_spec (Z.of_nat (capacity s) - Z.of_nat (write_pos s)) 0)
    as [|_]; [lia|].
  destruct (Z.eqb_spec (Z.of_nat (capacity s) - Z.of_nat (write_pos s)) 1)
    as [|_]; [lia|].
  rewrite <- Hbytes.
  destruct bytes as [|ch0 bytes0].
  - exists s. cbn [mmap_line_reader.scan fst snd skipn firstn orb].
    rewrite Nat.add_0_r, app_nil_r.
    split; [reflexivity|].
    split; [unfold set_stream; rewrite Hbytes; now destruct (this s)|].
    repeat split; try assumption; try reflexivity; lia.
  - remember (ch0 :: bytes0) as bytes eqn:Eb.
    assert (Hne : bytes <> []) by (rewrite Eb; discriminate).
    destruct (take_line_spec
                (Z.to_nat (Z.of_nat (capacity s) - Z.of_nat (write_pos s) - 1))
                bytes)
      as [chunk [last [rest [E1 [E2 [E3 E4]]]]]]; [lia|exact Hne|].
    rewrite E1.
    assert (Hn : S (List.length chunk)
                 <= fst (mmap_line_reader.scan LF bytes)).
    { destruct (Ascii.eqb last LF); [rewrite E4; cbn; lia|].
      destruct E4 as [E4 _]. rewrite E4. cbn. lia. }
    assert (Hline : firstn (S (List.length chunk)) bytes = chunk ++ [last]).
    { rewrite E2.
      replace (chunk ++ last :: rest) with ((chunk ++ [last]) ++ rest)
        by (now rewrite <- app_assoc).
      apply firstn_app_exact. rewrite length_app. cbn [List.length]. lia. }
    assert (Hnul1 : ~ In NUL (chunk ++ [last])).
    { rewrite <- Hline. intro Hin. apply Hnul.
      rewrite <- (firstn_firstn_le bytes _ _ Hn) in Hin.
      exact (in_firstn _ _ _ Hin). }
    rewrite write_chars_fits
      by (rewrite !length_app; cbn [List.length]; lia).
    rewrite skipn_app_exact by (rewrite length_firstn; lia).
    replace (map Some ((chunk ++ [last]) ++ [NUL]))
      with (map Some (chunk ++ [last]) ++ [Some NUL])
      by (now rewrite (map_app Some (chunk ++ [last]))).
    rewrite <- (app_assoc (map Some (chunk ++ [last]))). cbn [app].
    rewrite strlen_chars by exact Hnul1.
    set (line := chunk ++ [last]) in *.
    assert (Hll : List.length line = S (List.length chunk))
      by (unfold line; rewrite length_app; cbn [List.length]; lia).
    replace (List.length (line ++ [NUL])) with (S (List.length line))
      by (rewrite length_app; cbn [List.length]; lia).
    set (out1 := firstn (write_pos s) (output s) ++ map Some line
                 ++ Some NUL
                 :: skipn (write_pos s + S (List.length line)) (output s)).
    assert (Hlen1 : List.length out1 = capacity s).
    { unfold out1. rewrite !length_app, length_firstn, length_map.
      cbn [List.length]. rewrite length_skipn. lia. }
    assert (Hpre1 : firstn (write_pos s + List.length line) out1
                    = map Some (acc ++ line)).
    { unfold out1. rewrite Hacc, app_assoc, <- map_app.
      apply firstn_app_exact. rewrite length_map, length_app.
      apply (f_equal (@List.length _)) in Hacc.
      rewrite length_firstn, length_map in Hacc. lia. }
    assert (Hlast : load out1 (write_pos s + List.length line - 1)
                    = Some last).
    { unfold load, out1.
      rewrite nth_error_app2 by (rewrite length_firstn; lia).
      rewrite length_firstn, nth_error_app1 by (rewrite length_map; lia).
      replace (write_pos s + List.length line - 1
               - Nat.min (write_pos s) (List.length (output s)))
        with (List.length chunk) by lia.
      unfold line. rewrite map_app.
      rewrite nth_error_app2 by (rewrite length_map; lia).
      rewrite length_map, Nat.sub_diag. reflexivity. }
    destruct (Nat.eqb_spec (write_pos s + List.length line) 0) as [|_];
      [lia|].
    rewrite Hlast.
    assert (Hskip : forall k, skipn (S (List.length chunk) + k) bytes
                              = skipn k rest).
    { intro k. rewrite E2.
      replace (chunk ++ last :: rest) with (line ++ rest)
        by (unfold line; now rewrite <- app_assoc).
      rewrite <- Hll. apply skipn_app_plus. }
    assert (Hfirst : forall k, firstn (S (List.length chunk) + k) bytes
                               = line ++ firstn k rest).
    { intro k. rewrite E2.
      replace (chunk ++ last :: rest) with (line ++ rest)
        by (unfold line; now rewrite <- app_assoc).
      rewrite <- Hll. apply firstn_app_2. }
    destruct (Ascii.eqb last LF).
    + rewrite E4. cbn [fst snd orb].
      eexists. split; [reflexivity|].
      cbn [this output capacity found_delimiter write_pos].
      pose proof (Hskip 0) as Hs0. pose proof (Hfirst 0) as Hf0.
      rewrite Nat.add_0_r in Hs0, Hf0. rewrite Hs0, Hf0.
      cbn [skipn firstn]. rewrite app_nil_r.
      split; [reflexivity|]. split; [lia|]. split; [reflexivity|].
      split; [exact Hlen1|]. split; [lia|]. split; [lia|]. split; [lia|].
      split; [|rewrite Eb; discriminate].
      exact Hpre1.
    + destruct E4 as [E4 E5]. rewrite E4 in *. cbn [fst snd] in *.
      destruct (grow_spec out1 (capacity s)
                  (write_pos s + List.length line) (acc ++ line))
        as [out2 [cap2 [G1 [G2 [G3 [G4 G5]]]]]]; try assumption; try lia.
      rewrite G1.
      match goal with |- exists s', loop _ _ ?s1 = _ /\ _ =>
        destruct (IH s1 (acc ++ line))
          as [s' [H1 [H2 [H3 [H4 [H5 [H6 [H7 [Hu [H8 _]]]]]]]]]];
          cbn [this output capacity found_delimiter write_pos set_stream
               _M_stream] in *
      end; try assumption; try lia.
      * rewrite E2, length_app in Hfuel. cbn [List.length] in Hfuel. lia.
      * intro Hin. apply Hnul. rewrite Hfirst. apply in_or_app. now right.
      * exists s'. split; [exact H1|].
        rewrite Hskip, Hfirst.
        split; [rewrite H2; reflexivity|]. split; [lia|].
        split; [exact H4|]. split; [exact H5|]. split; [exact H6|].
        split; [lia|]. split; [lia|]. split; [|rewrite Eb; discriminate].
        rewrite H8, <- app_assoc. reflexivity.
Qed.

(** The bytes of the next line, with its delimiter if it has one. *)
Definition next_line (r : reader) : list ascii :=
  firstn (fst (mmap_line_reader.scan (_M_delimiter r) (pending r)))
    (pending r).

Lemma newline_mode (r : reader) :
  well_formed r = true -> Ascii.eqb (_M_delimiter r) LF = true ->
  _M_buffer r = None /\ pending r = _M_stream r.
Proof.
  unfold well_formed, pending. intros H E. rewrite E in H.
  destruct (_M_buffer r); [discriminate|]. split; reflexivity.
Qed.

Lemma read_newline_spec (r : reader) (out : list cell) (size cap : nat) :
  well_formed r = true ->
  Ascii.eqb (_M_delimiter r) LF = true ->
  List.length out = cap -> 2 <= cap ->
  (Z.of_nat cap < 2 ^ 31)%Z ->
  ~ In NUL (next_line r) ->
  (2 * Z.of_nat (List.length (next_line r)) + 2 < 2 ^ 31)%Z ->
  exists res,
    read r out size cap = Returned res /\
    reads_like_mapped r out size cap res.
Proof.
  intros Hw Hlf Hlen Hcap Hint Hnul Hbound. unfold read. rewrite Hlf.
  destruct (newline_mode r Hw Hlf) as [Hb Hp].
  unfold next_line in Hnul, Hbound. rewrite Hp in Hnul, Hbound.
  apply Ascii.eqb_eq in Hlf. rewrite Hlf in Hnul, Hbound.
  pose proof (scan_le LF (_M_stream r)) as [Hn Hn1].
  rewrite length_firstn in Hbound.
  set (s0 := {| this := r; output := out; capacity := cap;
                found_delimiter := false; write_pos := 0 |}).
  unfold get_line.
  destruct (get_line_loop_spec (S (List.length (_M_stream (this s0)))) s0 [])
    as [s' [H1 [H2 [H3 [H4 [H5 [H6 [H7 [Hu [H8 H9]]]]]]]]]];
    cbn [this output capacity found_delimiter write_pos s0 firstn map
         Nat.add app] in *;
    try assumption; try reflexivity; try lia.
  rewrite H1.
  destruct (finish_spec s' size (_M_stream r)) as [res [F1 F2]];
    try assumption.
  { rewrite H8, H3. reflexivity. }
  { lia. }
  exists res. split; [exact F1|].
  destruct F2 as [F2 [F3 [F4 [F5 [F6 [F7 F8]]]]]].
  assert (Hw' : well_formed (this s') = true).
  { rewrite H2. unfold well_formed, set_stream. reader_fields.
    rewrite Hb, Hlf. reflexivity. }
  assert (Hp' : pending (this s')
                = skipn (fst (mmap_line_reader.scan LF (_M_stream r)))
                    (_M_stream r)).
  { rewrite H2. unfold pending, set_stream. reader_fields.
    rewrite Hb. reflexivity. }
  assert (Hm' : same_mode r (this s')) by (rewrite H2; split; reflexivity).
  assert (Ho' : _M_offset (this s') = _M_offset r) by now rewrite H2.
  unfold reads_like_mapped.
  split; [congruence|].
  split; [destruct Hm', F4; split; congruence|].
  split; [exact F6|]. split; [lia|].
  unfold mmap_line_reader.read, mmap_line_reader.size, as_mapped.
  cbn [mmap_line_reader.data mmap_line_reader._M_delimiter
       mmap_line_reader._M_strip_delimiter skipn Nat.add].
  rewrite Hp, Hlf.
  destruct (_M_stream r) as [|ch rest] eqn:Es.
  - cbn [List.length Nat.eqb]. cbn [mmap_line_reader.scan fst] in H3.
    rewrite H3 in F8. cbn [Nat.eqb] in F8.
    destruct (H9 eq_refl) as [Ho Hc]. destruct F8 as [F8 [F9 F10]].
    rewrite skipn_nil in Hp'.
    repeat split; try assumption; try congruence; lia.
  - cbn [List.length Nat.eqb].
    specialize (Hn1 ltac:(discriminate)).
    destruct (mmap_line_reader.scan LF (ch :: rest)) as [n f] eqn:Esc.
    cbn [fst snd] in *.
    destruct (Nat.eqb_spec (write_pos s') 0) as [|_]; [lia|].
    cbv zeta in F8. rewrite H4, H3, orb_false_r in F8.
    destruct Hm' as [_ Hm']. rewrite Hm' in F8.
    destruct F8 as [F8 [F9 [F10 F11]]].
    repeat split; try assumption; try congruence; lia.
Qed.

Lemma take_line_length (k : nat) :
  forall stream, List.length (fst (take_line k stream)) <= k.
Proof.
  induction k as [|k IH]; intros [|ch stream]; cbn [take_line fst];
    try (cbn; lia).
  destruct (Ascii.eqb ch LF); [cbn; lia|].
  specialize (IH stream). destruct (take_line k stream). cbn in *. lia.
Qed.

(** X11: for a delimiter other than the line feed, [read] returns what
    [mmap_line_reader::read] returns on the bytes that are left: the same
    line in [output], followed by a [NUL], its length in [size], and the
    offset advanced by as many bytes; or [false] when no byte is left.
    The buffer is enlarged as needed and never overrun. *)
Theorem read_delimited_like_mapped
  (r : reader) (output : list cell) (size capacity : nat) :
  well_formed r = true ->
  _M_delimiter r <> LF ->
  List.length output = capacity -> 1 <= capacity ->
  (Z.of_nat (List.length (pending r)) < 2 ^ 63)%Z ->
  exists res,
    read r output size capacity = Returned res /\
    reads_like_mapped r output size capacity res.
Proof.
  intros Hw Hd. apply read_delimited_spec; [exact Hw|].
  now apply Ascii.eqb_neq.
Qed.

(** X12: for the line feed as delimiter, where [read] goes through [fgets]
    and [strlen], it returns what [mmap_line_reader::read] returns on the
    bytes that are left, provided that the next line contains no [NUL], that
    the buffer has room for a byte and the terminator, and that the sizes
    stay in the range of [int]. *)
Theorem read_newline_like_mapped
  (r : reader) (output : list cell) (size capacity : nat) :
  well_formed r = true ->
  _M_delimiter r = LF ->
  List.length output = capacity -> 2 <= capacity ->
  (Z.of_nat capacity < 2 ^ 31)%Z ->
  ~ In NUL (next_line r) ->
  (2 * Z.of_nat (List.length (next_line r)) + 2 < 2 ^ 31)%Z ->
  exists res,
    read r output size capacity = Returned res /\
    reads_like_mapped r output size capacity res.
Proof.
  intros Hw Hd. apply read_newline_spec; [exact Hw|].
  now apply Ascii.eqb_eq.
Qed.

(** X13: with the line feed as delimiter, a line that begins with a [NUL]
    makes [get_line] read [output[write_pos - 1]] with [write_pos == 0],
    which is outside the buffer: [strlen] finds the line empty. *)
Theorem read_newline_nul_first
  (r : reader) (rest : list ascii) (output : list cell)
  (size capacity : nat) :
  _M_delimiter r = LF ->
  _M_stream r = NUL :: rest ->
  List.length output = capacity -> 2 <= capacity ->
  (Z.of_nat capacity < 2 ^ 31)%Z ->
  read r output size capacity = Undefined.
Proof.
  intros Hd Hs Hlen Hcap Hint. unfold read, get_line.
  rewrite Hd, Ascii.eqb_refl.
  cbn [loop this]. unfold get_line_iteration.
  cbn [this file_line_reader.output file_line_reader.capacity write_pos].
  rewrite to_int_small by lia. unfold fgets.
  destruct (Z.leb_spec (Z.of_nat capacity - Z.of_nat 0) 0) as [|_]; [lia|].
  destruct (Z.eqb_spec (Z.of_nat capacity - Z.of_nat 0) 1) as [|_]; [lia|].
  rewrite Hs.
  destruct (Z.to_nat (Z.of_nat capacity - Z.of_nat 0 - 1)) as [|k] eqn:Ek;
    [lia|].
  cbn [take_line]. change (Ascii.eqb NUL LF) with false. cbv iota.
  pose proof (take_line_length k rest) as Hk.
  destruct (take_line k rest) as [chunk rest']. cbn [fst] in Hk.
  rewrite write_chars_fits
    by (rewrite length_app; cbn [List.length Nat.add]; lia).
  cbn [firstn app map skipn strlen]. change (Ascii.eqb NUL NUL) with true.
  cbv iota. reflexivity.
Qed.

(** ** The iterator *)

Module iterator.
Section Iterator.
(** The readers live at addresses of type [P]; an iterator points to its
    reader, and [operator++] changes the reader that it points to. *)
Context {P : Type}.
Variable P_eq_dec : forall a b : P, {a = b} + {a <> b}.

Definition memory : Type := P -> reader.

Definition update (m : memory) (p : P) (r : reader) : memory :=
  fun q => if P_eq_dec q p then r else m q.

(** A null [_M_line] is the array without cells. *)
Record iterator : Type := {
  _M_reader : option P;
  _M_offset : nat;
  _M_line : list cell;
  _M_size : nat;
  _M_capacity : nat
}.

(** [iterator()]. *)
Definition end_ : iterator :=
  {| _M_reader := None; _M_offset := 0; _M_line := [];
     _M_size := 0; _M_capacity := 0 |}.

(** [operator++]. *)
Definition operator_inc (it : iterator) (m : memory)
  : outcome (iterator * memory) :=
  match _M_reader it with
  | None => Undefined
  | Some p =>
      match read (m p) (_M_line it) (_M_size it) (_M_capacity it) with
      | Returned res =>
          Returned
            ({| _M_reader := if returned res then Some p else None;
                _M_offset :=
                  if returned res
                  then file_line_reader._M_offset (reader_after res)
                  else 0;
                _M_line := output_after res;
                _M_size := size_after res;
                _M_capacity := capacity_after res |},
             update m p (reader_after res))
      | Undefined => Undefined
      | Unfinished => Unfinished
      end
  end.

(** [iterator(reader)], which is [begin()] for [reader == this]. *)
Definition begin (p : P) (m : memory) : outcome (iterator * memory) :=
  operator_inc
    {| _M_reader := Some p; _M_offset := 0;
       _M_line := new_char BUFFER_SIZE;
       _M_size := 0; _M_capacity := BUFFER_SIZE |}
    m.

(** [operator*]: asserts that [_M_reader] is not null. *)
Definition deref (it : iterator) : option (list cell) :=
  match _M_reader it with
  | Some _ => Some (_M_line it)
  | None => None
  end.

(** [size()]. *)
Definition size (it : iterator) : nat := _M_size it.

(** The line that [operator*] and [size()] give. *)
Definition line (it : iterator) : option (list ascii) :=
  match deref it with
  | Some output => line_at output (size it)
  | None => None
  end.

(** [operator==]. *)
Definition operator_eq (a b : iterator) : bool :=
  match _M_reader a, _M_reader b with
  | None, None => Nat.eqb (_M_offset a) (_M_offset b)
  | Some p, Some q =>
      if P_eq_dec p q then Nat.eqb (_M_offset a) (_M_offset b) else false
  | _, _ => false
  end.

Definition operator_ne (a b : iterator) : bool := negb (operator_eq a b).

(** The copy constructor. *)
Definition copy (rhs : iterator) : option iterator :=
  match _M_line rhs with
  | [] => Some {| _M_reader := _M_reader rhs;
                  _M_offset := _M_offset rhs;
                  _M_line := [];
                  _M_size := _M_size rhs;
                  _M_capacity := _M_capacity rhs |}
  | _ =>
      match memcpy (new_char (_M_capacity rhs)) (_M_line rhs)
              (_M_size rhs + 1) with
      | Some line' =>
          Some {| _M_reader := _M_reader rhs;
                  _M_offset := _M_offset rhs;
                  _M_line := line';
                  _M_size := _M_size rhs;
                  _M_capacity := _M_capacity rhs |}
      | None => None
      end
  end.

(** [n] applications of [operator++]. *)
Fixpoint increments (n : nat) (it : iterator) (m : memory)
  : outcome (iterator * memory) :=
  match n with
  | O => Returned (it, m)
  | S n' =>
      match operator_inc it m with
      | Returned (it', m') => increments n' it' m'
      | Undefined => Undefined
      | Unfinished => Unfinished
      end
  end.

(** [begin()] incremented [n] times. *)
Definition advanced (n : nat) (p : P) (m : memory)
  : outcome (iterator * memory) :=
  match begin p m with
  | Returned (it, m') => increments n it m'
  | Undefined => Undefined
  | Unfinished => Unfinished
  end.
End Iterator.
End iterator.

(** ** Iterating over the lines *)

Lemma mapped_read_at
  (bytes : list ascii) (d : ascii) (strip : bool) (o : nat) :
  o <= List.length bytes ->
  match
    mmap_line_reader.read
      {| mmap_line_reader.data := bytes;
         mmap_line_reader._M_delimiter := d;
         mmap_line_reader._M_strip_delimiter := strip |} o
  with
  | None =>
      mmap_line_reader.read
        {| mmap_line_reader.data := skipn o bytes;
           mmap_line_reader._M_delimiter := d;
           mmap_line_reader._M_strip_delimiter := strip |} 0 = None /\
      o = List.length bytes
  | Some (l, o') =>
      mmap_line_reader.read
        {| mmap_line_reader.data := skipn o bytes;
           mmap_line_reader._M_delimiter := d;
           mmap_line_reader._M_strip_delimiter := strip |} 0
      = Some (l, o' - o) /\
      o < o' <= List.length bytes
  end.
Proof.
  intro Ho. unfold mmap_line_reader.read, mmap_line_reader.size.
  cbn [mmap_line_reader.data mmap_line_reader._M_delimiter
       mmap_line_reader._M_strip_delimiter skipn Nat.add].
  rewrite length_skipn.
  destruct (Nat.eqb_spec o (List.length bytes)) as [E|E].
  - rewrite E, Nat.sub_diag. split; reflexivity.
  - destruct (Nat.eqb_spec 0 (List.length bytes - o)) as [|_]; [lia|].
    destruct (scan_le d (skipn o bytes)) as [H1 H2].
    rewrite length_skipn in H1.
    assert (Hne : skipn o bytes <> []).
    { intro Hnil. apply (f_equal (@List.length _)) in Hnil.
      rewrite length_skipn in Hnil. cbn in Hnil. lia. }
    specialize (H2 Hne).
    destruct (mmap_line_reader.scan d (skipn o bytes)) as [n f].
    cbn [fst] in *. split; [|lia].
    replace (o + n - o) with n by lia. reflexivity.
Qed.

(** The two preconditions of [read] together. *)
Lemma read_spec (r : reader) (out : list cell) (size cap : nat) :
  well_formed r = true ->
  List.length out = cap -> 2 <= cap ->
  (Z.of_nat (List.length (pending r)) < 2 ^ 63)%Z ->
  (_M_delimiter r = LF ->
   (Z.of_nat cap < 2 ^ 31)%Z /\
   ~ In NUL (pending r) /\
   (2 * Z.of_nat (List.length (pending r)) + 2 < 2 ^ 31)%Z) ->
  exists res,
    read r out size cap = Returned res /\
    reads_like_mapped r out size cap res.
Proof.
  intros Hw Hlen Hcap Hb Hlf.
  destruct (Ascii.eqb_spec (_M_delimiter r) LF) as [E|E].
  - destruct (Hlf E) as [H1 [H2 H3]].
    apply read_newline_spec; try assumption.
    + now apply Ascii.eqb_eq.
    + intro Hin. apply H2. exact (in_firstn _ _ _ Hin).
    + unfold next_line. rewrite length_firstn. lia.
  - apply read_delimited_spec; try assumption; [|lia].
    now apply Ascii.eqb_neq.
Qed.

Definition strips (strip : strip_type) : bool :=
  match strip with strip_delimiter => true | no_strip_delimiter => false end.

Lemma constructor_well_formed
  (bytes : list ascii) (d : ascii) (strip : strip_type) :
  well_formed (file_line_reader bytes d strip) = true /\
  pending (file_line_reader bytes d strip) = bytes.
Proof.
  unfold well_formed, pending, file_line_reader. reader_fields.
  destruct (Ascii.eqb d LF); split; reflexivity.
Qed.

Section Iterating.
Context {P : Type}.
Variable P_eq_dec : forall a b : P, {a = b} + {a <> b}.
Variable p : P.
Variable bytes : list ascii.
Variable d : ascii.
Variable strip : bool.

Local Abbreviation mapped :=
  {| mmap_line_reader.data := bytes;
     mmap_line_reader._M_delimiter := d;
     mmap_line_reader._M_strip_delimiter := strip |}.

Hypothesis bytes_fit : (Z.of_nat (List.length bytes) < 2 ^ 63)%Z.
Hypothesis text :
  d = LF ->
  ~ In NUL bytes /\ (2 * Z.of_nat (List.length bytes) + 2 < 2 ^ 31)%Z.

(** An iterator on the reader at [p], which has returned the first [o]
    bytes. *)
Definition iterating
  (it : @iterator.iterator P) (m : @iterator.memory P) (o : nat) : Prop :=
  well_formed (m p) = true /\
  _M_delimiter (m p) = d /\
  _M_strip_delimiter (m p) = strip /\
  pending (m p) = skipn o bytes /\
  _M_offset (m p) = o /\
  List.length (iterator._M_line it) = iterator._M_capacity it /\
  2 <= iterator._M_capacity it /\
  iterator._M_capacity it
    <= Nat.max BUFFER_SIZE (2 * (List.length bytes + 1)) /\
  iterator._M_size it < iterator._M_capacity it.

Lemma update_same (m : @iterator.memory P) (r : reader) :
  iterator.update P_eq_dec m p r p = r.
Proof.
  unfold iterator.update. destruct (P_eq_dec p p); [reflexivity|congruence].
Qed.

(** One [operator++] on an iterator that points to the reader at [p]. *)
Lemma operator_inc_spec
  (it : @iterator.iterator P) (m : @iterator.memory P) (o : nat) :
  iterating it m o -> o <= List.length bytes ->
  iterator._M_reader it = Some p ->
  exists it' m',
    iterator.operator_inc P_eq_dec it m = Returned (it', m') /\
    match mmap_line_reader.read mapped o with
    | Some (l, o') =>
        iterating it' m' o' /\ o < o' <= List.length bytes /\
        iterator._M_reader it' = Some p /\
        iterator._M_offset it' = o' /\
        iterator.line it' = Some l
    | None =>
        iterating it' m' o /\ o = List.length bytes /\
        iterator._M_reader it' = None /\
        iterator._M_offset it' = 0
    end.
Proof.
  intros [Hw [Hd [Hs [Hp [Ho [Hl [Hc2 [Hcu Hsz]]]]]]]] Hle Hr.
  assert (Hpl : List.length (pending (m p)) <= List.length bytes)
    by (rewrite Hp, length_skipn; lia).
  destruct (read_spec (m p) (iterator._M_line it) (iterator._M_size it)
              (iterator._M_capacity it))
    as [res [E [R1 [R2 [R3 [R4 R5]]]]]]; try assumption; try lia.
  { rewrite Hd. intro Hlf. destruct (text Hlf) as [T1 T2].
    split; [unfold BUFFER_SIZE in Hcu; lia|]. split; [|lia].
    intro Hin. apply T1. rewrite Hp in Hin.
    rewrite <- (firstn_skipn o bytes). apply in_or_app. now right. }
  unfold iterator.operator_inc. rewrite Hr, E.
  eexists. eexists. split; [reflexivity|].
  unfold as_mapped in R5. rewrite Hp, Hd, Hs in R5.
  pose proof (mapped_read_at bytes d strip o Hle) as Hm.
  destruct R2 as [R2 R2'].
  destruct (mmap_line_reader.read mapped o) as [[l o']|].
  - destruct Hm as [Hm Hoo]. rewrite Hm in R5.
    destruct R5 as [Q1 [Q2 [Q3 [Q4 [Q5 [Q6 Q7]]]]]].
    rewrite Q1. unfold iterating, iterator.line, iterator.deref,
      iterator.size.
    cbn [iterator._M_reader iterator._M_offset iterator._M_line
         iterator._M_size iterator._M_capacity].
    rewrite update_same.
    assert (Hlt : size_after res < capacity_after res).
    { unfold load in Q4.
      destruct (nth_error (output_after res) (size_after res)) eqn:En;
        [|discriminate].
      assert (H : nth_error (output_after res) (size_after res) <> None)
        by congruence.
      apply nth_error_Some in H. lia. }
    rewrite Q6, skipn_skipn.
    replace (o' - o + o) with o' by lia.
    repeat split; try assumption; try congruence; lia.
  - destruct Hm as [Hm Hoo]. rewrite Hm in R5.
    destruct R5 as [Q1 [Q2 [Q3 [Q4 [Q5 Q6]]]]].
    rewrite Q1. unfold iterating.
    cbn [iterator._M_reader iterator._M_offset iterator._M_line
         iterator._M_size iterator._M_capacity].
    rewrite update_same.
    assert (Hnil : skipn o bytes = [])
      by (rewrite Hoo; apply skipn_all).
    repeat split; try assumption; try congruence; try lia.
Qed.

Lemma increments_lines (fuel : nat) :
  forall (o : nat) (it : @iterator.iterator P) (m : @iterator.memory P),
    iterating it m o -> o <= List.length bytes ->
    List.length bytes - o <= fuel ->
    iterator._M_reader it = Some p ->
    let ls := mmap_line_reader.read_from fuel mapped o in
    (forall k, k < List.length ls ->
       exists it' m' o',
         iterator.increments P_eq_dec (S k) it m = Returned (it', m') /\
         iterating it' m' o' /\
         iterator._M_reader it' = Some p /\
         iterator.line it' = nth_error ls k /\
         o' <= List.length bytes /\
         mmap_line_reader.read_from (List.length bytes - o') mapped o'
         = skipn (S k) ls) /\
    (exists it' m' o',
        iterator.increments P_eq_dec (S (List.length ls)) it m
        = Returned (it', m') /\
        iterating it' m' o' /\
        iterator._M_reader it' = None /\
        iterator._M_offset it' = 0).
Proof.
  induction fuel as [|fuel IH]; intros o it m Hit Hle Hfuel Hr; cbv zeta;
    destruct (operator_inc_spec it m o Hit Hle Hr) as [it1 [m1 [E1 H1]]];
    cbn [mmap_line_reader.read_from iterator.increments]; rewrite E1.
  - assert (Ho : o = List.length bytes) by lia.
    rewrite Ho in H1. rewrite mmap_line_reader.read_at_end in H1.
    destruct H1 as [H1 [_ [H2 H3]]].
    split; [intros k Hk; cbn in Hk; lia|].
    exists it1, m1, (List.length bytes).
    cbn [List.length iterator.increments].
    split; [reflexivity|]. split; [exact H1|]. split; assumption.
  - destruct (mmap_line_reader.read mapped o) as [[l o']|].
    + destruct H1 as [H1 [H2 [H3 [H4 H5]]]].
      destruct (IH o' it1 m1 H1) as [I1 I2]; try lia; try assumption.
      cbv zeta in I1, I2. split.
      * intros [|k] Hk.
        -- exists it1, m1, o'. cbn [iterator.increments nth_error skipn].
           split; [reflexivity|]. split; [exact H1|].
           split; [assumption|]. split; [assumption|]. split; [lia|].
           apply mmap_line_reader.read_from_fuel;
             unfold mmap_line_reader.size; cbn [mmap_line_reader.data];
             lia.
        -- cbn [List.length] in Hk. cbn [nth_error]. apply I1. lia.
      * cbn [List.length]. exact I2.
    + destruct H1 as [H1 [_ [H2 H3]]].
      split; [intros k Hk; cbn in Hk; lia|].
      exists it1, m1, o. cbn [List.length iterator.increments].
      split; [reflexivity|]. split; [exact H1|]. split; assumption.
Qed.

Lemma advanced_lines
  (m : @iterator.memory P) (strip_type_ : strip_type) :
  m p = file_line_reader bytes d strip_type_ ->
  strips strip_type_ = strip ->
  (forall k, k < List.length (mmap_line_reader.lines mapped) ->
     exists it' m' o',
       iterator.advanced P_eq_dec k p m = Returned (it', m') /\
       iterating it' m' o' /\
       iterator._M_reader it' = Some p /\
       iterator.line it' = nth_error (mmap_line_reader.lines mapped) k /\
       o' <= List.length bytes /\
       mmap_line_reader.read_from (List.length bytes - o') mapped o'
       = skipn (S k) (mmap_line_reader.lines mapped)) /\
  (exists it' m' o',
      iterator.advanced P_eq_dec
        (List.length (mmap_line_reader.lines mapped)) p m
      = Returned (it', m') /\
      iterating it' m' o' /\
      iterator._M_reader it' = None /\
      iterator._M_offset it' = 0).
Proof.
  intros Hm Hs.
  destruct (constructor_well_formed bytes d strip_type_) as [Hw Hp].
  apply (increments_lines (List.length bytes) 0
           {| iterator._M_reader := Some p; iterator._M_offset := 0;
              iterator._M_line := new_char BUFFER_SIZE;
              iterator._M_size := 0;
              iterator._M_capacity := BUFFER_SIZE |} m);
    try lia; try reflexivity.
  unfold iterating. rewrite Hm, Hw, Hp.
  cbn [iterator._M_line iterator._M_capacity iterator._M_size skipn].
  unfold new_char. rewrite repeat_length. unfold BUFFER_SIZE.
  repeat split; try assumption; lia.
Qed.

Lemma copy_spec (it : @iterator.iterator P) (m : @iterator.memory P)
  (o : nat) :
  iterating it m o ->
  exists it',
    iterator.copy it = Some it' /\
    iterator._M_reader it' = iterator._M_reader it /\
    iterator._M_offset it' = iterator._M_offset it /\
    iterator._M_size it' = iterator._M_size it /\
    iterator._M_capacity it' = iterator._M_capacity it /\
    List.length (iterator._M_line it') = iterator._M_capacity it /\
    firstn (iterator._M_size it + 1) (iterator._M_line it')
    = firstn (iterator._M_size it + 1) (iterator._M_line it).
Proof.
  intros [_ [_ [_ [_ [_ [Hl [Hc2 [_ Hsz]]]]]]]]. unfold iterator.copy.
  destruct (iterator._M_line it) as [|c line] eqn:El;
    [cbn in Hl; lia|].
  rewrite <- El in *. unfold memcpy, new_char. rewrite repeat_length.
  destruct (Nat.leb_spec (iterator._M_size it + 1)
              (List.length (iterator._M_line it))) as [_|]; [|lia].
  destruct (Nat.leb_spec (iterator._M_size it + 1)
              (iterator._M_capacity it)) as [_|]; [|lia].
  cbn [andb]. eexists. split; [reflexivity|].
  cbn [iterator._M_reader iterator._M_offset iterator._M_line
       iterator._M_size iterator._M_capacity].
  repeat split.
  - rewrite length_app, length_firstn, length_skipn, repeat_length. lia.
  - apply firstn_app_exact. rewrite length_firstn. lia.
Qed.
Lemma skipn_eq_cons {A : Type} (l : list A) (k : nat) (x : A)
  (rest : list A) :
  skipn k l = x :: rest -> nth_error l k = Some x /\ skipn (S k) l = rest.
Proof.
  revert l. induction k as [|k IH]; intros [|y l] E; try discriminate.
  - injection E as -> ->. split; reflexivity.
  - cbn [skipn] in E. cbn [nth_error]. now apply IH.
Qed.

(** The line that [read] returns at [o], when the lines from [o] on are
    those from rank [k] on. *)
Lemma next_of_rest (ls : list (list ascii)) (o k : nat) :
  o <= List.length bytes ->
  mmap_line_reader.read_from (List.length bytes - o) mapped o = skipn k ls ->
  k < List.length ls ->
  exists l o',
    mmap_line_reader.read mapped o = Some (l, o') /\
    nth_error ls k = Some l /\
    (o' <= List.length bytes ->
     mmap_line_reader.read_from (List.length bytes - o') mapped o'
     = skipn (S k) ls).
Proof.
  intros Ho Hrest Hk.
  assert (Hne : skipn k ls <> []).
  { intro Hnil. apply (f_equal (@List.length _)) in Hnil.
    rewrite length_skipn in Hnil. cbn in Hnil. lia. }
  destruct (List.length bytes - o) as [|f] eqn:Ef;
    cbn [mmap_line_reader.read_from] in Hrest; [congruence|].
  destruct (mmap_line_reader.read mapped o) as [[l o']|] eqn:Er;
    [|congruence].
  symmetry in Hrest. apply skipn_eq_cons in Hrest.
  destruct Hrest as [Hn Hs]. exists l, o'. split; [reflexivity|].
  split; [exact Hn|]. intro Ho'. rewrite Hs.
  destruct (mmap_line_reader.read_advances mapped o) as [l' [o'' [E Hoo]]];
    [unfold mmap_line_reader.size; cbn [mmap_line_reader.data]; lia|].
  rewrite Er in E. injection E as <- <-.
  unfold mmap_line_reader.size in Hoo. cbn [mmap_line_reader.data] in Hoo.
  apply mmap_line_reader.read_from_fuel;
    unfold mmap_line_reader.size; cbn [mmap_line_reader.data]; lia.
Qed.

(** The reader of one state and the buffer of an iterator of another. *)
Lemma iterating_transfer
  (a b : @iterator.iterator P) (m m' : @iterator.memory P) (o o' : nat) :
  iterating a m o -> iterating b m' o' -> iterating a m' o'.
Proof.
  intros [_ [_ [_ [_ [_ Ha]]]]] [H1 [H2 [H3 [H4 [H5 _]]]]].
  unfold iterating. repeat split; try assumption; apply Ha.
Qed.

Lemma shared_stream_spec
  (m : @iterator.memory P) (strip_type_ : strip_type) (k : nat) :
  m p = file_line_reader bytes d strip_type_ ->
  strips strip_type_ = strip ->
  k + 2 < List.length (mmap_line_reader.lines mapped) ->
  exists it m1 c,
    iterator.advanced P_eq_dec k p m = Returned (it, m1) /\
    iterator.copy it = Some c /\
    iterator.line it = nth_error (mmap_line_reader.lines mapped) k /\
    exists c' m2,
      iterator.operator_inc P_eq_dec c m1 = Returned (c', m2) /\
      iterator.line c'
      = nth_error (mmap_line_reader.lines mapped) (k + 1) /\
      exists it' m3,
        iterator.operator_inc P_eq_dec it m2 = Returned (it', m3) /\
        iterator.line it'
        = nth_error (mmap_line_reader.lines mapped) (k + 2).
Proof.
  intros Hm Hs Hk.
  destruct (advanced_lines m strip_type_ Hm Hs) as [H1 _].
  destruct (H1 k) as [it [m1 [o [E [Hi [Hr [Hl [Ho Hrest]]]]]]]]; [lia|].
  destruct (copy_spec it m1 o Hi) as [c [C1 [C2 [C3 [C4 [C5 [C6 C7]]]]]]].
  exists it, m1, c. split; [exact E|]. split; [exact C1|].
  split; [exact Hl|].
  assert (Hc : iterating c m1 o).
  { destruct Hi as [I1 [I2 [I3 [I4 [I5 [I6 [I7 [I8 I9]]]]]]]].
    unfold iterating. rewrite C4, C5, C6.
    repeat split; assumption. }
  destruct (next_of_rest (mmap_line_reader.lines mapped) o (S k) Ho Hrest)
    as [l1 [o1 [R1 [N1 F1]]]]; [lia|].
  destruct (operator_inc_spec c m1 o Hc Ho) as [c' [m2 [E2 H2]]];
    [congruence|].
  rewrite R1 in H2. destruct H2 as [Hi2 [Ho2 [_ [_ Hl2]]]].
  exists c', m2. split; [exact E2|].
  split; [rewrite Hl2, <- N1; f_equal; lia|].
  specialize (F1 ltac:(lia)).
  destruct (next_of_rest (mmap_line_reader.lines mapped) o1 (S (S k)))
    as [l2 [o2 [R2 [N2 _]]]]; [lia|exact F1|lia|].
  pose proof (iterating_transfer it c' m1 m2 o o1 Hi Hi2) as Hi3.
  destruct (operator_inc_spec it m2 o1 Hi3) as [it' [m3 [E3 H3]]];
    [lia|exact Hr|].
  rewrite R2 in H3. destruct H3 as [_ [_ [_ [_ Hl3]]]].
  exists it', m3. split; [exact E3|].
  rewrite Hl3, <- N2. f_equal. lia.
Qed.
End Iterating.

(** X14: iterating over a freshly constructed reader yields the lines that
    [mmap_line_reader] finds in the same bytes, in the same order: after
    [k] increments of [begin()] the iterator holds line [k], and after as
    many increments as there are lines it equals [end()].  For the line
    feed as delimiter this needs a file without [NUL] whose size stays in
    the range of [int] after doubling. *)
Theorem file_iterator_yields_mapped_lines
  {P : Type} (P_eq_dec : forall a b : P, {a = b} + {a <> b}) (p : P)
  (m : @iterator.memory P) (bytes : list ascii) (d : ascii)
  (strip : strip_type) (k : nat) :
  m p = file_line_reader bytes d strip ->
  (Z.of_nat (List.length bytes) < 2 ^ 63)%Z ->
  (d = LF ->
   ~ In NUL bytes /\ (2 * Z.of_nat (List.length bytes) + 2 < 2 ^ 31)%Z) ->
  let lines :=
    mmap_line_reader.lines
      {| mmap_line_reader.data := bytes;
         mmap_line_reader._M_delimiter := d;
         mmap_line_reader._M_strip_delimiter := strips strip |} in
  (k < List.length lines ->
   exists it m',
     iterator.advanced P_eq_dec k p m = Returned (it, m') /\
     iterator.line it = nth_error lines k /\
     iterator.operator_eq P_eq_dec it iterator.end_ = false) /\
  (exists it m',
      iterator.advanced P_eq_dec (List.length lines) p m
      = Returned (it, m') /\
      iterator.deref it = None /\
      iterator.operator_eq P_eq_dec it iterator.end_ = true).
Proof.
  intros Hm Hfit Htext. cbv zeta.
  destruct (advanced_lines P_eq_dec p bytes d (strips strip) Hfit Htext
              m strip Hm eq_refl) as [H1 [it [m' [o [E [_ [Hr Ho]]]]]]].
  split.
  - intro Hk. destruct (H1 k Hk) as [it1 [m1 [o1 [E1 [_ [Hr1 [Hl1 _]]]]]]].
    exists it1, m1. split; [exact E1|]. split; [exact Hl1|].
    unfold iterator.operator_eq. rewrite Hr1. reflexivity.
  - exists it, m'. split; [exact E|].
    unfold iterator.deref, iterator.operator_eq. rewrite Hr, Ho.
    split; reflexivity.
Qed.

(** X15: the copy constructor, which copies [_M_size + 1] bytes into a new
    buffer of [_M_capacity] bytes, stays inside both buffers for every
    iterator reached from [begin()]; the copy compares equal to the
    original and holds the same line with its terminator. *)
Theorem file_iterator_copy
  {P : Type} (P_eq_dec : forall a b : P, {a = b} + {a <> b}) (p : P)
  (m : @iterator.memory P) (bytes : list ascii) (d : ascii)
  (strip : strip_type) (k : nat) :
  m p = file_line_reader bytes d strip ->
  (Z.of_nat (List.length bytes) < 2 ^ 63)%Z ->
  (d = LF ->
   ~ In NUL bytes /\ (2 * Z.of_nat (List.length bytes) + 2 < 2 ^ 31)%Z) ->
  k <= List.length
         (mmap_line_reader.lines
            {| mmap_line_reader.data := bytes;
               mmap_line_reader._M_delimiter := d;
               mmap_line_reader._M_strip_delimiter := strips strip |}) ->
  exists it m' it',
    iterator.advanced P_eq_dec k p m = Returned (it, m') /\
    iterator.copy it = Some it' /\
    iterator.operator_eq P_eq_dec it it' = true /\
    iterator.size it' = iterator.size it /\
    iterator.line it' = iterator.line it /\
    load (iterator._M_line it') (iterator.size it')
    = load (iterator._M_line it) (iterator.size it).
Proof.
  intros Hm Hfit Htext Hk.
  destruct (advanced_lines P_eq_dec p bytes d (strips strip) Hfit Htext
              m strip Hm eq_refl) as [H1 [ite [me [oe [Ee [Hie _]]]]]].
  assert (Hreach : exists it m' o,
            iterator.advanced P_eq_dec k p m = Returned (it, m') /\
            iterating p bytes d (strips strip) it m' o).
  { apply Nat.lt_eq_cases in Hk. destruct Hk as [Hk| ->].
    - destruct (H1 k Hk) as [it [m' [o [E [Hi _]]]]].
      exists it, m', o. split; assumption.
    - exists ite, me, oe. split; assumption. }
  destruct Hreach as [it [m' [o [E Hi]]]].
  destruct (copy_spec p bytes d (strips strip) it m' o Hi)
    as [it' [C1 [C2 [C3 [C4 [C5 [C6 C7]]]]]]].
  exists it, m', it'. split; [exact E|]. split; [exact C1|].
  assert (Hpre : firstn (iterator._M_size it) (iterator._M_line it')
                 = firstn (iterator._M_size it) (iterator._M_line it)).
  { rewrite <- (firstn_firstn_le (iterator._M_line it') _
                  (iterator._M_size it + 1)) by lia.
    rewrite C7. apply firstn_firstn_le. lia. }
  assert (Hnth : nth_error (iterator._M_line it') (iterator._M_size it)
                 = nth_error (iterator._M_line it) (iterator._M_size it)).
  { assert (H : forall l : list cell,
                nth_error (firstn (iterator._M_size it + 1) l)
                  (iterator._M_size it)
                = nth_error l (iterator._M_size it)).
    { intro l. rewrite nth_error_firstn.
      destruct (Nat.ltb_spec (iterator._M_size it)
                  (iterator._M_size it + 1)); [reflexivity|lia]. }
    rewrite <- (H (iterator._M_line it')), C7. apply H. }
  unfold iterator.operator_eq, iterator.line, iterator.deref,
    iterator.size, line_at, load.
  rewrite C2, C3, C4, Hnth.
  destruct (iterator._M_reader it) as [q|].
  - rewrite Hpre. destruct (P_eq_dec q q); [|congruence].
    rewrite Nat.eqb_refl. repeat split.
  - rewrite Nat.eqb_refl. repeat split.
Qed.

(** X16: the iterators of one reader share its stream.  When an iterator
    that holds line [k] is copied and the copy is incremented, the copy
    holds line [k + 1]; incrementing the original after that gives it line
    [k + 2], not line [k + 1]: every line is handed out once. *)
Theorem file_iterators_share_the_stream
  {P : Type} (P_eq_dec : forall a b : P, {a = b} + {a <> b}) (p : P)
  (m : @iterator.memory P) (bytes : list ascii) (d : ascii)
  (strip : strip_type) (k : nat) :
  m p = file_line_reader bytes d strip ->
  (Z.of_nat (List.length bytes) < 2 ^ 63)%Z ->
  (d = LF ->
   ~ In NUL bytes /\ (2 * Z.of_nat (List.length bytes) + 2 < 2 ^ 31)%Z) ->
  let lines :=
    mmap_line_reader.lines
      {| mmap_line_reader.data := bytes;
         mmap_line_reader._M_delimiter := d;
         mmap_line_reader._M_strip_delimiter := strips strip |} in
  k + 2 < List.length lines ->
  exists it m1 c,
    iterator.advanced P_eq_dec k p m = Returned (it, m1) /\
    iterator.copy it = Some c /\
    iterator.line it = nth_error lines k /\
    exists c' m2,
      iterator.operator_inc P_eq_dec c m1 = Returned (c', m2) /\
      iterator.line c' = nth_error lines (k + 1) /\
      exists it' m3,
        iterator.operator_inc P_eq_dec it m2 = Returned (it', m3) /\
        iterator.line it' = nth_error lines (k + 2).
Proof.
  intros Hm Hfit Htext lines Hk.
  exact (shared_stream_spec P_eq_dec p bytes d (strips strip) Hfit Htext
           m strip k Hm eq_refl Hk).
Qed.
End file_line_reader.

(** A reader of [a,b] with [','] as delimiter, and a reader of the two
    lines [a] and [b] with the line feed as delimiter. *)
Definition example_delimited : file_line_reader.reader :=
  file_line_reader.file_line_reader ["a"; ","; "b"]%char ","%char
    file_line_reader.strip_delimiter.

Definition example_text : file_line_reader.reader :=
  file_line_reader.file_line_reader
    ["a"%char; file_line_reader.LF; "b"%char] file_line_reader.LF
    file_line_reader.strip_delimiter.

Lemma read_delimited_like_mapped_witness :
  exists res,
    file_line_reader.read example_delimited
      (file_line_reader.new_char 1) 0 1
    = file_line_reader.Returned res /\
    file_line_reader.reads_like_mapped example_delimited
      (file_line_reader.new_char 1) 0 1 res.
Proof.
  apply (file_line_reader.read_delimited_like_mapped example_delimited
           (file_line_reader.new_char 1) 0 1).
  - reflexivity.
  - discriminate.
  - reflexivity.
  - lia.
  - vm_compute. reflexivity.
Defined.

Lemma read_newline_like_mapped_witness :
  exists res,
    file_line_reader.read example_text (file_line_reader.new_char 2) 0 2
    = file_line_reader.Returned res /\
    file_line_reader.reads_like_mapped example_text
      (file_line_reader.new_char 2) 0 2 res.
Proof.
  apply (file_line_reader.read_newline_like_mapped example_text
           (file_line_reader.new_char 2) 0 2).
  - reflexivity.
  - reflexivity.
  - reflexivity.
  - lia.
  - vm_compute. reflexivity.
  - vm_compute. intros [H|[H|[]]]; discriminate H.
  - vm_compute. reflexivity.
Defined.

Lemma read_newline_nul_first_witness :
  file_line_reader.read
    (file_line_reader.file_line_reader
       [file_line_reader.NUL; "a"%char; file_line_reader.LF]
       file_line_reader.LF file_line_reader.strip_delimiter)
    (file_line_reader.new_char file_line_reader.BUFFER_SIZE) 0
    file_line_reader.BUFFER_SIZE
  = file_line_reader.Undefined.
Proof.
  apply (file_line_reader.read_newline_nul_first
           (file_line_reader.file_line_reader
              [file_line_reader.NUL; "a"%char; file_line_reader.LF]
              file_line_reader.LF file_line_reader.strip_delimiter)
           ["a"%char; file_line_reader.LF]).
  - reflexivity.
  - reflexivity.
  - reflexivity.
  - vm_compute. lia.
  - vm_compute. reflexivity.
Defined.

Lemma file_iterator_yields_mapped_lines_witness :
  exists it m',
    file_line_reader.iterator.advanced Nat.eq_dec 1 0
      (fun _ : nat => example_text)
    = file_line_reader.Returned (it, m') /\
    file_line_reader.iterator.line it
    = nth_error
        (mmap_line_reader.lines
           {| mmap_line_reader.data :=
                ["a"%char; file_line_reader.LF; "b"%char];
              mmap_line_reader._M_delimiter := file_line_reader.LF;
              mmap_line_reader._M_strip_delimiter := true |}) 1 /\
    file_line_reader.iterator.operator_eq Nat.eq_dec it
      file_line_reader.iterator.end_ = false.
Proof.
  refine (proj1 (file_line_reader.file_iterator_yields_mapped_lines
                   Nat.eq_dec 0 (fun _ : nat => example_text)
                   ["a"%char; file_line_reader.LF; "b"%char]
                   file_line_reader.LF file_line_reader.strip_delimiter 1
                   _ _ _) _).
  - reflexivity.
  - vm_compute. reflexivity.
  - intros _. split.
    + vm_compute. intros [H|[H|[H|[]]]]; discriminate H.
    + vm_compute. reflexivity.
  - vm_compute. lia.
Defined.

Lemma file_iterator_copy_witness :
  exists it m' it',
    file_line_reader.iterator.advanced Nat.eq_dec 1 0
      (fun _ : nat => example_delimited)
    = file_line_reader.Returned (it, m') /\
    file_line_reader.iterator.copy it = Some it' /\
    file_line_reader.iterator.operator_eq Nat.eq_dec it it' = true /\
    file_line_reader.iterator.size it' = file_line_reader.iterator.size it /\
    file_line_reader.iterator.line it' = file_line_reader.iterator.line it /\
    file_line_reader.load (file_line_reader.iterator._M_line it')
      (file_line_reader.iterator.size it')
    = file_line_reader.load (file_line_reader.iterator._M_line it)
        (file_line_reader.iterator.size it).
Proof.
  apply (file_line_reader.file_iterator_copy
           Nat.eq_dec 0 (fun _ : nat => example_delimited)
           ["a"; ","; "b"]%char ","%char
           file_line_reader.strip_delimiter 1).
  - reflexivity.
  - vm_compute. reflexivity.
  - discriminate.
  - vm_compute. lia.
Defined.

Lemma file_iterators_share_the_stream_witness :
  exists it m1 c,
    file_line_reader.iterator.advanced Nat.eq_dec 0 0
      (fun _ : nat =>
         file_line_reader.file_line_reader ["a"; ","; "b"; ","; "c"]%char
           ","%char file_line_reader.strip_delimiter)
    = file_line_reader.Returned (it, m1) /\
    file_line_reader.iterator.copy it = Some c /\
    file_line_reader.iterator.line it = Some ["a"%char] /\
    exists c' m2,
      file_line_reader.iterator.operator_inc Nat.eq_dec c m1
      = file_line_reader.Returned (c', m2) /\
      file_line_reader.iterator.line c' = Some ["b"%char] /\
      exists it' m3,
        file_line_reader.iterator.operator_inc Nat.eq_dec it m2
        = file_line_reader.Returned (it', m3) /\
        file_line_reader.iterator.line it' = Some ["c"%char].
Proof.
  apply (file_line_reader.file_iterators_share_the_stream
           Nat.eq_dec 0
           (fun _ : nat =>
              file_line_reader.file_line_reader
                ["a"; ","; "b"; ","; "c"]%char
                ","%char file_line_reader.strip_delimiter)
           ["a"; ","; "b"; ","; "c"]%char ","%char
           file_line_reader.strip_delimiter 0).
  - reflexivity.
  - vm_compute. reflexivity.
  - discriminate.
  - vm_compute. lia.
Defined.
